(** * Adalpha: a shallow embedding of [Adalpha.py]

    The optimizers [Adalpha] and [AdAlpha_Momentum] and the callbacks
    [Adalpha_Callback] and [OneCallback] are embedded as functions over
    explicit state.

    Numbers.  Python floats and TensorFlow float tensors are read as ideal
    real numbers ([R]); rounding, infinities and NaN are outside the model.
    Where the source relies on an operation that is partial on the reals the
    model says what happens: [divide_no_nan] tests its denominator and
    Python's [/] raises [ZeroDivisionError].  [tf.sqrt] of a negative
    number and a tensor division by 0 yield NaN or an infinity in the
    program; the model computes them with the total [sqrt] and [/] of the
    standard library, whose values there (0) are values of no run of the
    program.  [real_step] names the steps that take their square roots of
    non-negative numbers and divide by numbers other than 0.  Floats also
    flush very small squares to 0, which the reals do not;
    [normal_magnitude] names the magnitudes at which [_m_activ] meets
    neither that nor an overflow.

    Calls.  A method is modelled as Python evaluates its body when it is
    called; [update_step] reads [self.std] then.  When and how often the
    host evaluates the body of [update_step] is the host's affair.

    Tensors.  Every operation of the source is elementwise or a reduction
    over all elements, so a tensor is the list of its elements.  Sparse
    gradients index the first axis; the model takes that axis to be the
    only one, a slice being one element.  Operands of a binary operation
    must have the same shape: any other case is reported as [ShapeError]
    and nothing is claimed about it (broadcasting is not modelled). *)

From Stdlib Require Import String.
From Stdlib Require Import Reals Lra Lia List Bool Arith ZArith.
Import ListNotations.

Open Scope R_scope.

(** ** Errors *)

Inductive Error : Type :=
| IndexError          (* a Python list indexed out of range *)
| ShapeError          (* tensor operands of different shapes *)
| InvalidArgument     (* scatter_add with an index outside the variable *)
| ZeroDivisionError.  (* Python float division by zero *)

Inductive Result (A : Type) : Type :=
| Ok (a : A)
| Raise (e : Error).

Arguments Ok {A} a.
Arguments Raise {A} e.

Definition bind {A B : Type} (c : Result A) (f : A -> Result B) : Result B :=
  match c with
  | Ok a => f a
  | Raise e => Raise e
  end.

Notation "x <- c1 ;; c2" := (bind c1 (fun x => c2))
  (at level 61, c1 at next level, right associativity).

(** ** Tensors *)

Definition Tensor : Type := list R.

Fixpoint map2 (f : R -> R -> R) (x y : Tensor) : Tensor :=
  match x, y with
  | a :: x', b :: y' => f a b :: map2 f x' y'
  | _, _ => []
  end.

Fixpoint set_nth {A : Type} (i : nat) (a : A) (l : list A) : list A :=
  match l, i with
  | [], _ => []
  | _ :: l', O => a :: l'
  | b :: l', S i' => b :: set_nth i' a l'
  end.

(** Python [l[k]] on a list. *)
Definition getitem {A : Type} (l : list A) (k : nat) : Result A :=
  match nth_error l k with
  | Some a => Ok a
  | None => Raise IndexError
  end.

(** A binary elementwise operation on tensors of one shape. *)
Definition tf_binop (f : R -> R -> R) (x y : Tensor) : Result Tensor :=
  if Nat.eqb (length x) (length y) then Ok (map2 f x y) else Raise ShapeError.

Definition tf_sub : Tensor -> Tensor -> Result Tensor := tf_binop Rminus.
Definition tf_div : Tensor -> Tensor -> Result Tensor := tf_binop Rdiv.
Definition tf_maximum : Tensor -> Tensor -> Result Tensor := tf_binop Rmax.

(** [x * c], [x + c] and [-x] for a tensor [x] and a scalar [c]. *)
Definition scale (x : Tensor) (c : R) : Tensor := map (fun a => a * c) x.
Definition add_scalar (x : Tensor) (c : R) : Tensor := map (fun a => a + c) x.
Definition neg (x : Tensor) : Tensor := map Ropp x.

Definition tf_square (x : Tensor) : Tensor := map (fun a => a * a) x.

(** [tf.sqrt].  It agrees with the program on the non-negative elements; on
    a negative element the program yields NaN, which no real number
    stands for (see [real_step]). *)
Definition tf_sqrt (x : Tensor) : Tensor := map sqrt x.

Definition reduce_sum (x : Tensor) : R := fold_right Rplus 0 x.

Definition reduce_mean (x : Tensor) : R := reduce_sum x / INR (length x).

(** [tf.math.reduce_std]: the population standard deviation. *)
Definition reduce_std (x : Tensor) : R :=
  let mu := reduce_mean x in
  sqrt (reduce_mean (tf_square (map (fun a => a - mu) x))).

(** [tf.math.divide_no_nan]: 0 where the denominator is 0. *)
Definition divide_no_nan (x y : R) : R :=
  if Req_dec_T y 0 then 0 else x / y.

(** Variable methods. *)
Definition assign (var value : Tensor) : Result Tensor :=
  if Nat.eqb (length var) (length value) then Ok value else Raise ShapeError.

Definition assign_add (var delta : Tensor) : Result Tensor :=
  tf_binop Rplus var delta.

Definition assign_sub (var delta : Tensor) : Result Tensor :=
  tf_binop Rminus var delta.

(** [var.scatter_add(tf.IndexedSlices(values, indices))]: every slice is
    added at its index, one after the other, so an index that occurs twice
    receives both slices. *)
Fixpoint scatter_add (var values : Tensor) (indices : list nat) : Result Tensor :=
  match values, indices with
  | [], [] => Ok var
  | x :: values', i :: indices' =>
      match nth_error var i with
      | Some y => scatter_add (set_nth i (y + x) var) values' indices'
      | None => Raise InvalidArgument
      end
  | _, _ => Raise ShapeError
  end.

Definition zeros (n : nat) : Tensor := repeat 0 n.

(** The dense tensor of length [n] that a sparse gradient stands for. *)
Definition dense_equivalent (n : nat) (values : Tensor) (indices : list nat)
  : Result Tensor :=
  scatter_add (zeros n) values indices.

(** A gradient is a dense tensor or a [tf.IndexedSlices]. *)
Inductive Gradient : Type :=
| Dense (gradient : Tensor)
| IndexedSlices (values : Tensor) (indices : list nat).

(** ** The optimizer object *)

Record Optimizer : Type := mkOptimizer {
  learning_rate : R;
  beta_1 : R;
  beta_2 : R;
  epsilon : R;
  amsgrad : bool;
  chaos_punish : nat;
  std : R;
  iterations : nat;
  _built : bool;
  _momentums : list Tensor;
  _velocities : list Tensor;
  _velocity_hats : list Tensor
}.

(** The moment tensors of slot [k] replaced. *)
Definition store (self : Optimizer) (k : nat) (m v : Tensor)
  (v_hats : list Tensor) : Optimizer :=
  {| learning_rate := learning_rate self;
     beta_1 := beta_1 self;
     beta_2 := beta_2 self;
     epsilon := epsilon self;
     amsgrad := amsgrad self;
     chaos_punish := chaos_punish self;
     std := std self;
     iterations := iterations self;
     _built := _built self;
     _momentums := set_nth k m (_momentums self);
     _velocities := set_nth k v (_velocities self);
     _velocity_hats := v_hats |}.

(** Modelled from the spec: the host's [add_variable_from_reference], absent
    from the sources, "allocates a zero tensor shaped like parameter". *)
Definition add_variable_from_reference (model_variable : Tensor) : Tensor :=
  map (fun _ => 0) model_variable.

(** Lines 127-131 and 136-140, 215-219 and 224-228 of the source are the same
    five statements: the AMS-grad maximum and the parameter update. *)
Definition apply_update (self : Optimizer) (k : nat) (m v : Tensor)
  (alpha : R) (variable : Tensor) : Result (Optimizer * Tensor) :=
  if amsgrad self then
    v_hat <- getitem (_velocity_hats self) k ;;
    mx <- tf_maximum v_hat v ;;
    v_hat <- assign v_hat mx ;;
    q <- tf_div (scale m alpha) (add_scalar (tf_sqrt v_hat) (epsilon self)) ;;
    variable <- assign_sub variable q ;;
    Ok (store self k m v (set_nth k v_hat (_velocity_hats self)), variable)
  else
    q <- tf_div (scale m alpha) (add_scalar (tf_sqrt v) (epsilon self)) ;;
    variable <- assign_sub variable q ;;
    Ok (store self k m v (_velocity_hats self), variable).

Module Adalpha.

(** [__init__]: the hyperparameters the class keeps; the control signal
    [std] starts at 1.0.  [chaos_punishment] is an integer, as in the
    default (1) and in the driver script (6), so the Python power is an
    integer power.  [iterations] is the host's step counter, which starts
    at 0. *)
Definition init (learning_rate : R) (chaos_punishment : nat)
  (beta_1 beta_2 epsilon : R) (amsgrad : bool) : Optimizer :=
  {| learning_rate := learning_rate;
     beta_1 := beta_1;
     beta_2 := beta_2;
     epsilon := epsilon;
     amsgrad := amsgrad;
     chaos_punish := chaos_punishment;
     std := 1;
     iterations := 0;
     _built := false;
     _momentums := [];
     _velocities := [];
     _velocity_hats := [] |}.

(** The constructor's default arguments. *)
Definition default : Optimizer := init 0.001 1 0.9 0.999 1e-7 false.

(** [build].  The call to the host's [super().build] only prepares the
    index of the variables, which the model replaces by slot numbers. *)
Definition build (var_list : list Tensor) (self : Optimizer) : Optimizer :=
  if _built self then self
  else
    {| learning_rate := learning_rate self;
       beta_1 := beta_1 self;
       beta_2 := beta_2 self;
       epsilon := epsilon self;
       amsgrad := amsgrad self;
       chaos_punish := chaos_punish self;
       std := std self;
       iterations := iterations self;
       _built := true;
       _momentums := map add_variable_from_reference var_list;
       _velocities := map add_variable_from_reference var_list;
       _velocity_hats :=
         if amsgrad self then map add_variable_from_reference var_list
         else _velocity_hats self |}.

Definition update_loss (new_std : R) (self : Optimizer) : Optimizer :=
  {| learning_rate := learning_rate self;
     beta_1 := beta_1 self;
     beta_2 := beta_2 self;
     epsilon := epsilon self;
     amsgrad := amsgrad self;
     chaos_punish := chaos_punish self;
     std := new_std;
     iterations := iterations self;
     _built := _built self;
     _momentums := _momentums self;
     _velocities := _velocities self;
     _velocity_hats := _velocity_hats self |}.

(** [update_step(gradient, variable)]; [k] is the slot
    [self._index_dict[self._var_key(variable)]] of the variable. *)
Definition update_step (gradient : Gradient) (variable : Tensor) (k : nat)
  (self : Optimizer) : Result (Optimizer * Tensor) :=
  let lr := learning_rate self in
  let local_step := S (iterations self) in
  let beta_1_power := beta_1 self ^ local_step in
  let beta_2_power := beta_2 self ^ local_step in
  m <- getitem (_momentums self) k ;;
  v <- getitem (_velocities self) k ;;
  let alpha :=
    lr * (sqrt (1 - beta_2_power) / (1 - beta_1_power))
    * (1 - std self * INR (chaos_punish self)) ^ chaos_punish self in
  match gradient with
  | IndexedSlices values indices =>
      m <- assign_add m (scale (neg m) (1 - beta_1 self)) ;;
      m <- scatter_add m (scale values (1 - beta_1 self)) indices ;;
      v <- assign_add v (scale (neg v) (1 - beta_2 self)) ;;
      v <- scatter_add v (scale (tf_square values) (1 - beta_2 self)) indices ;;
      apply_update self k m v alpha variable
  | Dense gradient =>
      dm <- tf_sub gradient m ;;
      m <- assign_add m (scale dm (1 - beta_1 self)) ;;
      dv <- tf_sub (tf_square gradient) v ;;
      v <- assign_add v (scale dv (1 - beta_2 self)) ;;
      apply_update self k m v alpha variable
  end.

End Adalpha.

Module AdAlpha_Momentum.

(** The tensor that the [tf.math.divide_no_nan(...)] call inside [_m_activ]
    returns.  The mean and the standard deviation are scalars, reduced over
    the whole tensor. *)
Definition _m_activ_quotient (m : Tensor) : Tensor :=
  let mean := reduce_mean m in
  let sd := reduce_std m in
  map (fun x =>
         divide_no_nan
           (x * x - Rsqr (0.01 * Rabs (Rabs mean - sd)))
           (x * x + 0.1 * Rsqr (Rabs mean - sd))) m.

(** [_m_activ]: [m * tf.pow(2 - tf.math.divide_no_nan(...), 2)]. *)
Definition _m_activ (m : Tensor) : Tensor :=
  map2 (fun x q => x * (2 - q) ^ 2) m (_m_activ_quotient m).

Definition update_step (gradient : Gradient) (variable : Tensor) (k : nat)
  (self : Optimizer) : Result (Optimizer * Tensor) :=
  let lr := learning_rate self in
  let local_step := S (iterations self) in
  let beta_1_power := beta_1 self ^ local_step in
  let beta_2_power := beta_2 self ^ local_step in
  m <- getitem (_momentums self) k ;;
  v <- getitem (_velocities self) k ;;
  let alpha :=
    lr * (sqrt (1 - beta_2_power) / (1 - beta_1_power))
    * std self ^ chaos_punish self in
  match gradient with
  | IndexedSlices values indices =>
      m <- assign_add m (_m_activ (scale (neg m) (1 - beta_1 self))) ;;
      m <- scatter_add m (_m_activ (scale values (1 - beta_1 self))) indices ;;
      v <- assign_add v (_m_activ (scale (neg v) (1 - beta_2 self))) ;;
      v <- scatter_add v
             (_m_activ (scale (tf_square values) (1 - beta_2 self))) indices ;;
      apply_update self k m v alpha variable
  | Dense gradient =>
      dm <- tf_sub gradient m ;;
      m <- assign_add m (_m_activ (scale dm (1 - beta_1 self))) ;;
      dv <- tf_sub (tf_square gradient) v ;;
      v <- assign_add v (_m_activ (scale dv (1 - beta_2 self))) ;;
      apply_update self k m v alpha variable
  end.

End AdAlpha_Momentum.

(** ** The callbacks *)

(** Python's [x / y] on floats. *)
Definition py_div (x y : R) : Result R :=
  if Req_dec_T y 0 then Raise ZeroDivisionError else Ok (x / y).

(** Python's [l[s:]] for an integer [s] of either sign. *)
Definition slice_from {A : Type} (s : Z) (l : list A) : list A :=
  let n := Z.of_nat (length l) in
  let start := if (s <? 0)%Z then Z.max 0 (s + n) else Z.min s n in
  skipn (Z.to_nat start) l.

Module Adalpha_Callback.

(** The callback keeps a reference to the optimizer; the model passes the
    optimizer next to the callback's own fields. *)
Record t : Type := mk {
  loss : R;
  ema_w : R;
  change : R;
  a : R;
  b : R
}.

Definition init (ema_w change : R) : t :=
  {| loss := 1; ema_w := ema_w; change := change; a := 1; b := 1 |}.

(** [_calculate_loss_std].  The two assignments are done when the division
    raises, so the callback's fields are returned in both cases. *)
Definition _calculate_loss_std (self : t) (optimizer : Optimizer)
  : t * Result Optimizer :=
  let self :=
    {| loss := loss self; ema_w := ema_w self; change := change self;
       a := ema_w self * loss self + (1 - ema_w self) * a self;
       b := b self |} in
  let self :=
    {| loss := loss self; ema_w := ema_w self; change := change self;
       a := a self;
       b := (1 - ema_w self) * loss self + ema_w self * b self |} in
  (self,
   new_std <- py_div (change self * a self) (b self) ;;
   Ok (Adalpha.update_loss new_std optimizer)).

(** [on_train_batch_end(batch, logs)]; [logs_loss] is [logs["loss"]]. *)
Definition on_train_batch_end (logs_loss : R) (self : t)
  (optimizer : Optimizer) : t * Result Optimizer :=
  let self :=
    {| loss := logs_loss; ema_w := ema_w self; change := change self;
       a := a self; b := b self |} in
  _calculate_loss_std self optimizer.

End Adalpha_Callback.

Module OneCallback.

Record t : Type := mk {
  losses : list R;
  hold : Z;
  std : R
}.

Definition init (num_to_hold : Z) : t :=
  {| losses := []; hold := num_to_hold; std := 0 |}.

Definition _calculate_loss_std (self : t) (optimizer : Optimizer)
  : Optimizer :=
  Adalpha.update_loss 0 optimizer.

Definition on_train_batch_end (logs_loss : R) (self : t)
  (optimizer : Optimizer) : t * Optimizer :=
  let self :=
    {| losses := losses self ++ [logs_loss]; hold := hold self;
       std := std self |} in
  let self :=
    {| losses := slice_from (- hold self) (losses self); hold := hold self;
       std := std self |} in
  (self, _calculate_loss_std self optimizer).

(** One hook call for each of the batch losses, in order. *)
Fixpoint batches (logs_losses : list R) (self : t) (optimizer : Optimizer)
  : t * Optimizer :=
  match logs_losses with
  | [] => (self, optimizer)
  | l :: rest =>
      let '(self', optimizer') := on_train_batch_end l self optimizer in
      batches rest self' optimizer'
  end.

End OneCallback.

(** ** The host *)

(** Modelled from the spec: the host training loop, absent from the sources.
    It "invokes the Step Updater once per parameter tensor", owns the
    parameter tensors and the StepCounter, "incremented once per optimizer
    step (not per parameter)", and lets a controller write the
    ControlSignal at batch boundaries. *)
Inductive HostCall : Type :=
| CallUpdateStep (k : nat) (gradient : Gradient)
| CallUpdateLoss (new_std : R)
| CallIterate.

Definition World : Type := (Optimizer * list Tensor)%type.

Definition StepFn : Type :=
  Gradient -> Tensor -> nat -> Optimizer -> Result (Optimizer * Tensor).

Definition iterate (self : Optimizer) : Optimizer :=
  {| learning_rate := learning_rate self;
     beta_1 := beta_1 self;
     beta_2 := beta_2 self;
     epsilon := epsilon self;
     amsgrad := amsgrad self;
     chaos_punish := chaos_punish self;
     std := std self;
     iterations := S (iterations self);
     _built := _built self;
     _momentums := _momentums self;
     _velocities := _velocities self;
     _velocity_hats := _velocity_hats self |}.

Definition host_call (step : StepFn) (c : HostCall) (w : World) : Result World :=
  let '(self, variables) := w in
  match c with
  | CallUpdateStep k gradient =>
      variable <- getitem variables k ;;
      r <- step gradient variable k self ;;
      Ok (fst r, set_nth k (snd r) variables)
  | CallUpdateLoss new_std => Ok (Adalpha.update_loss new_std self, variables)
  | CallIterate => Ok (iterate self, variables)
  end.

Fixpoint host_run (step : StepFn) (calls : list HostCall) (w : World)
  : Result World :=
  match calls with
  | [] => Ok w
  | c :: calls' => w' <- host_call step c w ;; host_run step calls' w'
  end.

(** The two optimizer classes; [AdAlpha_Momentum] inherits [build] and
    [update_loss] and overrides [update_step]. *)
Inductive Variant : Type := Base | Momentum.

Definition step_of (variant : Variant) : StepFn :=
  match variant with
  | Base => Adalpha.update_step
  | Momentum => AdAlpha_Momentum.update_step
  end.

(** [n] optimizer steps on the variable of slot [k], each with an all-zero
    dense gradient of [len] elements. *)
Definition zero_gradient_steps (k len n : nat) : list HostCall :=
  concat (repeat [CallUpdateStep k (Dense (zeros len)); CallIterate] n).

(** ** Invariants of the moment store *)

(** Every second-moment tensor is elementwise non-negative. *)
Definition velocities_nonneg (self : Optimizer) : Prop :=
  forall k v, nth_error (_velocities self) k = Some v ->
              Forall (fun a => 0 <= a) v.

(** Every second-moment tensor has its [v_hat], elementwise at least [v]. *)
Definition hats_dominate (self : Optimizer) : Prop :=
  forall k v, nth_error (_velocities self) k = Some v ->
    exists v_hat, nth_error (_velocity_hats self) k = Some v_hat /\
                  Forall2 Rle v v_hat.

(** Slot [k] holds the moments [m] and [v] of the parameter [p], all of one
    shape, and a [v_hat] of that shape when AMS-grad is on. *)
Definition slot_ready (self : Optimizer) (variables : list Tensor) (k : nat)
  (m v p : Tensor) : Prop :=
  nth_error (_momentums self) k = Some m /\
  nth_error (_velocities self) k = Some v /\
  nth_error variables k = Some p /\
  length m = length p /\ length v = length p /\
  (amsgrad self = true ->
   exists v_hat, nth_error (_velocity_hats self) k = Some v_hat /\
                 length v_hat = length p).

(** The configuration a step reads and never writes. *)
Definition hyperparameters (self : Optimizer)
  : R * R * R * R * bool * nat * R :=
  (learning_rate self, beta_1 self, beta_2 self, epsilon self, amsgrad self,
   chaos_punish self, std self).

(** The bound on the size of a base-variant step per unit of first moment:
    [|lr * (1 - std*chaos_punish)^chaos_punish| / ((1 - beta_1) * epsilon)]. *)
Definition step_gain (self : Optimizer) : R :=
  Rabs (learning_rate self
        * (1 - std self * INR (chaos_punish self)) ^ chaos_punish self)
  / ((1 - beta_1 self) * epsilon self).

(** ** The activation as the specification words it *)

Definition spec_activate (x : Tensor) : Tensor :=
  let d := Rabs (reduce_mean x - reduce_std x) in
  map (fun xi =>
         xi * (2 - divide_no_nan (xi ^ 2 - d ^ 2) (xi ^ 2 + 0.1 * d ^ 2)) ^ 2) x.

(** The dispersion scalar of the source: [| |mean(x)| - std(x) |]. *)
Definition dispersion (x : Tensor) : R :=
  Rabs (Rabs (reduce_mean x) - reduce_std x).


(** ** The rest of the source *)

(** The step scale [alpha] of the two [update_step] methods (lines 109-110
    and 198). *)
Definition step_scale (variant : Variant) (self : Optimizer) : R :=
  match variant with
  | Base =>
      learning_rate self
      * (sqrt (1 - beta_2 self ^ S (iterations self))
         / (1 - beta_1 self ^ S (iterations self)))
      * (1 - std self * INR (chaos_punish self)) ^ chaos_punish self
  | Momentum =>
      learning_rate self
      * (sqrt (1 - beta_2 self ^ S (iterations self))
         / (1 - beta_1 self ^ S (iterations self)))
      * std self ^ chaos_punish self
  end.

(** A call the host may make on variables of the given lengths: a dense
    gradient has the variable's length; a sparse one has one value per index
    and every index inside the variable. *)
Definition call_ok (shape : list nat) (c : HostCall) : Prop :=
  match c with
  | CallUpdateStep k (Dense g) => nth_error shape k = Some (length g)
  | CallUpdateStep k (IndexedSlices values indices) =>
      exists n, nth_error shape k = Some n /\
                length values = length indices /\
                Forall (fun i => (i < n)%nat) indices
  | CallUpdateLoss _ => True
  | CallIterate => True
  end.

(** The moment lists match the variables in number and in length. *)
Definition shapes_ok (shape : list nat) (w : World) : Prop :=
  map (@length R) (snd w) = shape /\
  map (@length R) (_momentums (fst w)) = shape /\
  map (@length R) (_velocities (fst w)) = shape /\
  (amsgrad (fst w) = true -> map (@length R) (_velocity_hats (fst w)) = shape).

(** *** get_config *)

Inductive ConfigValue : Type :=
| CFloat (r : R)
| CBool (b : bool)
| COther (tag : String.string).

(** A Python dict with string keys, in insertion order. *)
Definition Config : Type := list (String.string * ConfigValue).

Fixpoint dict_get (key : String.string) (d : Config) : option ConfigValue :=
  match d with
  | [] => None
  | (k, v) :: d' => if String.eqb k key then Some v else dict_get key d'
  end.

(** [d[key] = v]: an existing key keeps its place. *)
Fixpoint dict_set (key : String.string) (v : ConfigValue) (d : Config) : Config :=
  match d with
  | [] => [(key, v)]
  | (k, v0) :: d' =>
      if String.eqb k key then (k, v) :: d' else (k, v0) :: dict_set key v d'
  end.

(** [d.update(u)]. *)
Definition dict_update (d u : Config) : Config :=
  fold_left (fun acc kv => dict_set (fst kv) (snd kv) acc) u d.

(** [Adalpha.get_config]; [super_config] is what the host's
    [super().get_config()] returns, and the learning rate is a float, which
    the host's [_serialize_hyperparameter] returns as it is. *)
Definition get_config (super_config : Config) (self : Optimizer) : Config :=
  dict_update super_config
    [("learning_rate"%string, CFloat (learning_rate self));
     ("beta_1"%string, CFloat (beta_1 self));
     ("beta_2"%string, CFloat (beta_2 self));
     ("epsilon"%string, CFloat (epsilon self));
     ("amsgrad"%string, CBool (amsgrad self))].

(** *** Adalpha_Callback over a sequence of batches *)

(** Modelled from the spec: the host calls the batch-end hook once per batch
    with that batch's loss; an exception ends the training. *)
Fixpoint callback_batches (logs_losses : list R) (self : Adalpha_Callback.t)
  (optimizer : Optimizer) : Adalpha_Callback.t * Result Optimizer :=
  match logs_losses with
  | [] => (self, Ok optimizer)
  | l :: rest =>
      match Adalpha_Callback.on_train_batch_end l self optimizer with
      | (self', Ok optimizer') => callback_batches rest self' optimizer'
      | (self', Raise e) => (self', Raise e)
      end
  end.

(** *** Adalpha_Plot *)

(** A value recorded for the plot.  The recorded quotient is computed on
    tensors ([optimizer.learning_rate] is one), where a division by 0 raises
    nothing and yields a value that is not a real number. *)
Inductive Recorded : Type :=
| Finite (r : R)
| NotFinite.

Definition tensor_div (x y : R) : Recorded :=
  if Req_dec_T y 0 then NotFinite else Finite (x / y).

Module Adalpha_Plot.

(** [Adalpha_Plot] extends [Adalpha_Callback] with the list [stds]. *)
Record t : Type := mk {
  base : Adalpha_Callback.t;
  stds : list Recorded
}.

Definition init (ema_w change : R) : t :=
  {| base := Adalpha_Callback.init ema_w change; stds := [Finite 0] |}.

Definition _calculate_loss_std (self : t) (optimizer : Optimizer)
  : t * Result Optimizer :=
  let cb := base self in
  let cb :=
    {| Adalpha_Callback.loss := Adalpha_Callback.loss cb;
       Adalpha_Callback.ema_w := Adalpha_Callback.ema_w cb;
       Adalpha_Callback.change := Adalpha_Callback.change cb;
       Adalpha_Callback.a :=
         Adalpha_Callback.ema_w cb * Adalpha_Callback.loss cb
         + (1 - Adalpha_Callback.ema_w cb) * Adalpha_Callback.a cb;
       Adalpha_Callback.b := Adalpha_Callback.b cb |} in
  let cb :=
    {| Adalpha_Callback.loss := Adalpha_Callback.loss cb;
       Adalpha_Callback.ema_w := Adalpha_Callback.ema_w cb;
       Adalpha_Callback.change := Adalpha_Callback.change cb;
       Adalpha_Callback.a := Adalpha_Callback.a cb;
       Adalpha_Callback.b :=
         (1 - Adalpha_Callback.ema_w cb) * Adalpha_Callback.loss cb
         + Adalpha_Callback.ema_w cb * Adalpha_Callback.b cb |} in
  let self :=
    {| base := cb;
       stds :=
         stds self
         ++ [tensor_div
               (learning_rate optimizer
                * (Adalpha_Callback.change cb * Adalpha_Callback.a cb))
               (Adalpha_Callback.b cb)] |} in
  (self,
   new_std <- py_div (Adalpha_Callback.change cb * Adalpha_Callback.a cb)
                     (Adalpha_Callback.b cb) ;;
   Ok (Adalpha.update_loss new_std optimizer)).

(** Inherited from [Adalpha_Callback], with the overriding
    [_calculate_loss_std]. *)
Definition on_train_batch_end (logs_loss : R) (self : t)
  (optimizer : Optimizer) : t * Result Optimizer :=
  let cb := base self in
  let self :=
    {| base :=
         {| Adalpha_Callback.loss := logs_loss;
            Adalpha_Callback.ema_w := Adalpha_Callback.ema_w cb;
            Adalpha_Callback.change := Adalpha_Callback.change cb;
            Adalpha_Callback.a := Adalpha_Callback.a cb;
            Adalpha_Callback.b := Adalpha_Callback.b cb |};
       stds := stds self |} in
  _calculate_loss_std self optimizer.

Fixpoint batches (logs_losses : list R) (self : t) (optimizer : Optimizer)
  : t * Result Optimizer :=
  match logs_losses with
  | [] => (self, Ok optimizer)
  | l :: rest =>
      match on_train_batch_end l self optimizer with
      | (self', Ok optimizer') => batches rest self' optimizer'
      | (self', Raise e) => (self', Raise e)
      end
  end.

End Adalpha_Plot.

(** A host call of a run in which every gradient is dense and bounded by
    [G] in absolute value. *)
Definition dense_bounded (G : R) (c : HostCall) : Prop :=
  match c with
  | CallUpdateStep _ (Dense g) => Forall (fun a => Rabs a <= G) g
  | CallUpdateStep _ (IndexedSlices _ _) => False
  | CallUpdateLoss _ => True
  | CallIterate => True
  end.

(** Every element of every first moment is at most [G] in absolute value,
    and every element of every second moment at most [G^2]. *)
Definition moments_bounded (G : R) (self : Optimizer) : Prop :=
  (forall k m, nth_error (_momentums self) k = Some m ->
               Forall (fun a => Rabs a <= G) m) /\
  (forall k v, nth_error (_velocities self) k = Some v ->
               Forall (fun a => 0 <= a <= G * G) v).

(** ** Steps that stay inside the real numbers *)

(** The tensor whose square root a step on slot [k] took, read off the
    optimizer [self'] that the step left: the slot's [v_hat] with AMS-grad
    on (lines 129-131), its [v] with AMS-grad off. *)
Definition root_argument (self' : Optimizer) (k : nat) : option Tensor :=
  if amsgrad self' then nth_error (_velocity_hats self') k
  else nth_error (_velocities self') k.

(** A step from [self] to [self'] on slot [k] in which every operation has
    a real value: [1 - beta_2^t] and every element under the square root of
    the denominator are non-negative, and neither [1 - beta_1^t] nor an
    element of [sqrt(v) + epsilon] is 0. *)
Definition real_step (self self' : Optimizer) (k : nat) : Prop :=
  0 <= 1 - beta_2 self ^ S (iterations self) /\
  1 - beta_1 self ^ S (iterations self) <> 0 /\
  exists d, root_argument self' k = Some d /\
            Forall (fun a => 0 <= a /\ sqrt a + epsilon self <> 0) d.

(** A magnitude whose square, also after the factors 0.01 and 0.1 of
    [_m_activ], is neither flushed to 0 nor overflows in float32. *)
Definition normal_magnitude (a : R) : Prop := 1e-15 <= Rabs a <= 1e15.

(** ** Training with OneCallback *)

Definition is_update_step (c : HostCall) : bool :=
  match c with
  | CallUpdateStep _ _ => true
  | _ => false
  end.

Definition writes_signal (c : HostCall) : bool :=
  match c with
  | CallUpdateLoss _ => true
  | _ => false
  end.

(** The value that [self.std] holds when each [update_step] call of a run
    is entered, in order; the run ends at the first call that raises. *)
Fixpoint signals_read (step : StepFn) (calls : list HostCall) (w : World)
  : list R :=
  match calls with
  | [] => []
  | c :: calls' =>
      (if is_update_step c then [std (fst w)] else [])
      ++ match host_call step c w with
         | Ok w' => signals_read step calls' w'
         | Raise _ => []
         end
  end.

(** Modelled from the spec: "each training batch, the host computes
    gradients and invokes the Step Updater once per parameter tensor
    [...]; at batch end, the host invokes the Loss-Ratio Controller with the
    scalar loss".  A batch is given by the host's calls and the loss it
    reports; the controller is [OneCallback]. *)
Fixpoint one_callback_fit (step : StepFn) (batches : list (list HostCall * R))
  (cb : OneCallback.t) (w : World) : Result (OneCallback.t * World) :=
  match batches with
  | [] => Ok (cb, w)
  | (calls, logs_loss) :: rest =>
      w1 <- host_run step calls w ;;
      let r := OneCallback.on_train_batch_end logs_loss cb (fst w1) in
      one_callback_fit step rest (fst r) (snd r, snd w1)
  end.

(** [signals_read] over the batches of [one_callback_fit]. *)
Fixpoint one_callback_signals (step : StepFn)
  (batches : list (list HostCall * R)) (cb : OneCallback.t) (w : World)
  : list R :=
  match batches with
  | [] => []
  | (calls, logs_loss) :: rest =>
      signals_read step calls w
      ++ match host_run step calls w with
         | Ok w1 =>
             let r := OneCallback.on_train_batch_end logs_loss cb (fst w1) in
             one_callback_signals step rest (fst r) (snd r, snd w1)
         | Raise _ => []
         end
  end.

(** * Properties *)

(** ** Lists and tensors *)

Lemma map2_length (f : R -> R -> R) (x y : Tensor) :
  length x = length y -> length (map2 f x y) = length x.
Proof.
  revert y; induction x as [|a x IH]; intros [|b y] H; simpl in *;
    try discriminate; auto.
Qed.

Lemma nth_map2 (f : R -> R -> R) (x y : Tensor) (i : nat) (da db dc : R) :
  length x = length y -> (i < length x)%nat ->
  nth i (map2 f x y) dc = f (nth i x da) (nth i y db).
Proof.
  revert y i; induction x as [|a x IH]; intros [|b y] i H Hi; simpl in *;
    try discriminate; try lia.
  destruct i as [|i]; [reflexivity|]. apply IH; lia.
Qed.

Lemma tf_binop_ok (f : R -> R -> R) (x y : Tensor) :
  length x = length y -> tf_binop f x y = Ok (map2 f x y).
Proof.
  intros H. unfold tf_binop. rewrite H, Nat.eqb_refl. reflexivity.
Qed.

Lemma assign_ok (var value : Tensor) :
  length var = length value -> assign var value = Ok value.
Proof.
  intros H. unfold assign. rewrite H, Nat.eqb_refl. reflexivity.
Qed.

Lemma set_nth_length {A : Type} (i : nat) (a : A) (l : list A) :
  length (set_nth i a l) = length l.
Proof.
  revert i; induction l as [|b l IH]; intros [|i]; simpl; auto.
Qed.

Lemma nth_error_set_nth_eq {A : Type} (i : nat) (a : A) (l : list A) :
  (i < length l)%nat -> nth_error (set_nth i a l) i = Some a.
Proof.
  revert i; induction l as [|b l IH]; intros [|i] H; simpl in *; try lia; auto.
  apply IH; lia.
Qed.

Lemma nth_error_set_nth_neq {A : Type} (i j : nat) (a : A) (l : list A) :
  i <> j -> nth_error (set_nth i a l) j = nth_error l j.
Proof.
  revert i j; induction l as [|b l IH]; intros [|i] [|j] H; simpl; auto.
  congruence.
Qed.

Lemma nth_set_nth_eq (i : nat) (a d : R) (l : Tensor) :
  (i < length l)%nat -> nth i (set_nth i a l) d = a.
Proof.
  revert i; induction l as [|b l IH]; intros [|i] H; simpl in *; try lia; auto.
  apply IH; lia.
Qed.

Lemma nth_set_nth_neq (i j : nat) (a d : R) (l : Tensor) :
  i <> j -> nth j (set_nth i a l) d = nth j l d.
Proof.
  revert i j; induction l as [|b l IH]; intros [|i] [|j] H; simpl; auto.
  congruence.
Qed.

Lemma getitem_ok {A : Type} (l : list A) (k : nat) (a : A) :
  nth_error l k = Some a -> getitem l k = Ok a.
Proof. intros H. unfold getitem. rewrite H. reflexivity. Qed.

Lemma nth_map_zero (f : R -> R) (x : Tensor) (i : nat) :
  f 0 = 0 -> nth i (map f x) 0 = f (nth i x 0).
Proof.
  intros H. revert i; induction x as [|a x IH]; intros [|i]; simpl; auto.
Qed.

Lemma map2_self_map (f : R -> R -> R) (g : R -> R) (x : Tensor) :
  map2 f x (map g x) = map (fun a => f a (g a)) x.
Proof.
  induction x as [|a x IH]; simpl; auto. rewrite IH. reflexivity.
Qed.

(** ** Reductions of a tensor of one element *)

Lemma reduce_mean_singleton (a : R) : reduce_mean [a] = a.
Proof. unfold reduce_mean, reduce_sum. simpl. field. Qed.

Lemma reduce_std_singleton (a : R) : reduce_std [a] = 0.
Proof.
  unfold reduce_std. rewrite reduce_mean_singleton.
  unfold tf_square. simpl map. rewrite reduce_mean_singleton.
  replace ((a - a) * (a - a)) with 0 by ring. apply sqrt_0.
Qed.

Lemma dispersion_singleton (a : R) : dispersion [a] = Rabs a.
Proof.
  unfold dispersion. rewrite reduce_mean_singleton, reduce_std_singleton.
  rewrite Rminus_0_r. apply Rabs_Rabsolu.
Qed.

Lemma divide_no_nan_nonzero (x y : R) : y <> 0 -> divide_no_nan x y = x / y.
Proof.
  intros H. unfold divide_no_nan. destruct (Req_dec_T y 0); [contradiction|reflexivity].
Qed.


(** ** The momentum activation *)

(** The two scalars the source builds from the mean and the standard
    deviation, in terms of the dispersion. *)
Lemma m_activ_scalars (mu sd : R) :
  Rsqr (0.01 * Rabs (Rabs mu - sd)) = (0.01 * Rabs (Rabs mu - sd)) ^ 2 /\
  0.1 * Rsqr (Rabs mu - sd) = 0.1 * Rabs (Rabs mu - sd) ^ 2.
Proof.
  split.
  - unfold Rsqr. ring.
  - rewrite pow2_abs. unfold Rsqr. ring.
Qed.

Lemma m_activ_unfold (x : Tensor) :
  AdAlpha_Momentum._m_activ x =
  map (fun xi =>
         xi * (2 - divide_no_nan (xi ^ 2 - (0.01 * dispersion x) ^ 2)
                                 (xi ^ 2 + 0.1 * dispersion x ^ 2)) ^ 2) x.
Proof.
  unfold AdAlpha_Momentum._m_activ, AdAlpha_Momentum._m_activ_quotient,
    dispersion.
  rewrite map2_self_map. apply map_ext. intros xi.
  destruct (m_activ_scalars (reduce_mean x) (reduce_std x)) as [E1 E2].
  rewrite E1, E2. replace (xi * xi) with (xi ^ 2) by ring. reflexivity.
Qed.

(** C1, as amended: for every tensor [x], [_m_activ] returns
    [x * (2 - ((x^2 - (0.01*d)^2) safe-divided by (x^2 + 0.1*d^2)))^2]
    elementwise, where [d] is the single scalar [| |mean(x)| - std(x) |]
    reduced over the whole tensor, with the population standard deviation. *)
Theorem C1_m_activ_formula (x : Tensor) :
  AdAlpha_Momentum._m_activ x =
  map (fun xi =>
         xi * (2 - divide_no_nan (xi ^ 2 - (0.01 * dispersion x) ^ 2)
                                 (xi ^ 2 + 0.1 * dispersion x ^ 2)) ^ 2) x
  /\ dispersion x = Rabs (Rabs (reduce_mean x) - reduce_std x)
  /\ reduce_mean x = reduce_sum x / INR (length x)
  /\ reduce_std x =
     sqrt (reduce_sum (map (fun a => (a - reduce_mean x) ^ 2) x) / INR (length x)).
Proof.
  split; [apply m_activ_unfold|].
  split; [reflexivity|]. split; [reflexivity|].
  unfold reduce_std, reduce_mean at 1, tf_square.
  rewrite !map_map, !length_map. f_equal. f_equal. f_equal.
  apply map_ext. intros a. ring.
Qed.

(** C1, as the specification states it, fails on the tensor [[1]]: its
    formula gives 4 there, the source gives (2 - 0.9999/1.1)^2. *)
Lemma C1_counterexample :
  AdAlpha_Momentum._m_activ [1] = [1 * (2 - 0.9999 / 1.1) ^ 2] /\
  spec_activate [1] = [1 * (2 - 0) ^ 2] /\
  AdAlpha_Momentum._m_activ [1] <> spec_activate [1].
Proof.
  assert (E1 : AdAlpha_Momentum._m_activ [1] = [1 * (2 - 0.9999 / 1.1) ^ 2]).
  { rewrite m_activ_unfold, dispersion_singleton, Rabs_R1. cbn [map].
    rewrite divide_no_nan_nonzero by lra.
    do 3 f_equal. lra. }
  assert (E2 : spec_activate [1] = [1 * (2 - 0) ^ 2]).
  { unfold spec_activate.
    rewrite reduce_mean_singleton, reduce_std_singleton, Rminus_0_r, Rabs_R1.
    cbn [map]. rewrite divide_no_nan_nonzero by lra.
    do 3 f_equal. lra. }
  split; [exact E1|]. split; [exact E2|].
  rewrite E1, E2. intros H. injection H as H. lra.
Qed.

(** ** Fusing elementwise operations *)

Lemma map2_ext (f g : R -> R -> R) (x y : Tensor) :
  (forall a b, f a b = g a b) -> map2 f x y = map2 g x y.
Proof.
  intros H. revert y; induction x as [|a x IH]; intros [|b y]; simpl; auto.
  rewrite H, IH. reflexivity.
Qed.

Lemma map2_map_l (f : R -> R -> R) (g : R -> R) (x y : Tensor) :
  map2 f (map g x) y = map2 (fun a b => f (g a) b) x y.
Proof.
  revert y; induction x as [|a x IH]; intros [|b y]; simpl; auto.
  rewrite IH. reflexivity.
Qed.

Lemma map2_map_r (f : R -> R -> R) (g : R -> R) (x y : Tensor) :
  map2 f x (map g y) = map2 (fun a b => f a (g b)) x y.
Proof.
  revert y; induction x as [|a x IH]; intros [|b y]; simpl; auto.
  rewrite IH. reflexivity.
Qed.

Lemma map_map2 (g : R -> R) (f : R -> R -> R) (x y : Tensor) :
  map g (map2 f x y) = map2 (fun a b => g (f a b)) x y.
Proof.
  revert y; induction x as [|a x IH]; intros [|b y]; simpl; auto.
  rewrite IH. reflexivity.
Qed.

(** [x op (y op' x)], as in [m + (gradient - m) * c]. *)
Lemma map2_self_r (f h : R -> R -> R) (x y : Tensor) :
  map2 f x (map2 h y x) = map2 (fun a b => f a (h b a)) x y.
Proof.
  revert y; induction x as [|a x IH]; intros [|b y]; simpl; auto.
  rewrite IH. reflexivity.
Qed.

Lemma scale_length (x : Tensor) (c : R) : length (scale x c) = length x.
Proof. apply length_map. Qed.

Lemma add_scalar_length (x : Tensor) (c : R) : length (add_scalar x c) = length x.
Proof. apply length_map. Qed.

Lemma tf_sqrt_length (x : Tensor) : length (tf_sqrt x) = length x.
Proof. apply length_map. Qed.

Lemma tf_square_length (x : Tensor) : length (tf_square x) = length x.
Proof. apply length_map. Qed.

Lemma neg_length (x : Tensor) : length (neg x) = length x.
Proof. apply length_map. Qed.

Lemma m_activ_quotient_length (x : Tensor) :
  length (AdAlpha_Momentum._m_activ_quotient x) = length x.
Proof. apply length_map. Qed.

Lemma m_activ_length (x : Tensor) :
  length (AdAlpha_Momentum._m_activ x) = length x.
Proof.
  unfold AdAlpha_Momentum._m_activ. apply map2_length.
  symmetry. apply m_activ_quotient_length.
Qed.

(** The step [(m * alpha) / (sqrt(v) + epsilon)], element by element. *)
Lemma step_quotient (m v : Tensor) (alpha eps : R) :
  map2 Rdiv (scale m alpha) (add_scalar (tf_sqrt v) eps) =
  map2 (fun mi vi => mi * alpha / (sqrt vi + eps)) m v.
Proof.
  unfold scale, add_scalar, tf_sqrt.
  rewrite map_map, map2_map_l, map2_map_r. reflexivity.
Qed.

(** ** The tail of a step: AMS-grad maximum and parameter update *)

Lemma apply_update_plain (self : Optimizer) (k : nat) (m v variable : Tensor)
  (alpha : R) :
  amsgrad self = false ->
  length m = length variable -> length v = length variable ->
  apply_update self k m v alpha variable =
  Ok (store self k m v (_velocity_hats self),
      map2 Rminus variable
        (map2 (fun mi vi => mi * alpha / (sqrt vi + epsilon self)) m v)).
Proof.
  intros Ha Hm Hv. unfold apply_update. rewrite Ha.
  unfold tf_div. rewrite tf_binop_ok
    by (rewrite scale_length, add_scalar_length, tf_sqrt_length; congruence).
  cbn [bind]. unfold assign_sub. rewrite tf_binop_ok.
  - cbn [bind]. rewrite step_quotient. reflexivity.
  - rewrite map2_length; rewrite scale_length;
      [congruence | rewrite add_scalar_length, tf_sqrt_length; congruence].
Qed.

Lemma apply_update_ams (self : Optimizer) (k : nat) (m v v_hat variable : Tensor)
  (alpha : R) :
  amsgrad self = true ->
  nth_error (_velocity_hats self) k = Some v_hat ->
  length m = length variable -> length v = length variable ->
  length v_hat = length variable ->
  apply_update self k m v alpha variable =
  Ok (store self k m v (set_nth k (map2 Rmax v_hat v) (_velocity_hats self)),
      map2 Rminus variable
        (map2 (fun mi vi => mi * alpha / (sqrt vi + epsilon self)) m
              (map2 Rmax v_hat v))).
Proof.
  intros Ha Hh Hm Hv Hvh. unfold apply_update. rewrite Ha.
  rewrite (getitem_ok _ _ _ Hh). cbn [bind].
  unfold tf_maximum. rewrite tf_binop_ok by congruence. cbn [bind].
  assert (Hmx : length (map2 Rmax v_hat v) = length variable)
    by (rewrite map2_length; congruence).
  rewrite assign_ok by congruence. cbn [bind].
  unfold tf_div. rewrite tf_binop_ok
    by (rewrite scale_length, add_scalar_length, tf_sqrt_length; congruence).
  cbn [bind]. unfold assign_sub. rewrite tf_binop_ok.
  - cbn [bind]. rewrite step_quotient. reflexivity.
  - rewrite map2_length; rewrite scale_length;
      [congruence | rewrite add_scalar_length, tf_sqrt_length; congruence].
Qed.

(** What slot [k] holds after [store]. *)
Lemma store_momentums (self : Optimizer) (k : nat) (m v : Tensor)
  (hats : list Tensor) :
  (k < length (_momentums self))%nat ->
  nth_error (_momentums (store self k m v hats)) k = Some m.
Proof. intros H. simpl. apply nth_error_set_nth_eq, H. Qed.

Lemma store_velocities (self : Optimizer) (k : nat) (m v : Tensor)
  (hats : list Tensor) :
  (k < length (_velocities self))%nat ->
  nth_error (_velocities (store self k m v hats)) k = Some v.
Proof. intros H. simpl. apply nth_error_set_nth_eq, H. Qed.

Lemma nth_error_lt {A : Type} (l : list A) (k : nat) (a : A) :
  nth_error l k = Some a -> (k < length l)%nat.
Proof. intros H. apply nth_error_Some. congruence. Qed.

(** ** The base variant, dense path *)

Lemma base_dense_step (self : Optimizer) (k : nat) (g m v variable : Tensor) :
  nth_error (_momentums self) k = Some m ->
  nth_error (_velocities self) k = Some v ->
  length m = length variable -> length v = length variable ->
  length g = length variable ->
  Adalpha.update_step (Dense g) variable k self =
  apply_update self k
    (map2 (fun mi gi => mi + (gi - mi) * (1 - beta_1 self)) m g)
    (map2 (fun vi gi => vi + (gi * gi - vi) * (1 - beta_2 self)) v g)
    (learning_rate self
     * (sqrt (1 - beta_2 self ^ S (iterations self))
        / (1 - beta_1 self ^ S (iterations self)))
     * (1 - std self * INR (chaos_punish self)) ^ chaos_punish self)
    variable.
Proof.
  intros Hm Hv Lm Lv Lg. unfold Adalpha.update_step.
  rewrite (getitem_ok _ _ _ Hm), (getitem_ok _ _ _ Hv). cbn [bind].
  unfold tf_sub, assign_add.
  rewrite (tf_binop_ok Rminus g m) by congruence. cbn [bind].
  rewrite (tf_binop_ok Rplus m)
    by (rewrite scale_length, map2_length; congruence).
  cbn [bind].
  rewrite (tf_binop_ok Rminus (tf_square g) v)
    by (rewrite tf_square_length; congruence).
  cbn [bind].
  rewrite (tf_binop_ok Rplus v)
    by (rewrite scale_length, map2_length; rewrite tf_square_length; congruence).
  cbn [bind].
  unfold scale, tf_square.
  rewrite !map2_map_r, !map2_self_r, map2_map_r. reflexivity.
Qed.

(** C2: one base-variant step on a dense gradient [g], for a parameter
    [variable] whose slot holds [(m, v)]: [m] becomes
    [m + (g - m)*(1 - beta_1)], [v] becomes [v + (g^2 - v)*(1 - beta_2)], and
    the parameter loses [(m * alpha) / (sqrt(v_or_vhat) + epsilon)] computed
    from the new moments, where
    [alpha = lr * sqrt(1 - beta_2^t) / (1 - beta_1^t)
             * (1 - std*chaos_punishment)^chaos_punishment],
    [t] counts the current step (the host's counter plus one) and, with
    AMS-grad on, the denominator tensor is the maximum of the old [v_hat] and
    the new [v], which also becomes the new [v_hat]. *)
Theorem C2_base_dense_update (self : Optimizer) (k : nat)
  (g m v variable : Tensor) :
  nth_error (_momentums self) k = Some m ->
  nth_error (_velocities self) k = Some v ->
  length m = length variable -> length v = length variable ->
  length g = length variable ->
  (amsgrad self = true ->
   exists v_hat, nth_error (_velocity_hats self) k = Some v_hat /\
                 length v_hat = length variable) ->
  let t := S (iterations self) in
  let alpha :=
    learning_rate self * sqrt (1 - beta_2 self ^ t) / (1 - beta_1 self ^ t)
    * (1 - std self * INR (chaos_punish self)) ^ chaos_punish self in
  let m' := map2 (fun mi gi => mi + (gi - mi) * (1 - beta_1 self)) m g in
  let v' := map2 (fun vi gi => vi + (gi ^ 2 - vi) * (1 - beta_2 self)) v g in
  exists self' variable' v_den,
    Adalpha.update_step (Dense g) variable k self = Ok (self', variable') /\
    nth_error (_momentums self') k = Some m' /\
    nth_error (_velocities self') k = Some v' /\
    (amsgrad self = false -> v_den = v') /\
    (forall v_hat, amsgrad self = true ->
       nth_error (_velocity_hats self) k = Some v_hat ->
       v_den = map2 Rmax v_hat v' /\
       nth_error (_velocity_hats self') k = Some v_den) /\
    variable' =
      map2 Rminus variable
        (map2 (fun mi di => (mi * alpha) / (sqrt di + epsilon self)) m' v_den).
Proof.
  intros Hm Hv Lm Lv Lg Hams t alpha m' v'.
  assert (Ev : map2 (fun vi gi => vi + (gi * gi - vi) * (1 - beta_2 self)) v g = v').
  { apply map2_ext. intros a b. ring. }
  assert (Ea : learning_rate self
               * (sqrt (1 - beta_2 self ^ S (iterations self))
                  / (1 - beta_1 self ^ S (iterations self)))
               * (1 - std self * INR (chaos_punish self)) ^ chaos_punish self
               = alpha).
  { unfold alpha, t, Rdiv. ring. }
  assert (Lm' : length m' = length variable)
    by (unfold m'; rewrite map2_length; congruence).
  assert (Lv' : length v' = length variable)
    by (unfold v'; rewrite map2_length; congruence).
  pose proof (nth_error_lt _ _ _ Hm) as Km.
  pose proof (nth_error_lt _ _ _ Hv) as Kv.
  rewrite (base_dense_step self k g m v variable Hm Hv Lm Lv Lg).
  fold m'. rewrite Ev, Ea.
  destruct (amsgrad self) eqn:Ha.
  - destruct (Hams eq_refl) as [v_hat [Hh Lh]].
    rewrite (apply_update_ams self k m' v' v_hat variable alpha Ha Hh Lm' Lv' Lh).
    eexists _, _, (map2 Rmax v_hat v').
    split; [reflexivity|].
    split; [apply store_momentums, Km|].
    split; [apply store_velocities, Kv|].
    split; [discriminate|].
    split; [|reflexivity].
    intros v_hat0 _ Hh0. rewrite Hh in Hh0. injection Hh0 as <-.
    split; [reflexivity|]. simpl.
    apply nth_error_set_nth_eq. eapply nth_error_lt; eauto.
  - rewrite (apply_update_plain self k m' v' variable alpha Ha Lm' Lv').
    eexists _, _, v'.
    split; [reflexivity|].
    split; [apply store_momentums, Km|].
    split; [apply store_velocities, Kv|].
    split; [reflexivity|].
    split; [discriminate|reflexivity].
Qed.

(** The theorem at the default optimizer built on one parameter [[1]], for
    the gradient [[0.1]]. *)
Lemma C2_base_dense_update_witness :
  exists self' variable',
    Adalpha.update_step (Dense [0.1]) [1] 0
      (Adalpha.build [[1]] Adalpha.default) = Ok (self', variable') /\
    nth_error (_momentums self') 0 =
      Some [0 + (0.1 - 0) * (1 - 0.9)].
Proof.
  destruct (C2_base_dense_update (Adalpha.build [[1]] Adalpha.default) 0
              [0.1] [0] [0] [1] eq_refl eq_refl eq_refl eq_refl eq_refl)
    as (self' & variable' & v_den & H1 & H2 & _).
  - simpl. intros H. discriminate H.
  - exists self', variable'. split; [exact H1 | exact H2].
Defined.

(** ** Reading a successful step backwards *)

Lemma bind_Ok {A B : Type} (c : Result A) (f : A -> Result B) (r : B) :
  bind c f = Ok r -> exists a, c = Ok a /\ f a = Ok r.
Proof.
  destruct c as [a|e]; simpl; intros H; [eauto | discriminate].
Qed.

Lemma getitem_Ok {A : Type} (l : list A) (k : nat) (a : A) :
  getitem l k = Ok a -> nth_error l k = Some a.
Proof.
  unfold getitem. destruct (nth_error l k); intros H; inversion H; reflexivity.
Qed.

Lemma tf_binop_Ok (f : R -> R -> R) (x y z : Tensor) :
  tf_binop f x y = Ok z -> length x = length y /\ z = map2 f x y.
Proof.
  unfold tf_binop. destruct (Nat.eqb (length x) (length y)) eqn:E; intros H;
    inversion H. apply Nat.eqb_eq in E. auto.
Qed.

Lemma assign_Ok (var value z : Tensor) :
  assign var value = Ok z -> length var = length value /\ z = value.
Proof.
  unfold assign. destruct (Nat.eqb (length var) (length value)) eqn:E;
    intros H; inversion H; subst. apply Nat.eqb_eq in E. auto.
Qed.

Ltac bind_inv H :=
  let a := fresh "r" in
  let E := fresh "E" in
  apply bind_Ok in H; destruct H as (a & E & H).

(** Evaluation of the list structure of a run, the real numbers left as
    they are. *)
Ltac run_structure H :=
  cbv - [Rplus Rminus Rmult Rdiv Rinv Ropp sqrt pow Rmax Rabs Rsqr IZR INR
         Req_dec_T] in H.

Lemma apply_update_Ok (self self' : Optimizer) (k : nat)
  (m v variable variable' : Tensor) (alpha : R) :
  apply_update self k m v alpha variable = Ok (self', variable') ->
  exists v_den,
    self' = store self k m v (_velocity_hats self') /\
    (amsgrad self = false ->
     v_den = v /\ _velocity_hats self' = _velocity_hats self) /\
    (amsgrad self = true ->
     exists v_hat, nth_error (_velocity_hats self) k = Some v_hat /\
                   length v_hat = length v /\ v_den = map2 Rmax v_hat v /\
                   _velocity_hats self' = set_nth k v_den (_velocity_hats self)) /\
    length v_den = length v /\ length m = length v /\
    length variable = length v /\
    variable' =
      map2 Rminus variable
        (map2 (fun mi di => mi * alpha / (sqrt di + epsilon self)) m v_den).
Proof.
  unfold apply_update. intros H. destruct (amsgrad self) eqn:Ha.
  - bind_inv H. apply getitem_Ok in E.
    bind_inv H. apply tf_binop_Ok in E0. destruct E0 as [L0 ->].
    bind_inv H. apply assign_Ok in E0. destruct E0 as [L1 ->].
    bind_inv H. apply tf_binop_Ok in E0. destruct E0 as [L2 ->].
    bind_inv H. apply tf_binop_Ok in E0. destruct E0 as [L3 ->].
    inversion H; subst; clear H.
    rewrite scale_length, add_scalar_length, tf_sqrt_length in L2.
    rewrite map2_length, scale_length in L3
      by (rewrite scale_length, add_scalar_length, tf_sqrt_length; exact L2).
    exists (map2 Rmax r v). simpl.
    split; [reflexivity|]. split; [discriminate|].
    split; [intros _; exists r; auto|].
    rewrite step_quotient. rewrite <- L1. repeat split; congruence.
  - bind_inv H. apply tf_binop_Ok in E. destruct E as [L2 ->].
    bind_inv H. apply tf_binop_Ok in E. destruct E as [L3 ->].
    inversion H; subst; clear H.
    rewrite scale_length, add_scalar_length, tf_sqrt_length in L2.
    rewrite map2_length, scale_length in L3
      by (rewrite scale_length, add_scalar_length, tf_sqrt_length; exact L2).
    exists v. simpl. split; [reflexivity|]. split; [auto|].
    split; [discriminate|].
    rewrite step_quotient. repeat split; congruence.
Qed.

Lemma scatter_add_length (var values : Tensor) (indices : list nat) (z : Tensor) :
  scatter_add var values indices = Ok z -> length z = length var.
Proof.
  revert var indices; induction values as [|x values IH];
    intros var [|i indices] H; simpl in H; try discriminate.
  - inversion H; reflexivity.
  - destruct (nth_error var i); [|discriminate].
    apply IH in H. rewrite set_nth_length in H. exact H.
Qed.

(** ** The momentum-activated variant *)

Lemma momentum_step_Ok (self self' : Optimizer) (k : nat) (gradient : Gradient)
  (variable variable' : Tensor) :
  AdAlpha_Momentum.update_step gradient variable k self = Ok (self', variable') ->
  exists m v m' v',
    nth_error (_momentums self) k = Some m /\
    nth_error (_velocities self) k = Some v /\
    length m' = length m /\ length v' = length v /\
    match gradient with
    | Dense g =>
        length g = length m /\ length g = length v /\
        m' = map2 Rplus m
               (AdAlpha_Momentum._m_activ
                  (scale (map2 Rminus g m) (1 - beta_1 self))) /\
        v' = map2 Rplus v
               (AdAlpha_Momentum._m_activ
                  (scale (map2 Rminus (tf_square g) v) (1 - beta_2 self)))
    | IndexedSlices values indices =>
        scatter_add
          (map2 Rplus m
             (AdAlpha_Momentum._m_activ (scale (neg m) (1 - beta_1 self))))
          (AdAlpha_Momentum._m_activ (scale values (1 - beta_1 self)))
          indices = Ok m' /\
        scatter_add
          (map2 Rplus v
             (AdAlpha_Momentum._m_activ (scale (neg v) (1 - beta_2 self))))
          (AdAlpha_Momentum._m_activ
             (scale (tf_square values) (1 - beta_2 self)))
          indices = Ok v'
    end /\
    apply_update self k m' v'
      (learning_rate self
       * (sqrt (1 - beta_2 self ^ S (iterations self))
          / (1 - beta_1 self ^ S (iterations self)))
       * std self ^ chaos_punish self)
      variable = Ok (self', variable').
Proof.
  unfold AdAlpha_Momentum.update_step. intros H.
  bind_inv H. apply getitem_Ok in E. rename r into m.
  bind_inv H. apply getitem_Ok in E0. rename r into v.
  exists m, v. destruct gradient as [g | values indices].
  - bind_inv H. apply tf_binop_Ok in E1. destruct E1 as [L1 ->].
    bind_inv H. apply tf_binop_Ok in E1. destruct E1 as [L2 ->].
    bind_inv H. apply tf_binop_Ok in E1. destruct E1 as [L3 ->].
    bind_inv H. apply tf_binop_Ok in E1. destruct E1 as [L4 ->].
    rewrite tf_square_length in L3.
    eexists _, _.
    split; [exact E|]. split; [exact E0|].
    split; [apply map2_length, L2|]. split; [apply map2_length, L4|].
    split; [|exact H]. auto.
  - bind_inv H. apply tf_binop_Ok in E1. destruct E1 as [L1 ->].
    bind_inv H. rename r into m'.
    bind_inv H. apply tf_binop_Ok in E2. destruct E2 as [L2 ->].
    bind_inv H. rename r into v'.
    exists m', v'.
    split; [exact E|]. split; [exact E0|].
    split. { apply scatter_add_length in E1. rewrite E1. apply map2_length, L1. }
    split. { apply scatter_add_length in E2. rewrite E2. apply map2_length, L2. }
    split; [|exact H]. auto.
Qed.

(** ** The loss-ratio controller *)

(** With an EMA weight in (0,1) and a non-negative loss the slow average
    stays positive, so the division of the hook is defined on every run
    that starts from the initial [b = 1]. *)
Lemma callback_b_positive (loss : R) (self : Adalpha_Callback.t)
  (optimizer : Optimizer) :
  0 < Adalpha_Callback.ema_w self < 1 -> 0 <= loss ->
  0 < Adalpha_Callback.b self ->
  0 < Adalpha_Callback.b
        (fst (Adalpha_Callback.on_train_batch_end loss self optimizer)).
Proof.
  intros [H0 H1] Hl Hb. simpl.
  assert (0 < Adalpha_Callback.ema_w self * Adalpha_Callback.b self)
    by (apply Rmult_lt_0_compat; assumption).
  assert (0 <= (1 - Adalpha_Callback.ema_w self) * loss)
    by (apply Rmult_le_pos; lra).
  lra.
Qed.

(** C5: for every batch loss the hook sets
    [a := ema_w*loss + (1-ema_w)*a] and [b := (1-ema_w)*loss + ema_w*b], and
    then, the quotient being defined (new [b] not 0), overwrites the
    optimizer's control signal with [change * a / b] of the new [a] and [b]:
    the previous signal does not enter, and nothing else in the optimizer
    changes. *)
Theorem C5_loss_ratio_hook (loss : R) (self : Adalpha_Callback.t)
  (optimizer : Optimizer) :
  let r := Adalpha_Callback.on_train_batch_end loss self optimizer in
  let a' :=
    Adalpha_Callback.ema_w self * loss
    + (1 - Adalpha_Callback.ema_w self) * Adalpha_Callback.a self in
  let b' :=
    (1 - Adalpha_Callback.ema_w self) * loss
    + Adalpha_Callback.ema_w self * Adalpha_Callback.b self in
  Adalpha_Callback.a (fst r) = a' /\
  Adalpha_Callback.b (fst r) = b' /\
  Adalpha_Callback.ema_w (fst r) = Adalpha_Callback.ema_w self /\
  Adalpha_Callback.change (fst r) = Adalpha_Callback.change self /\
  (b' <> 0 ->
   snd r =
   Ok (Adalpha.update_loss (Adalpha_Callback.change self * a' / b') optimizer)
   /\ forall optimizer', snd r = Ok optimizer' ->
        std optimizer' = Adalpha_Callback.change self * a' / b').
Proof.
  intros r a' b'. unfold r, Adalpha_Callback.on_train_batch_end,
    Adalpha_Callback._calculate_loss_std. cbn [fst snd
    Adalpha_Callback.a Adalpha_Callback.b Adalpha_Callback.ema_w
    Adalpha_Callback.change Adalpha_Callback.loss].
  fold a' b'. repeat split; try reflexivity.
  - unfold py_div. destruct (Req_dec_T b' 0); [contradiction|reflexivity].
  - intros optimizer'. unfold py_div.
    destruct (Req_dec_T b' 0); [contradiction|].
    cbn [bind]. intros E. inversion E. reflexivity.
Qed.

(** The theorem on the first batch of a controller with weight 0.9 and
    scale 0.99, for the loss 2. *)
Lemma C5_loss_ratio_hook_witness :
  snd (Adalpha_Callback.on_train_batch_end 2
         (Adalpha_Callback.init 0.9 0.99) Adalpha.default) =
  Ok (Adalpha.update_loss
        (0.99 * (0.9 * 2 + (1 - 0.9) * 1) / ((1 - 0.9) * 2 + 0.9 * 1))
        Adalpha.default).
Proof.
  refine (proj1 (proj2 (proj2 (proj2 (proj2
    (C5_loss_ratio_hook 2 (Adalpha_Callback.init 0.9 0.99) Adalpha.default))))
    _)).
  simpl. lra.
Defined.

(** ** OneCallback *)

Lemma one_callback_batches_optimizer (logs_losses : list R)
  (self : OneCallback.t) (optimizer : Optimizer) :
  logs_losses <> [] ->
  snd (OneCallback.batches logs_losses self optimizer) =
  Adalpha.update_loss 0 optimizer.
Proof.
  revert self optimizer.
  induction logs_losses as [|l rest IH]; intros self optimizer H;
    [contradiction|].
  simpl. destruct rest as [|l' rest'].
  - reflexivity.
  - rewrite IH by discriminate. reflexivity.
Qed.

(** ** The base variant read backwards, and what every step keeps *)

Lemma base_step_Ok (self self' : Optimizer) (k : nat) (gradient : Gradient)
  (variable variable' : Tensor) :
  Adalpha.update_step gradient variable k self = Ok (self', variable') ->
  exists m v m' v',
    nth_error (_momentums self) k = Some m /\
    nth_error (_velocities self) k = Some v /\
    length m' = length m /\ length v' = length v /\
    match gradient with
    | Dense g =>
        length g = length m /\ length g = length v /\
        m' = map2 (fun mi gi => mi + (gi - mi) * (1 - beta_1 self)) m g /\
        v' = map2 (fun vi gi => vi + (gi * gi - vi) * (1 - beta_2 self)) v g
    | IndexedSlices values indices =>
        scatter_add (map (fun a => a + - a * (1 - beta_1 self)) m)
          (scale values (1 - beta_1 self)) indices = Ok m' /\
        scatter_add (map (fun a => a + - a * (1 - beta_2 self)) v)
          (scale (tf_square values) (1 - beta_2 self)) indices = Ok v'
    end /\
    apply_update self k m' v'
      (learning_rate self
       * (sqrt (1 - beta_2 self ^ S (iterations self))
          / (1 - beta_1 self ^ S (iterations self)))
       * (1 - std self * INR (chaos_punish self)) ^ chaos_punish self)
      variable = Ok (self', variable').
Proof.
  unfold Adalpha.update_step. intros H.
  bind_inv H. apply getitem_Ok in E. rename r into m.
  bind_inv H. apply getitem_Ok in E0. rename r into v.
  exists m, v. destruct gradient as [g | values indices].
  - bind_inv H. apply tf_binop_Ok in E1. destruct E1 as [L1 ->].
    bind_inv H. apply tf_binop_Ok in E1. destruct E1 as [L2 ->].
    bind_inv H. apply tf_binop_Ok in E1. destruct E1 as [L3 ->].
    bind_inv H. apply tf_binop_Ok in E1. destruct E1 as [L4 ->].
    rewrite tf_square_length in L3.
    unfold scale, tf_square in *.
    rewrite !map2_map_r, !map2_self_r, map2_map_r in H.
    exists (map2 (fun a b => a + (b - a) * (1 - beta_1 self)) m g),
           (map2 (fun a b => a + (b * b - a) * (1 - beta_2 self)) v g).
    split; [exact E|]. split; [exact E0|].
    split; [apply map2_length; lia|].
    split; [apply map2_length; lia|].
    split; [|exact H]. auto.
  - bind_inv H. apply tf_binop_Ok in E1. destruct E1 as [L1 ->].
    bind_inv H. rename r into m'.
    bind_inv H. apply tf_binop_Ok in E2. destruct E2 as [L2 ->].
    bind_inv H. rename r into v'.
    unfold scale at 1, neg in E1. rewrite map_map, map2_self_map in E1.
    unfold scale at 1, neg in E2. rewrite map_map, map2_self_map in E2.
    exists m', v'.
    split; [exact E|]. split; [exact E0|].
    split. { apply scatter_add_length in E1. rewrite E1. apply length_map. }
    split. { apply scatter_add_length in E2. rewrite E2. apply length_map. }
    split; [|exact H]. auto.
Qed.

Lemma apply_update_built (self self' : Optimizer) (k : nat)
  (m v variable variable' : Tensor) (alpha : R) :
  apply_update self k m v alpha variable = Ok (self', variable') ->
  _built self' = _built self /\ amsgrad self' = amsgrad self /\
  beta_1 self' = beta_1 self /\ beta_2 self' = beta_2 self /\
  epsilon self' = epsilon self /\ learning_rate self' = learning_rate self /\
  chaos_punish self' = chaos_punish self /\ std self' = std self /\
  iterations self' = iterations self.
Proof.
  intros H. apply apply_update_Ok in H. destruct H as (v_den & -> & _).
  simpl. repeat split; reflexivity.
Qed.

Lemma step_of_fields (variant : Variant) (self self' : Optimizer) (k : nat)
  (gradient : Gradient) (variable variable' : Tensor) :
  step_of variant gradient variable k self = Ok (self', variable') ->
  _built self' = _built self /\ amsgrad self' = amsgrad self /\
  beta_1 self' = beta_1 self /\ beta_2 self' = beta_2 self /\
  epsilon self' = epsilon self /\ learning_rate self' = learning_rate self /\
  chaos_punish self' = chaos_punish self /\ std self' = std self /\
  iterations self' = iterations self.
Proof.
  destruct variant; simpl; intros H.
  - apply base_step_Ok in H.
    destruct H as (m & v & m' & v' & _ & _ & _ & _ & _ & H).
    eapply apply_update_built; eauto.
  - apply momentum_step_Ok in H.
    destruct H as (m & v & m' & v' & _ & _ & _ & _ & _ & H).
    eapply apply_update_built; eauto.
Qed.

Lemma host_call_Ok (step : StepFn) (c : HostCall) (self self' : Optimizer)
  (variables variables' : list Tensor) :
  host_call step c (self, variables) = Ok (self', variables') ->
  match c with
  | CallUpdateStep k gradient =>
      exists variable variable',
        nth_error variables k = Some variable /\
        step gradient variable k self = Ok (self', variable') /\
        variables' = set_nth k variable' variables
  | CallUpdateLoss new_std =>
      self' = Adalpha.update_loss new_std self /\ variables' = variables
  | CallIterate => self' = iterate self /\ variables' = variables
  end.
Proof.
  destruct c as [k gradient | new_std |]; simpl; intros H.
  - bind_inv H. apply getitem_Ok in E. bind_inv H. destruct r0 as [s v].
    inversion H; subst. eauto.
  - inversion H; auto.
  - inversion H; auto.
Qed.

(** ** build *)

Lemma host_run_built (variant : Variant) (calls : list HostCall)
  (self self' : Optimizer) (variables variables' : list Tensor) :
  host_run (step_of variant) calls (self, variables) = Ok (self', variables') ->
  _built self' = _built self.
Proof.
  revert self variables. induction calls as [|c calls IH];
    intros self variables H; simpl in H.
  - inversion H; reflexivity.
  - bind_inv H. destruct r as [s1 v1].
    apply IH in H. rewrite H. apply host_call_Ok in E.
    destruct c as [k gradient | new_std |].
    + destruct E as (variable & variable' & _ & E & _).
      apply step_of_fields in E. tauto.
    + destruct E as [-> _]. reflexivity.
    + destruct E as [-> _]. reflexivity.
Qed.

Lemma build_built (var_list : list Tensor) (self : Optimizer) :
  _built (Adalpha.build var_list self) = true.
Proof.
  unfold Adalpha.build. destruct (_built self) eqn:E; [exact E|reflexivity].
Qed.

(** C9: a second [build] with the same parameter list changes nothing: the
    optimizer after it, with every [m], [v] and [v_hat], is the optimizer
    before it, also when steps of either variant, signal updates and
    counter increments have run in between. *)
Theorem C9_build_idempotent (variant : Variant) (var_list : list Tensor)
  (self0 self : Optimizer) (calls : list HostCall) (variables : list Tensor) :
  host_run (step_of variant) calls (Adalpha.build var_list self0, var_list)
  = Ok (self, variables) ->
  Adalpha.build var_list self = self /\
  _momentums (Adalpha.build var_list self) = _momentums self /\
  _velocities (Adalpha.build var_list self) = _velocities self /\
  _velocity_hats (Adalpha.build var_list self) = _velocity_hats self.
Proof.
  intros H. apply host_run_built in H. rewrite build_built in H.
  assert (E : Adalpha.build var_list self = self)
    by (unfold Adalpha.build; rewrite H; reflexivity).
  rewrite E. auto.
Qed.

(** The theorem after one base-variant step of the default optimizer on the
    parameter [[1]] with gradient [[0.1]]. *)
Lemma C9_build_idempotent_witness :
  exists self variables,
    host_run (step_of Base) [CallUpdateStep 0 (Dense [0.1]); CallIterate]
      (Adalpha.build [[1]] Adalpha.default, [[1]]) = Ok (self, variables) /\
    Adalpha.build [[1]] self = self.
Proof.
  destruct (host_run (step_of Base) [CallUpdateStep 0 (Dense [0.1]); CallIterate]
              (Adalpha.build [[1]] Adalpha.default, [[1]]))
    as [[self variables]|e] eqn:E.
  - exists self, variables. split; [reflexivity|].
    exact (proj1 (C9_build_idempotent Base [[1]] Adalpha.default self
                    [CallUpdateStep 0 (Dense [0.1]); CallIterate] variables E)).
  - run_structure E. discriminate E.
Defined.

(** ** scatter_add *)

Lemma scatter_add_exists (var values : Tensor) (indices : list nat) :
  length values = length indices ->
  (forall i, In i indices -> (i < length var)%nat) ->
  exists z, scatter_add var values indices = Ok z.
Proof.
  revert var indices; induction values as [|x values IH];
    intros var [|i indices] L Hin; simpl in *; try discriminate.
  - eauto.
  - destruct (nth_error var i) as [y|] eqn:E.
    + apply IH; [lia|]. intros j Hj. rewrite set_nth_length. auto.
    + apply nth_error_None in E. specialize (Hin i (or_introl eq_refl)). lia.
Qed.

Lemma scatter_add_untouched (var values : Tensor) (indices : list nat)
  (z : Tensor) (i : nat) (d : R) :
  scatter_add var values indices = Ok z -> ~ In i indices ->
  nth i z d = nth i var d.
Proof.
  revert var indices; induction values as [|x values IH];
    intros var [|j indices] H Hin; simpl in H; try discriminate.
  - inversion H; reflexivity.
  - destruct (nth_error var j) as [y|]; [|discriminate].
    rewrite (IH _ _ H) by (intros C; apply Hin; right; exact C).
    apply nth_set_nth_neq. intros C. apply Hin. left. exact C.
Qed.

Lemma scatter_add_touched (var values : Tensor) (indices : list nat)
  (z : Tensor) (j : nat) :
  NoDup indices -> scatter_add var values indices = Ok z ->
  (j < length indices)%nat ->
  nth (nth j indices 0%nat) z 0 = nth (nth j indices 0%nat) var 0 + nth j values 0.
Proof.
  revert var indices j; induction values as [|x values IH];
    intros var [|i indices] j Hnd H Hj; simpl in H; try discriminate;
    simpl in Hj; try lia.
  destruct (nth_error var i) as [y|] eqn:E; [|discriminate].
  inversion Hnd as [|? ? Hni Hnd']; subst.
  destruct j as [|j]; simpl.
  - rewrite (scatter_add_untouched _ _ _ _ i 0 H Hni).
    rewrite nth_set_nth_eq by (eapply nth_error_lt; eauto).
    rewrite (nth_error_nth _ _ 0 E). reflexivity.
  - rewrite (IH _ _ j Hnd' H) by lia.
    rewrite nth_set_nth_neq; [reflexivity|].
    intros C. apply Hni. rewrite C. apply nth_In. lia.
Qed.

Lemma nth_error_map2 (f : R -> R -> R) (x y : Tensor) (i : nat) (a b : R) :
  nth_error x i = Some a -> nth_error y i = Some b ->
  nth_error (map2 f x y) i = Some (f a b).
Proof.
  revert y i; induction x as [|a0 x IH]; intros [|b0 y] [|i] Hx Hy;
    simpl in *; try discriminate.
  - inversion Hx; inversion Hy; reflexivity.
  - apply IH; assumption.
Qed.

Lemma map2_set_nth_r (f : R -> R -> R) (x y : Tensor) (i : nat) (a b : R) :
  nth_error x i = Some a ->
  set_nth i (f a b) (map2 f x y) = map2 f x (set_nth i b y).
Proof.
  revert y i; induction x as [|a0 x IH]; intros [|b0 y] [|i] Hx;
    simpl in *; try discriminate; try reflexivity.
  - inversion Hx; reflexivity.
  - rewrite (IH _ _ Hx). reflexivity.
Qed.

Lemma map2_zeros (phi : R -> R) (u : Tensor) :
  phi 0 = 0 -> map2 (fun a b => a + phi b) u (zeros (length u)) = u.
Proof.
  intros H. induction u as [|a u IH]; simpl; [reflexivity|].
  unfold zeros in IH. rewrite IH, H. f_equal. ring.
Qed.

Lemma zeros_length (n : nat) : length (zeros n) = n.
Proof. apply repeat_length. Qed.

Lemma nth_zeros (n i : nat) : nth i (zeros n) 0 = 0.
Proof.
  unfold zeros. revert i; induction n as [|n IH]; intros [|i]; simpl; auto.
Qed.

(** Scattering [phi] of the slices onto [u] is [u + phi] of the scattered
    slices, as long as no index is met twice. *)
Lemma scatter_add_accumulate (phi : R -> R) (u : Tensor) :
  phi 0 = 0 ->
  forall (values : Tensor) (indices : list nat) (acc g : Tensor),
    length acc = length u -> NoDup indices ->
    (forall i, In i indices -> nth i acc 0 = 0) ->
    scatter_add acc values indices = Ok g ->
    scatter_add (map2 (fun a b => a + phi b) u acc) (map phi values) indices
    = Ok (map2 (fun a b => a + phi b) u g).
Proof.
  intros H0. induction values as [|x values IH];
    intros [|i indices] acc g L Hnd Hz H; simpl in H; try discriminate.
  - inversion H; reflexivity.
  - destruct (nth_error acc i) as [y|] eqn:E; [|discriminate].
    inversion Hnd as [|? ? Hni Hnd']; subst.
    assert (Hy : y = 0).
    { rewrite <- (Hz i (or_introl eq_refl)). symmetry. apply nth_error_nth, E. }
    subst y.
    destruct (nth_error u i) as [ui|] eqn:Eu.
    2:{ apply nth_error_None in Eu. apply nth_error_lt in E. lia. }
    simpl. rewrite (nth_error_map2 _ _ _ _ _ _ Eu E).
    replace (ui + phi 0 + phi x) with (ui + phi (0 + x))
      by (rewrite H0, Rplus_0_l; ring).
    rewrite (map2_set_nth_r (fun a b => a + phi b) u acc i ui (0 + x) Eu).
    apply IH; auto.
    + rewrite set_nth_length. exact L.
    + intros j Hj. rewrite nth_set_nth_neq; [apply Hz; right; exact Hj|].
      intros C. apply Hni. rewrite C. exact Hj.
Qed.

(** ** The base variant, sparse path *)

Lemma base_sparse_step (self : Optimizer) (k : nat) (values : Tensor)
  (indices : list nat) (m v m' v' variable : Tensor) :
  nth_error (_momentums self) k = Some m ->
  nth_error (_velocities self) k = Some v ->
  scatter_add (map (fun a => a + - a * (1 - beta_1 self)) m)
    (scale values (1 - beta_1 self)) indices = Ok m' ->
  scatter_add (map (fun a => a + - a * (1 - beta_2 self)) v)
    (scale (tf_square values) (1 - beta_2 self)) indices = Ok v' ->
  Adalpha.update_step (IndexedSlices values indices) variable k self =
  apply_update self k m' v'
    (learning_rate self
     * (sqrt (1 - beta_2 self ^ S (iterations self))
        / (1 - beta_1 self ^ S (iterations self)))
     * (1 - std self * INR (chaos_punish self)) ^ chaos_punish self)
    variable.
Proof.
  intros Hm Hv Sm Sv. unfold Adalpha.update_step.
  rewrite (getitem_ok _ _ _ Hm), (getitem_ok _ _ _ Hv). cbn [bind].
  unfold assign_add.
  rewrite (tf_binop_ok Rplus m) by (rewrite scale_length, neg_length; reflexivity).
  cbn [bind]. unfold scale at 1, neg. rewrite map_map, map2_self_map.
  rewrite Sm. cbn [bind].
  rewrite (tf_binop_ok Rplus v) by (rewrite scale_length, length_map; reflexivity).
  cbn [bind]. unfold scale at 1. rewrite map_map, map2_self_map.
  rewrite Sv. reflexivity.
Qed.

Lemma apply_update_result (self : Optimizer) (k : nat)
  (m v variable : Tensor) (alpha : R) :
  (k < length (_momentums self))%nat -> (k < length (_velocities self))%nat ->
  length m = length variable -> length v = length variable ->
  (amsgrad self = true ->
   exists v_hat, nth_error (_velocity_hats self) k = Some v_hat /\
                 length v_hat = length variable) ->
  exists self' variable',
    apply_update self k m v alpha variable = Ok (self', variable') /\
    nth_error (_momentums self') k = Some m /\
    nth_error (_velocities self') k = Some v.
Proof.
  intros Km Kv Lm Lv Hams. destruct (amsgrad self) eqn:Ha.
  - destruct (Hams eq_refl) as [v_hat [Hh Lh]].
    rewrite (apply_update_ams self k m v v_hat variable alpha Ha Hh Lm Lv Lh).
    eexists _, _. split; [reflexivity|].
    split; [apply store_momentums, Km | apply store_velocities, Kv].
  - rewrite (apply_update_plain self k m v variable alpha Ha Lm Lv).
    eexists _, _. split; [reflexivity|].
    split; [apply store_momentums, Km | apply store_velocities, Kv].
Qed.

Lemma base_dense_result (self : Optimizer) (k : nat) (g m v variable : Tensor) :
  nth_error (_momentums self) k = Some m ->
  nth_error (_velocities self) k = Some v ->
  length m = length variable -> length v = length variable ->
  length g = length variable ->
  (amsgrad self = true ->
   exists v_hat, nth_error (_velocity_hats self) k = Some v_hat /\
                 length v_hat = length variable) ->
  exists self' variable',
    Adalpha.update_step (Dense g) variable k self = Ok (self', variable') /\
    nth_error (_momentums self') k
    = Some (map2 (fun mi gi => mi + (gi - mi) * (1 - beta_1 self)) m g) /\
    nth_error (_velocities self') k
    = Some (map2 (fun vi gi => vi + (gi ^ 2 - vi) * (1 - beta_2 self)) v g).
Proof.
  intros Hm Hv Lm Lv Lg Hams.
  rewrite (base_dense_step self k g m v variable Hm Hv Lm Lv Lg).
  replace (map2 (fun vi gi => vi + (gi ^ 2 - vi) * (1 - beta_2 self)) v g)
    with (map2 (fun vi gi => vi + (gi * gi - vi) * (1 - beta_2 self)) v g)
    by (apply map2_ext; intros a b; ring).
  apply apply_update_result; auto.
  - eapply nth_error_lt; eauto.
  - eapply nth_error_lt; eauto.
  - rewrite map2_length; congruence.
  - rewrite map2_length; congruence.
Qed.

(** C3: for a sparse gradient given by a set of indices (no index twice,
    each inside the variable) with one value per index, the sparse path of
    the base variant returns exactly what the dense path returns on the
    dense-equivalent gradient [g]: the same optimizer, so the same [m] and
    [v], and the same parameter.  [g] carries the values at the touched
    indices and 0 elsewhere, the new moments are the dense formulas of [g],
    and an untouched index only decays: [m := beta_1*m], [v := beta_2*v]. *)
Theorem C3_sparse_matches_dense (self : Optimizer) (k : nat)
  (values : Tensor) (indices : list nat) (m v variable : Tensor) :
  nth_error (_momentums self) k = Some m ->
  nth_error (_velocities self) k = Some v ->
  length m = length variable -> length v = length variable ->
  (amsgrad self = true ->
   exists v_hat, nth_error (_velocity_hats self) k = Some v_hat /\
                 length v_hat = length variable) ->
  NoDup indices -> length values = length indices ->
  (forall i, In i indices -> (i < length variable)%nat) ->
  exists g self' variable' m' v',
    dense_equivalent (length variable) values indices = Ok g /\
    Adalpha.update_step (IndexedSlices values indices) variable k self
    = Ok (self', variable') /\
    Adalpha.update_step (Dense g) variable k self = Ok (self', variable') /\
    nth_error (_momentums self') k = Some m' /\
    nth_error (_velocities self') k = Some v' /\
    m' = map2 (fun mi gi => mi + (gi - mi) * (1 - beta_1 self)) m g /\
    v' = map2 (fun vi gi => vi + (gi ^ 2 - vi) * (1 - beta_2 self)) v g /\
    (forall j, (j < length indices)%nat ->
       nth (nth j indices 0%nat) g 0 = nth j values 0) /\
    (forall i, ~ In i indices ->
       nth i g 0 = 0 /\
       nth i m' 0 = beta_1 self * nth i m 0 /\
       nth i v' 0 = beta_2 self * nth i v 0).
Proof.
  intros Hm Hv Lm Lv Hams Hnd Lvals Hin.
  set (n := length variable) in *.
  set (c1 := 1 - beta_1 self). set (c2 := 1 - beta_2 self).
  destruct (scatter_add_exists (zeros n) values indices Lvals) as [g Hg].
  { intros i Hi. rewrite zeros_length. auto. }
  assert (Lg : length g = n).
  { apply scatter_add_length in Hg. rewrite Hg. apply zeros_length. }
  set (phi1 := fun b : R => b * c1). set (phi2 := fun b : R => b * b * c2).
  set (u1 := map (fun a => a + - a * c1) m).
  set (u2 := map (fun a => a + - a * c2) v).
  assert (Sm : scatter_add u1 (scale values c1) indices
               = Ok (map2 (fun a b => a + phi1 b) u1 g)).
  { rewrite <- (map2_zeros phi1 u1) at 1 by (unfold phi1; ring).
    apply scatter_add_accumulate; auto.
    - unfold phi1; ring.
    - rewrite zeros_length; reflexivity.
    - intros i _. apply nth_zeros.
    - unfold u1. rewrite length_map, Lm. exact Hg. }
  assert (Sv : scatter_add u2 (scale (tf_square values) c2) indices
               = Ok (map2 (fun a b => a + phi2 b) u2 g)).
  { unfold scale, tf_square. rewrite map_map. fold phi2.
    rewrite <- (map2_zeros phi2 u2) at 1 by (unfold phi2; ring).
    apply scatter_add_accumulate; auto.
    - unfold phi2; ring.
    - rewrite zeros_length; reflexivity.
    - intros i _. apply nth_zeros.
    - unfold u2. rewrite length_map, Lv. exact Hg. }
  assert (Em : map2 (fun a b => a + phi1 b) u1 g
               = map2 (fun mi gi => mi + (gi - mi) * c1) m g).
  { unfold u1. rewrite map2_map_l. apply map2_ext. intros a b.
    unfold phi1. ring. }
  assert (Ev : map2 (fun a b => a + phi2 b) u2 g
               = map2 (fun vi gi => vi + (gi * gi - vi) * c2) v g).
  { unfold u2. rewrite map2_map_l. apply map2_ext. intros a b.
    unfold phi2. ring. }
  rewrite Em in Sm. rewrite Ev in Sv.
  pose proof (base_sparse_step self k values indices m v _ _ variable
                Hm Hv Sm Sv) as Hsparse.
  pose proof (base_dense_step self k g m v variable Hm Hv Lm Lv Lg) as Hdense.
  fold c1 c2 in Hdense.
  destruct (base_dense_result self k g m v variable Hm Hv Lm Lv Lg Hams)
    as (self' & variable' & Hstep & Hm' & Hv').
  exists g, self', variable',
    (map2 (fun mi gi => mi + (gi - mi) * c1) m g),
    (map2 (fun vi gi => vi + (gi ^ 2 - vi) * c2) v g).
  split; [exact Hg|].
  split; [rewrite Hsparse, <- Hdense; exact Hstep|].
  split; [exact Hstep|].
  split; [exact Hm'|]. split; [exact Hv'|].
  split; [reflexivity|]. split; [reflexivity|].
  split.
  - intros j Hj.
    rewrite (scatter_add_touched _ _ _ _ j Hnd Hg Hj), nth_zeros. ring.
  - intros i Hi.
    assert (G0 : nth i g 0 = 0).
    { rewrite (scatter_add_untouched _ _ _ _ i 0 Hg Hi). apply nth_zeros. }
    split; [exact G0|].
    destruct (Nat.lt_ge_cases i n) as [Hlt|Hge].
    + rewrite (nth_map2 _ m g i 0 0 0) by lia.
      rewrite (nth_map2 _ v g i 0 0 0) by lia.
      rewrite G0. unfold c1, c2. split; ring.
    + rewrite !nth_overflow; try lia; try (split; ring).
      * rewrite map2_length; lia.
      * rewrite map2_length; lia.
Qed.

(** The theorem at the default optimizer built on one parameter of three
    elements, for the sparse gradient with the value 0.5 at index 1. *)
Lemma C3_sparse_matches_dense_witness :
  exists g self' variable',
    dense_equivalent 3 [0.5] [1%nat] = Ok g /\
    Adalpha.update_step (IndexedSlices [0.5] [1%nat]) [1; 2; 3] 0
      (Adalpha.build [[1; 2; 3]] Adalpha.default) = Ok (self', variable') /\
    Adalpha.update_step (Dense g) [1; 2; 3] 0
      (Adalpha.build [[1; 2; 3]] Adalpha.default) = Ok (self', variable').
Proof.
  destruct (C3_sparse_matches_dense
              (Adalpha.build [[1; 2; 3]] Adalpha.default) 0 [0.5] [1%nat]
              [0; 0; 0] [0; 0; 0] [1; 2; 3]
              eq_refl eq_refl eq_refl eq_refl)
    as (g & self' & variable' & _ & _ & H1 & H2 & H3 & _).
  - simpl. intros H. discriminate H.
  - constructor; [simpl; tauto | constructor].
  - reflexivity.
  - simpl. intros i [<- | []]. lia.
  - exists g, self', variable'. auto.
Defined.

(** The index set matters for [v]: when an index occurs twice the sparse
    path adds the squares of the two values, the dense path squares their
    sum. *)
Remark sparse_duplicate_index_differs :
  exists s1 p1 s2 p2,
    Adalpha.update_step (IndexedSlices [1; 1] [0%nat; 0%nat]) [5] 0
      (Adalpha.build [[5]] Adalpha.default) = Ok (s1, p1) /\
    dense_equivalent 1 [1; 1] [0%nat; 0%nat] = Ok [0 + 1 + 1] /\
    Adalpha.update_step (Dense [0 + 1 + 1]) [5] 0
      (Adalpha.build [[5]] Adalpha.default) = Ok (s2, p2) /\
    nth 0 (nth 0 (_momentums s1) []) 0 = nth 0 (nth 0 (_momentums s2) []) 0 /\
    nth 0 (nth 0 (_velocities s1) []) 0 = 0.002 /\
    nth 0 (nth 0 (_velocities s2) []) 0 = 0.004.
Proof.
  eexists _, _, _, _.
  split; [reflexivity|]. split; [reflexivity|]. split; [reflexivity|].
  simpl. repeat split; lra.
Qed.

(** ** The safe division of the activation *)








(** ** Bounds on the activation *)

(** The quotient of the activation lies in [[-0.001, 1]], whatever the
    dispersion. *)
Lemma activ_ratio_bounds (xi d : R) :
  - 0.001 <= divide_no_nan (xi ^ 2 - (0.01 * d) ^ 2) (xi ^ 2 + 0.1 * d ^ 2) <= 1.
Proof.
  unfold divide_no_nan.
  destruct (Req_dec_T (xi ^ 2 + 0.1 * d ^ 2) 0) as [E|E]; [lra|].
  assert (Hx : 0 <= xi ^ 2) by apply pow2_ge_0.
  assert (Hd : 0 <= d ^ 2) by apply pow2_ge_0.
  assert (Hden : 0 < xi ^ 2 + 0.1 * d ^ 2) by lra.
  split.
  - apply Rmult_le_reg_r with (xi ^ 2 + 0.1 * d ^ 2); [exact Hden|].
    unfold Rdiv. rewrite Rmult_assoc, Rinv_l, Rmult_1_r by exact E. nra.
  - apply Rmult_le_reg_r with (xi ^ 2 + 0.1 * d ^ 2); [exact Hden|].
    unfold Rdiv. rewrite Rmult_assoc, Rinv_l, Rmult_1_r by exact E. nra.
Qed.

(** So the activation multiplies every element by a factor between 1 and
    [2.001^2]. *)
Lemma m_activ_factor (x : Tensor) :
  exists F : R -> R,
    (forall xi, 1 <= F xi <= 2.001 ^ 2) /\
    AdAlpha_Momentum._m_activ x = map (fun xi => xi * F xi) x.
Proof.
  exists (fun xi =>
            (2 - divide_no_nan (xi ^ 2 - (0.01 * dispersion x) ^ 2)
                               (xi ^ 2 + 0.1 * dispersion x ^ 2)) ^ 2).
  split; [|apply m_activ_unfold].
  intros xi. pose proof (activ_ratio_bounds xi (dispersion x)) as [H1 H2].
  split; nra.
Qed.

Lemma m_activ_nonneg (x : Tensor) :
  Forall (fun a => 0 <= a) x ->
  Forall (fun a => 0 <= a) (AdAlpha_Momentum._m_activ x).
Proof.
  intros H. destruct (m_activ_factor x) as (F & HF & ->).
  induction H as [|a x Ha Hx IH]; simpl; constructor; auto.
  destruct (HF a). apply Rmult_le_pos; lra.
Qed.

(** Adding an activated delta keeps a tensor non-negative when adding
    [2.001^2] times the raw delta does. *)
Lemma m_activ_add_nonneg (v x : Tensor) :
  Forall2 (fun vi xi => 0 <= vi /\ 0 <= vi + xi * 2.001 ^ 2) v x ->
  Forall (fun a => 0 <= a) (map2 Rplus v (AdAlpha_Momentum._m_activ x)).
Proof.
  intros H. destruct (m_activ_factor x) as (F & HF & ->).
  induction H as [|vi xi v x [H1 H2] Hx IH]; simpl; constructor; auto.
  destruct (HF xi) as [F1 F2].
  destruct (Rle_or_lt 0 xi) as [Hp|Hn].
  - assert (0 <= xi * F xi) by (apply Rmult_le_pos; lra). lra.
  - assert (xi * 2.001 ^ 2 <= xi * F xi); [|lra].
    assert (0 <= (- xi) * (2.001 ^ 2 - F xi)) by (apply Rmult_le_pos; lra).
    lra.
Qed.

Lemma Forall2_self_map (Q : R -> R -> Prop) (P : R -> Prop) (h : R -> R)
  (v : Tensor) :
  Forall P v -> (forall vi, P vi -> Q vi (h vi)) -> Forall2 Q v (map h v).
Proof.
  intros H HQ. induction H; simpl; constructor; auto.
Qed.

Lemma Forall2_self_map2 (Q : R -> R -> Prop) (P : R -> Prop)
  (h : R -> R -> R) (v g : Tensor) :
  length g = length v -> Forall P v ->
  (forall vi gi, P vi -> Q vi (h gi vi)) -> Forall2 Q v (map2 h g v).
Proof.
  intros L H HQ. revert g L. induction H as [|vi v Hv Hr IH];
    intros [|gi g] L; simpl in *; try discriminate; constructor; auto.
Qed.

Lemma Forall_map2_l (P Q : R -> Prop) (f : R -> R -> R) (x y : Tensor) :
  Forall P x -> (forall a b, P a -> Q (f a b)) -> Forall Q (map2 f x y).
Proof.
  intros H HQ. revert y. induction H as [|a x Ha Hx IH]; intros [|b y];
    simpl; constructor; auto.
Qed.

Lemma Forall_set_nth (P : R -> Prop) (i : nat) (a : R) (l : Tensor) :
  Forall P l -> P a -> Forall P (set_nth i a l).
Proof.
  intros H Ha. revert i. induction H as [|b l Hb Hl IH]; intros [|i]; simpl;
    constructor; auto.
Qed.

Lemma scatter_add_nonneg (var values : Tensor) (indices : list nat) (z : Tensor) :
  Forall (fun a => 0 <= a) var -> Forall (fun a => 0 <= a) values ->
  scatter_add var values indices = Ok z -> Forall (fun a => 0 <= a) z.
Proof.
  intros Hvar Hvals. revert var indices Hvar.
  induction Hvals as [|x values Hx Hvals IH]; intros var [|i indices] Hvar H;
    simpl in H; try discriminate.
  - inversion H; subst; exact Hvar.
  - destruct (nth_error var i) as [y|] eqn:E; [|discriminate].
    apply (IH _ _ (Forall_set_nth _ i (y + x) var Hvar
                     (Rplus_le_le_0_compat _ _
                        (proj1 (Forall_forall _ var) Hvar y (nth_error_In _ _ E))
                        Hx)) H).
Qed.

Lemma Forall2_le_max (v_hat v : Tensor) :
  length v_hat = length v -> Forall2 Rle v (map2 Rmax v_hat v).
Proof.
  revert v; induction v_hat as [|a v_hat IH]; intros [|b v] L; simpl in *;
    try discriminate; constructor.
  - apply Rmax_r.
  - apply IH. lia.
Qed.

Lemma Forall2_le_refl (v : Tensor) : Forall2 Rle v v.
Proof. induction v; constructor; auto. apply Rle_refl. Qed.

(** ** The invariants of the second moment *)

Lemma nth_error_set_nth_cases {A : Type} (i j : nat) (a b : A) (l : list A) :
  nth_error (set_nth i a l) j = Some b ->
  (j = i /\ b = a) \/ (j <> i /\ nth_error l j = Some b).
Proof.
  intros H. destruct (Nat.eq_dec i j) as [->|N].
  - left. split; [reflexivity|].
    pose proof (nth_error_lt _ _ _ H) as L. rewrite set_nth_length in L.
    rewrite (nth_error_set_nth_eq j a l L) in H. inversion H; reflexivity.
  - right. rewrite (nth_error_set_nth_neq i j a l N) in H. auto.
Qed.

Lemma base_velocity_nonneg (self : Optimizer) (gradient : Gradient)
  (v v' : Tensor) :
  0 <= beta_2 self <= 1 -> Forall (fun a => 0 <= a) v ->
  match gradient with
  | Dense g =>
      v' = map2 (fun vi gi => vi + (gi * gi - vi) * (1 - beta_2 self)) v g
  | IndexedSlices values indices =>
      scatter_add (map (fun a => a + - a * (1 - beta_2 self)) v)
        (scale (tf_square values) (1 - beta_2 self)) indices = Ok v'
  end ->
  Forall (fun a => 0 <= a) v'.
Proof.
  intros Hb Hv H. destruct gradient as [g | values indices].
  - subst v'. apply (Forall_map2_l (fun a => 0 <= a)); [exact Hv|].
    intros a b Ha. pose proof (Rle_0_sqr b) as Hs. unfold Rsqr in Hs.
    replace (a + (b * b - a) * (1 - beta_2 self))
      with (a * beta_2 self + (b * b) * (1 - beta_2 self)) by ring.
    apply Rplus_le_le_0_compat; apply Rmult_le_pos; lra.
  - eapply scatter_add_nonneg; [| |exact H].
    + apply Forall_map. eapply Forall_impl; [|exact Hv]. intros a Ha. simpl.
      replace (a + - a * (1 - beta_2 self)) with (a * beta_2 self) by ring.
      apply Rmult_le_pos; lra.
    + unfold scale, tf_square. rewrite map_map. apply Forall_map.
      apply Forall_forall. intros a _. pose proof (Rle_0_sqr a) as Hs.
      unfold Rsqr in Hs. apply Rmult_le_pos; lra.
Qed.

Lemma momentum_velocity_nonneg (self : Optimizer) (gradient : Gradient)
  (v v' : Tensor) :
  0 <= beta_2 self <= 1 -> (1 - beta_2 self) * 2.001 ^ 2 <= 1 ->
  Forall (fun a => 0 <= a) v ->
  match gradient with
  | Dense g =>
      length g = length v /\
      v' = map2 Rplus v
             (AdAlpha_Momentum._m_activ
                (scale (map2 Rminus (tf_square g) v) (1 - beta_2 self)))
  | IndexedSlices values indices =>
      scatter_add
        (map2 Rplus v
           (AdAlpha_Momentum._m_activ (scale (neg v) (1 - beta_2 self))))
        (AdAlpha_Momentum._m_activ
           (scale (tf_square values) (1 - beta_2 self)))
        indices = Ok v'
  end ->
  Forall (fun a => 0 <= a) v'.
Proof.
  intros Hb Hk Hv H. set (c := 1 - beta_2 self) in *.
  assert (Hc : 0 <= c) by (unfold c; lra).
  destruct gradient as [g | values indices].
  - destruct H as [L ->]. apply m_activ_add_nonneg.
    unfold scale, tf_square. rewrite map2_map_l, map_map2.
    apply (Forall2_self_map2 _ (fun a => 0 <= a)); [exact L|exact Hv|].
    intros vi gi Hvi. split; [exact Hvi|].
    pose proof (Rle_0_sqr gi) as Hs. unfold Rsqr in Hs.
    replace (vi + (gi * gi - vi) * c * 2.001 ^ 2)
      with (vi * (1 - c * 2.001 ^ 2) + (gi * gi) * (c * 2.001 ^ 2)) by ring.
    apply Rplus_le_le_0_compat; apply Rmult_le_pos; lra.
  - eapply scatter_add_nonneg; [| |exact H].
    + apply m_activ_add_nonneg. unfold scale, neg. rewrite map_map.
      apply (Forall2_self_map _ (fun a => 0 <= a)); [exact Hv|].
      intros vi Hvi. split; [exact Hvi|].
      replace (vi + - vi * c * 2.001 ^ 2) with (vi * (1 - c * 2.001 ^ 2))
        by ring.
      apply Rmult_le_pos; lra.
    + apply m_activ_nonneg. unfold scale, tf_square. rewrite map_map.
      apply Forall_forall. intros a Ha. apply in_map_iff in Ha.
      destruct Ha as (x & <- & _). pose proof (Rle_0_sqr x) as Hs.
      unfold Rsqr in Hs. apply Rmult_le_pos; lra.
Qed.

Lemma store_velocities_nonneg (self : Optimizer) (k : nat) (m v : Tensor)
  (hats : list Tensor) :
  velocities_nonneg self -> Forall (fun a => 0 <= a) v ->
  velocities_nonneg (store self k m v hats).
Proof.
  intros Hinv Hv j w Hj. simpl in Hj.
  apply nth_error_set_nth_cases in Hj. destruct Hj as [[_ ->]|[_ Hj]].
  - exact Hv.
  - eapply Hinv; eauto.
Qed.

Lemma step_velocities_nonneg (variant : Variant) (self self' : Optimizer)
  (k : nat) (gradient : Gradient) (variable variable' : Tensor) :
  0 <= beta_2 self <= 1 ->
  (variant = Momentum -> (1 - beta_2 self) * 2.001 ^ 2 <= 1) ->
  velocities_nonneg self ->
  step_of variant gradient variable k self = Ok (self', variable') ->
  velocities_nonneg self'.
Proof.
  intros Hb Hk Hinv H. destruct variant; simpl in H.
  - apply base_step_Ok in H.
    destruct H as (m & v & m' & v' & Hm & Hv & _ & _ & Hg & H).
    apply apply_update_Ok in H. destruct H as (v_den & -> & _).
    apply store_velocities_nonneg; [exact Hinv|].
    apply (base_velocity_nonneg self gradient v v' Hb (Hinv k v Hv)).
    destruct gradient; tauto.
  - apply momentum_step_Ok in H.
    destruct H as (m & v & m' & v' & Hm & Hv & _ & _ & Hg & H).
    apply apply_update_Ok in H. destruct H as (v_den & -> & _).
    apply store_velocities_nonneg; [exact Hinv|].
    apply (momentum_velocity_nonneg self gradient v v' Hb (Hk eq_refl)
             (Hinv k v Hv)).
    destruct gradient; tauto.
Qed.

Lemma step_hats_dominate (variant : Variant) (self self' : Optimizer)
  (k : nat) (gradient : Gradient) (variable variable' : Tensor) :
  amsgrad self = true -> hats_dominate self ->
  step_of variant gradient variable k self = Ok (self', variable') ->
  hats_dominate self'.
Proof.
  intros Ha Hinv H.
  assert (Hap : exists m' v' alpha,
             apply_update self k m' v' alpha variable = Ok (self', variable')).
  { destruct variant; simpl in H.
    - apply base_step_Ok in H.
      destruct H as (m & v & m' & v' & _ & _ & _ & _ & _ & H). eauto.
    - apply momentum_step_Ok in H.
      destruct H as (m & v & m' & v' & _ & _ & _ & _ & _ & H). eauto. }
  destruct Hap as (m' & v' & alpha & Hap).
  apply apply_update_Ok in Hap.
  destruct Hap as (v_den & Hs & _ & Ht & _).
  destruct (Ht Ha) as (v_hat & Hh & Lh & -> & Hset).
  intros j w Hj. rewrite Hs in Hj. simpl in Hj. rewrite Hset.
  apply nth_error_set_nth_cases in Hj. destruct Hj as [[-> ->]|[N Hj]].
  - exists (map2 Rmax v_hat v'). split.
    + apply nth_error_set_nth_eq. eapply nth_error_lt; eauto.
    + apply Forall2_le_max, Lh.
  - rewrite nth_error_set_nth_neq by auto. apply Hinv, Hj.
Qed.

Lemma host_call_invariants (variant : Variant) (c : HostCall)
  (self self' : Optimizer) (variables variables' : list Tensor) :
  host_call (step_of variant) c (self, variables) = Ok (self', variables') ->
  (beta_2 self' = beta_2 self /\ amsgrad self' = amsgrad self) /\
  (0 <= beta_2 self <= 1 ->
   (variant = Momentum -> (1 - beta_2 self) * 2.001 ^ 2 <= 1) ->
   velocities_nonneg self -> velocities_nonneg self') /\
  (amsgrad self = true -> hats_dominate self -> hats_dominate self').
Proof.
  intros H. apply host_call_Ok in H.
  destruct c as [k gradient | new_std |].
  - destruct H as (variable & variable' & _ & H & _).
    split; [apply step_of_fields in H; tauto|]. split.
    + intros Hb Hk Hinv. eapply step_velocities_nonneg; eauto.
    + intros Ha Hinv. eapply step_hats_dominate; eauto.
  - destruct H as [-> _]. simpl. auto.
  - destruct H as [-> _]. simpl. auto.
Qed.

Lemma host_run_invariants (variant : Variant) (calls : list HostCall)
  (self self' : Optimizer) (variables variables' : list Tensor) :
  host_run (step_of variant) calls (self, variables) = Ok (self', variables') ->
  (beta_2 self' = beta_2 self /\ amsgrad self' = amsgrad self) /\
  (0 <= beta_2 self <= 1 ->
   (variant = Momentum -> (1 - beta_2 self) * 2.001 ^ 2 <= 1) ->
   velocities_nonneg self -> velocities_nonneg self') /\
  (amsgrad self = true -> hats_dominate self -> hats_dominate self').
Proof.
  revert self variables. induction calls as [|c calls IH];
    intros self variables H; simpl in H.
  - inversion H; subst. auto.
  - bind_inv H. destruct r as [s1 v1].
    apply host_call_invariants in E. apply IH in H.
    destruct E as ((Eb & Ea) & E1 & E2). destruct H as ((Hb & Ha) & H1 & H2).
    rewrite Eb, Ea in *. split; [split; congruence|]. split.
    + intros B K I. apply H1; auto.
    + intros A I. apply H2; auto.
Qed.

Lemma build_zero_moments (var_list : list Tensor) (self : Optimizer) :
  _built self = false ->
  velocities_nonneg (Adalpha.build var_list self) /\
  (amsgrad self = true -> hats_dominate (Adalpha.build var_list self)).
Proof.
  intros Hb. unfold Adalpha.build. rewrite Hb. split.
  - intros k v Hk. simpl in Hk. apply nth_error_In, in_map_iff in Hk.
    destruct Hk as (var & <- & _). unfold add_variable_from_reference.
    apply Forall_map, Forall_forall. intros a _. simpl. apply Rle_refl.
  - intros Ha k v Hk. simpl in *. rewrite Ha. exists v.
    split; [exact Hk | apply Forall2_le_refl].
Qed.

(** C4, as amended: from zero-initialized moments, after any sequence of
    successful update steps of one variant on any parameters with any
    gradients (with signal updates and counter increments in between),
    [v] is elementwise non-negative provided [0 <= beta_2 <= 1] and, for the
    momentum-activated variant, [(1 - beta_2) * 2.001^2 <= 1] (the default
    0.999 satisfies both); and with AMS-grad on, every [v_hat] is
    elementwise at least its [v], whatever [beta_2]. *)
Theorem C4_second_moment_invariants (variant : Variant) (lr : R) (cp : nat)
  (b1 b2 eps : R) (ams : bool) (var_list : list Tensor)
  (calls : list HostCall) (self : Optimizer) (variables : list Tensor) :
  host_run (step_of variant) calls
    (Adalpha.build var_list (Adalpha.init lr cp b1 b2 eps ams), var_list)
  = Ok (self, variables) ->
  (0 <= b2 <= 1 ->
   (variant = Momentum -> (1 - b2) * 2.001 ^ 2 <= 1) ->
   forall k v, nth_error (_velocities self) k = Some v ->
               Forall (fun a => 0 <= a) v) /\
  (ams = true ->
   forall k v, nth_error (_velocities self) k = Some v ->
     exists v_hat, nth_error (_velocity_hats self) k = Some v_hat /\
                   Forall2 Rle v v_hat).
Proof.
  intros H. apply host_run_invariants in H.
  destruct H as (_ & H1 & H2).
  destruct (build_zero_moments var_list (Adalpha.init lr cp b1 b2 eps ams)
              eq_refl) as [I1 I2].
  split.
  - intros Hb Hk. apply H1; auto.
  - intros Ha. apply H2; [exact Ha|]. apply I2. exact Ha.
Qed.

(** The theorem after one step of the momentum-activated variant with the
    default hyperparameters and AMS-grad on. *)
Lemma C4_second_moment_invariants_witness :
  exists self variables,
    host_run (step_of Momentum) [CallUpdateStep 0 (Dense [0.1]); CallIterate]
      (Adalpha.build [[1]] (Adalpha.init 0.001 1 0.9 0.999 1e-7 true), [[1]])
    = Ok (self, variables) /\
    (forall k v, nth_error (_velocities self) k = Some v ->
                 Forall (fun a => 0 <= a) v) /\
    (forall k v, nth_error (_velocities self) k = Some v ->
       exists v_hat, nth_error (_velocity_hats self) k = Some v_hat /\
                     Forall2 Rle v v_hat).
Proof.
  destruct (host_run (step_of Momentum)
              [CallUpdateStep 0 (Dense [0.1]); CallIterate]
              (Adalpha.build [[1]] (Adalpha.init 0.001 1 0.9 0.999 1e-7 true),
               [[1]]))
    as [[self variables]|e] eqn:E.
  - exists self, variables. split; [reflexivity|].
    destruct (C4_second_moment_invariants Momentum 0.001 1 0.9 0.999 1e-7 true
                [[1]] [CallUpdateStep 0 (Dense [0.1]); CallIterate]
                self variables E) as [H1 H2].
    split.
    + apply H1; [lra | intros _; lra].
    + apply H2. reflexivity.
  - run_structure E. discriminate E.
Defined.

(** ** The momentum-activated variant on a tensor of one element *)

Lemma m_activ_singleton (x : R) :
  x <> 0 -> AdAlpha_Momentum._m_activ [x] = [x * (2 - 0.9999 / 1.1) ^ 2].
Proof.
  intros Hx. rewrite m_activ_unfold, dispersion_singleton. cbn [map].
  assert (Hp : 0 < x ^ 2) by nra.
  rewrite divide_no_nan_nonzero by (rewrite pow2_abs; lra).
  rewrite Rpow_mult_distr, pow2_abs.
  replace 0.01 with (1 / 100) by lra. replace 0.1 with (1 / 10) by lra.
  replace 0.9999 with (9999 / 10000) by lra. replace 1.1 with (11 / 10) by lra.
  replace ((x ^ 2 - (1 / 100) ^ 2 * x ^ 2) / (x ^ 2 + 1 / 10 * x ^ 2))
    with (9999 / 10000 / (11 / 10)) by (field; lra).
  reflexivity.
Qed.

Lemma momentum_dense_step (self : Optimizer) (k : nat)
  (g m v variable : Tensor) :
  nth_error (_momentums self) k = Some m ->
  nth_error (_velocities self) k = Some v ->
  length m = length variable -> length v = length variable ->
  length g = length variable ->
  AdAlpha_Momentum.update_step (Dense g) variable k self =
  apply_update self k
    (map2 Rplus m
       (AdAlpha_Momentum._m_activ (scale (map2 Rminus g m) (1 - beta_1 self))))
    (map2 Rplus v
       (AdAlpha_Momentum._m_activ
          (scale (map2 Rminus (tf_square g) v) (1 - beta_2 self))))
    (learning_rate self
     * (sqrt (1 - beta_2 self ^ S (iterations self))
        / (1 - beta_1 self ^ S (iterations self)))
     * std self ^ chaos_punish self)
    variable.
Proof.
  intros Hm Hv Lm Lv Lg. unfold AdAlpha_Momentum.update_step.
  rewrite (getitem_ok _ _ _ Hm), (getitem_ok _ _ _ Hv). cbn [bind].
  unfold tf_sub, assign_add.
  rewrite (tf_binop_ok Rminus g m) by congruence. cbn [bind].
  rewrite (tf_binop_ok Rplus m)
    by (rewrite m_activ_length, scale_length, map2_length; congruence).
  cbn [bind].
  rewrite (tf_binop_ok Rminus (tf_square g) v)
    by (rewrite tf_square_length; congruence).
  cbn [bind].
  rewrite (tf_binop_ok Rplus v)
    by (rewrite m_activ_length, scale_length, map2_length;
        rewrite ?tf_square_length; congruence).
  reflexivity.
Qed.

(** One dense step of the momentum-activated variant, AMS-grad off, on a
    parameter of one element whose raw second-moment delta is not 0. *)
Lemma momentum_dense_singleton (self : Optimizer) (k : nat) (mi vi gi p : R) :
  amsgrad self = false ->
  nth_error (_momentums self) k = Some [mi] ->
  nth_error (_velocities self) k = Some [vi] ->
  (gi * gi - vi) * (1 - beta_2 self) <> 0 ->
  exists self' p' m',
    AdAlpha_Momentum.update_step (Dense [gi]) [p] k self = Ok (self', [p']) /\
    _momentums self' = set_nth k [m'] (_momentums self) /\
    _velocities self' =
      set_nth k
        [vi + (gi * gi - vi) * (1 - beta_2 self) * (2 - 0.9999 / 1.1) ^ 2]
        (_velocities self).
Proof.
  intros Ha Hm Hv Hx.
  rewrite (momentum_dense_step self k [gi] [mi] [vi] [p] Hm Hv)
    by reflexivity.
  cbn [map2 tf_square scale map].
  rewrite (m_activ_singleton _ Hx).
  assert (Em : exists y, AdAlpha_Momentum._m_activ
                           [(gi - mi) * (1 - beta_1 self)] = [y])
    by (unfold AdAlpha_Momentum._m_activ, AdAlpha_Momentum._m_activ_quotient;
        cbn [map map2]; eauto).
  destruct Em as [y ->]. cbn [map2].
  rewrite apply_update_plain by (exact Ha || reflexivity).
  cbn [map2]. eexists _, _, _. split; [reflexivity|]. split; reflexivity.
Qed.

(** C4, as the specification states it, fails for the momentum-activated
    variant with [beta_2 = 0.1]: from zero moments, on a parameter of one
    element, the gradient 1 followed by the gradient 0 leaves
    [v = 0.9*K - 0.81*K^2 < 0], where [K = (2 - 0.9999/1.1)^2]. *)
Lemma C4_counterexample :
  exists self variables v,
    host_run (step_of Momentum)
      [CallUpdateStep 0 (Dense [1]); CallIterate; CallUpdateStep 0 (Dense [0])]
      (Adalpha.build [[1]] (Adalpha.init 0.001 1 0.9 0.1 1e-7 false), [[1]])
    = Ok (self, variables) /\
    nth_error (_velocities self) 0 = Some v /\
    ~ Forall (fun a => 0 <= a) v.
Proof.
  set (s0 := Adalpha.build [[1]] (Adalpha.init 0.001 1 0.9 0.1 1e-7 false)).
  destruct (momentum_dense_singleton s0 0 0 0 1 1 eq_refl eq_refl eq_refl)
    as (s1 & p1 & m1 & E1 & M1 & V1).
  { simpl. lra. }
  pose proof (step_of_fields Momentum _ _ _ _ _ _ E1)
    as (_ & A1 & _ & B1 & _).
  change (beta_2 s0) with 0.1 in V1, B1. change (amsgrad s0) with false in A1.
  change (_velocities s0) with [[0]] in V1.
  change (_momentums s0) with [[0]] in M1. cbn [set_nth] in V1, M1.
  set (v1 := 0 + (1 * 1 - 0) * (1 - 0.1) * (2 - 0.9999 / 1.1) ^ 2) in *.
  destruct (momentum_dense_singleton (iterate s1) 0 m1 v1 0 p1)
    as (s2 & p2 & m2 & E2 & M2 & V2).
  { exact A1. }
  { simpl. rewrite M1. reflexivity. }
  { simpl. rewrite V1. reflexivity. }
  { simpl. rewrite B1. unfold v1. lra. }
  cbn [iterate _velocities beta_2] in V2. rewrite V1, B1 in V2.
  cbn [set_nth] in V2.
  exists s2, [[p2]],
    [v1 + (0 * 0 - v1) * (1 - 0.1) * (2 - 0.9999 / 1.1) ^ 2].
  split; [|split].
  - unfold host_run, host_call, step_of. cbn [bind getitem nth_error].
    rewrite E1. cbn [bind fst snd set_nth getitem nth_error].
    rewrite E2. reflexivity.
  - rewrite V2. reflexivity.
  - intros H. inversion H as [|a l Hneg _]; subst. unfold v1 in Hneg. lra.
Qed.

(** ** All-zero gradients in the base variant *)

Lemma map2_zeros_r (f : R -> R -> R) (m : Tensor) :
  map2 f m (zeros (length m)) = map (fun a => f a 0) m.
Proof.
  induction m as [|a m IH]; simpl; [reflexivity|].
  unfold zeros in IH. rewrite IH. reflexivity.
Qed.

(** One step with the all-zero gradient: both moments only decay, and the
    parameter loses [(m * alpha) / (sqrt(v_den) + epsilon)] of the decayed
    first moment. *)
Lemma base_zero_step (self : Optimizer) (k : nat) (m v p : Tensor) :
  nth_error (_momentums self) k = Some m ->
  nth_error (_velocities self) k = Some v ->
  length m = length p -> length v = length p ->
  (amsgrad self = true ->
   exists v_hat, nth_error (_velocity_hats self) k = Some v_hat /\
                 length v_hat = length p) ->
  exists self' p' v_den,
    Adalpha.update_step (Dense (zeros (length p))) p k self = Ok (self', p') /\
    nth_error (_momentums self') k = Some (map (fun a => beta_1 self * a) m) /\
    nth_error (_velocities self') k = Some (map (fun a => beta_2 self * a) v) /\
    (amsgrad self = true ->
     exists v_hat, nth_error (_velocity_hats self') k = Some v_hat /\
                   length v_hat = length p) /\
    length v_den = length p /\
    p' = map2 Rminus p
           (map2 (fun mi di =>
                    mi * (learning_rate self
                          * (sqrt (1 - beta_2 self ^ S (iterations self))
                             / (1 - beta_1 self ^ S (iterations self)))
                          * (1 - std self * INR (chaos_punish self))
                            ^ chaos_punish self)
                    / (sqrt di + epsilon self))
                 (map (fun a => beta_1 self * a) m) v_den).
Proof.
  intros Hm Hv Lm Lv Hams.
  pose proof (nth_error_lt _ _ _ Hm) as Km.
  pose proof (nth_error_lt _ _ _ Hv) as Kv.
  rewrite (base_dense_step self k (zeros (length p)) m v p Hm Hv Lm Lv
             (zeros_length _)).
  assert (Em : map2 (fun mi gi => mi + (gi - mi) * (1 - beta_1 self)) m
                 (zeros (length p)) = map (fun a => beta_1 self * a) m).
  { rewrite <- Lm, map2_zeros_r. apply map_ext. intros a. ring. }
  assert (Ev : map2 (fun vi gi => vi + (gi * gi - vi) * (1 - beta_2 self)) v
                 (zeros (length p)) = map (fun a => beta_2 self * a) v).
  { rewrite <- Lv, map2_zeros_r. apply map_ext. intros a. ring. }
  rewrite Em, Ev.
  set (m' := map (fun a => beta_1 self * a) m).
  set (v' := map (fun a => beta_2 self * a) v).
  assert (Lm' : length m' = length p) by (unfold m'; rewrite length_map; exact Lm).
  assert (Lv' : length v' = length p) by (unfold v'; rewrite length_map; exact Lv).
  destruct (amsgrad self) eqn:Ha.
  - destruct (Hams eq_refl) as [v_hat [Hh Lh]].
    rewrite (apply_update_ams self k m' v' v_hat p _ Ha Hh Lm' Lv' Lh).
    eexists _, _, (map2 Rmax v_hat v').
    split; [reflexivity|].
    split; [apply store_momentums, Km|].
    split; [apply store_velocities, Kv|].
    split.
    { intros _. exists (map2 Rmax v_hat v'). simpl. split.
      - apply nth_error_set_nth_eq. eapply nth_error_lt; eauto.
      - rewrite map2_length; congruence. }
    split; [rewrite map2_length; congruence | reflexivity].
  - rewrite (apply_update_plain self k m' v' p _ Ha Lm' Lv').
    eexists _, _, v'.
    split; [reflexivity|].
    split; [apply store_momentums, Km|].
    split; [apply store_velocities, Kv|].
    split; [discriminate|]. split; [exact Lv' | reflexivity].
Qed.

(** The step scale is bounded, whatever the step counter. *)
Lemma base_alpha_bound (lr b1 b2 c : R) (t : nat) :
  0 <= b1 < 1 -> 0 <= b2 <= 1 ->
  Rabs (lr * (sqrt (1 - b2 ^ S t) / (1 - b1 ^ S t)) * c)
  <= Rabs (lr * c) / (1 - b1).
Proof.
  intros [H1 H1'] [H2 H2'].
  assert (P1 : 0 <= b1 ^ S t <= b1).
  { assert (Pt : 0 <= b1 ^ t <= 1).
    { split; [apply pow_le; exact H1|].
      rewrite <- (pow1 t). apply pow_incr. lra. }
    change (b1 ^ S t) with (b1 * b1 ^ t). nra. }
  assert (P2 : 0 <= b2 ^ S t <= 1).
  { split; [apply pow_le; exact H2|].
    rewrite <- (pow1 (S t)). apply pow_incr. lra. }
  assert (S1 : 0 <= sqrt (1 - b2 ^ S t) <= 1).
  { split; [apply sqrt_pos|].
    apply Rle_trans with (sqrt 1); [apply sqrt_le_1_alt; lra|].
    rewrite sqrt_1. apply Rle_refl. }
  assert (D : 0 < 1 - b1 ^ S t) by lra.
  set (s := sqrt (1 - b2 ^ S t)) in *. set (d := 1 - b1 ^ S t) in *.
  replace (lr * (s / d) * c) with ((lr * c) * (s / d)) by (unfold Rdiv; ring).
  rewrite Rabs_mult. unfold Rdiv at 2.
  apply Rmult_le_compat_l; [apply Rabs_pos|].
  assert (Q : 0 <= s / d) by (apply Rmult_le_pos; [lra | left; apply Rinv_0_lt_compat, D]).
  rewrite (Rabs_pos_eq _ Q).
  apply Rle_trans with (1 / d).
  - unfold Rdiv. apply Rmult_le_compat_r; [left; apply Rinv_0_lt_compat, D | lra].
  - unfold Rdiv. rewrite Rmult_1_l. apply Rinv_le_contravar; unfold d; lra.
Qed.

(** The size of one element of the step. *)
Lemma step_element_bound (mi alpha di eps : R) :
  0 < eps -> Rabs (mi * alpha / (sqrt di + eps)) <= Rabs mi * Rabs alpha / eps.
Proof.
  intros He. pose proof (sqrt_pos di) as Hs.
  assert (D : 0 < sqrt di + eps) by lra.
  unfold Rdiv. rewrite !Rabs_mult. rewrite (Rabs_pos_eq (/ (sqrt di + eps)))
    by (left; apply Rinv_0_lt_compat, D).
  apply Rmult_le_compat_l.
  - apply Rmult_le_pos; apply Rabs_pos.
  - apply Rinv_le_contravar; lra.
Qed.

Lemma step_delta_bound (p p' m' v_den : Tensor) (alpha eps : R) (i : nat) :
  0 < eps -> length m' = length p -> length v_den = length p ->
  p' = map2 Rminus p
         (map2 (fun mi di => mi * alpha / (sqrt di + eps)) m' v_den) ->
  Rabs (nth i p' 0 - nth i p 0) <= Rabs (nth i m' 0) * Rabs alpha / eps.
Proof.
  intros He Lm Lv ->.
  destruct (Nat.lt_ge_cases i (length p)) as [Hlt|Hge].
  - rewrite (nth_map2 Rminus p _ i 0 0 0)
      by (rewrite ?map2_length; congruence || lia).
    rewrite (nth_map2 _ m' v_den i 0 0 0) by lia.
    replace (nth i p 0 - nth i m' 0 * alpha / (sqrt (nth i v_den 0) + eps)
             - nth i p 0)
      with (- (nth i m' 0 * alpha / (sqrt (nth i v_den 0) + eps))) by ring.
    rewrite Rabs_Ropp. apply step_element_bound, He.
  - rewrite !nth_overflow; try lia.
    + rewrite Rminus_diag, Rabs_R0, Rmult_0_l. unfold Rdiv.
      rewrite Rmult_0_l. apply Rle_refl.
    + rewrite map2_length; [lia|]. rewrite map2_length; congruence.
Qed.

Lemma zero_gradient_steps_S (k len n : nat) :
  zero_gradient_steps k len (S n) =
  CallUpdateStep k (Dense (zeros len)) :: CallIterate
  :: zero_gradient_steps k len n.
Proof. reflexivity. Qed.

Lemma zero_gradient_steps_last (k len n : nat) :
  zero_gradient_steps k len (S n) =
  zero_gradient_steps k len n
  ++ [CallUpdateStep k (Dense (zeros len)); CallIterate].
Proof.
  induction n as [|n IH]; [reflexivity|].
  rewrite zero_gradient_steps_S, IH at 1.
  rewrite zero_gradient_steps_S. reflexivity.
Qed.

Lemma host_run_app (step : StepFn) (c1 c2 : list HostCall) (w : World) :
  host_run step (c1 ++ c2) w = (w' <- host_run step c1 w ;; host_run step c2 w').
Proof.
  revert w. induction c1 as [|c c1 IH]; intros w; simpl; [reflexivity|].
  destruct (host_call step c w) as [w1|e]; simpl; [apply IH | reflexivity].
Qed.

(** One zero-gradient step of the host, with its counter increment. *)
Lemma zero_gradient_host_step (self : Optimizer) (variables : list Tensor)
  (k : nat) (m v p : Tensor) :
  slot_ready self variables k m v p ->
  exists self' p' v_den,
    host_run (step_of Base)
      [CallUpdateStep k (Dense (zeros (length p))); CallIterate]
      (self, variables) = Ok (self', set_nth k p' variables) /\
    slot_ready self' (set_nth k p' variables) k
      (map (fun a => beta_1 self * a) m) (map (fun a => beta_2 self * a) v) p' /\
    length p' = length p /\
    hyperparameters self' = hyperparameters self /\
    iterations self' = S (iterations self) /\
    length v_den = length p /\
    p' = map2 Rminus p
           (map2 (fun mi di =>
                    mi * (learning_rate self
                          * (sqrt (1 - beta_2 self ^ S (iterations self))
                             / (1 - beta_1 self ^ S (iterations self)))
                          * (1 - std self * INR (chaos_punish self))
                            ^ chaos_punish self)
                    / (sqrt di + epsilon self))
                 (map (fun a => beta_1 self * a) m) v_den).
Proof.
  intros (Hm & Hv & Hp & Lm & Lv & Hams).
  destruct (base_zero_step self k m v p Hm Hv Lm Lv Hams)
    as (s1 & p' & v_den & E & Hm' & Hv' & Hams' & Ld & Ep).
  pose proof (step_of_fields Base _ _ _ _ _ _ E)
    as (F1 & F2 & F3 & F4 & F5 & F6 & F7 & F8 & F9).
  assert (Lp : length p' = length p).
  { rewrite Ep. rewrite map2_length; [reflexivity|].
    rewrite map2_length; rewrite length_map; congruence. }
  exists (iterate s1), p', v_den.
  split.
  { simpl. rewrite (getitem_ok _ _ _ Hp). cbn [bind]. rewrite E. reflexivity. }
  split.
  { unfold slot_ready. simpl.
    split; [exact Hm'|]. split; [exact Hv'|].
    split; [apply nth_error_set_nth_eq; eapply nth_error_lt; eauto|].
    split; [rewrite length_map; congruence|].
    split; [rewrite length_map; congruence|].
    intros Ha. rewrite F2 in Ha. destruct (Hams' Ha) as (vh & H1 & H2).
    exists vh. split; [exact H1 | congruence]. }
  split; [exact Lp|].
  split; [unfold hyperparameters; simpl; congruence|].
  split; [simpl; congruence|].
  split; [exact Ld | exact Ep].
Qed.

(** [n] zero-gradient steps: the moments after them. *)
Lemma zero_gradient_run (k n : nat) :
  forall (self : Optimizer) (variables : list Tensor) (m v p : Tensor),
    slot_ready self variables k m v p ->
    exists self_n vars_n p_n,
      host_run (step_of Base) (zero_gradient_steps k (length p) n)
        (self, variables) = Ok (self_n, vars_n) /\
      slot_ready self_n vars_n k
        (map (fun a => beta_1 self ^ n * a) m)
        (map (fun a => beta_2 self ^ n * a) v) p_n /\
      length p_n = length p /\
      hyperparameters self_n = hyperparameters self /\
      iterations self_n = (iterations self + n)%nat.
Proof.
  induction n as [|n IH]; intros self variables m v p Hr.
  - exists self, variables, p. split; [reflexivity|].
    split.
    { replace (map (fun a => beta_1 self ^ 0 * a) m) with m
        by (rewrite <- (map_id m) at 1; apply map_ext; intros a; simpl; ring).
      replace (map (fun a => beta_2 self ^ 0 * a) v) with v
        by (rewrite <- (map_id v) at 1; apply map_ext; intros a; simpl; ring).
      exact Hr. }
    split; [reflexivity|]. split; [reflexivity | lia].
  - destruct (zero_gradient_host_step self variables k m v p Hr)
      as (s1 & p1 & v_den & E1 & Hr1 & Lp1 & Hh1 & Hi1 & _).
    destruct (IH s1 (set_nth k p1 variables) _ _ p1 Hr1)
      as (s_n & vars_n & p_n & En & Hrn & Lpn & Hhn & Hin).
    exists s_n, vars_n, p_n.
    assert (B1 : beta_1 s1 = beta_1 self)
      by (unfold hyperparameters in Hh1; congruence).
    assert (B2 : beta_2 s1 = beta_2 self)
      by (unfold hyperparameters in Hh1; congruence).
    split.
    { rewrite zero_gradient_steps_S.
      change (CallUpdateStep k (Dense (zeros (length p))) :: CallIterate
              :: zero_gradient_steps k (length p) n)
        with ([CallUpdateStep k (Dense (zeros (length p))); CallIterate]
              ++ zero_gradient_steps k (length p) n).
      rewrite host_run_app, E1. cbn [bind]. rewrite <- Lp1. exact En. }
    split.
    { rewrite B1, B2, !map_map in Hrn.
      replace (map (fun a => beta_1 self ^ S n * a) m)
        with (map (fun x => beta_1 self ^ n * (beta_1 self * x)) m)
        by (apply map_ext; intros a; simpl; ring).
      replace (map (fun a => beta_2 self ^ S n * a) v)
        with (map (fun x => beta_2 self ^ n * (beta_2 self * x)) v)
        by (apply map_ext; intros a; simpl; ring).
      exact Hrn. }
    split; [congruence|]. split; [congruence | lia].
Qed.

Lemma geometric_to_zero (b K tol : R) :
  0 <= b < 1 -> 0 <= K -> 0 < tol ->
  exists N0, forall N, (N0 <= N)%nat -> K * b ^ N < tol.
Proof.
  intros [Hb Hb'] HK Ht.
  destruct (pow_lt_1_zero b) with (y := tol / (K + 1)) as [N0 HN0].
  - rewrite Rabs_pos_eq; assumption.
  - apply Rdiv_lt_0_compat; lra.
  - exists N0. intros N HN. specialize (HN0 N HN).
    rewrite Rabs_pos_eq in HN0 by (apply pow_le; exact Hb).
    assert (P : 0 <= b ^ N) by (apply pow_le; exact Hb).
    assert (Q : (K + 1) * b ^ N < tol).
    { apply Rmult_lt_reg_r with (/ (K + 1)); [apply Rinv_0_lt_compat; lra|].
      replace ((K + 1) * b ^ N * / (K + 1)) with (b ^ N) by (field; lra).
      exact HN0. }
    nra.
Qed.

Lemma step_gain_nonneg (self : Optimizer) :
  0 <= beta_1 self < 1 -> 0 < epsilon self -> 0 <= step_gain self.
Proof.
  intros Hb He. unfold step_gain. apply Rmult_le_pos; [apply Rabs_pos|].
  left. apply Rinv_0_lt_compat. apply Rmult_lt_0_compat; lra.
Qed.

(** C8, as amended: in the base variant with [0 <= beta_1 < 1],
    [0 <= beta_2 < 1] and [epsilon > 0], the control signal and the learning
    rate fixed, [N] consecutive steps with the all-zero dense gradient
    succeed and only decay the moments: [m = beta_1^N * m0] and
    [v = beta_2^N * v0], which tend to 0.  The parameter delta of the next
    step is at most [step_gain * beta_1^(N+1) * |m0|] in magnitude, so it
    tends to 0 as well. *)
Theorem C8_zero_gradient_decay (self : Optimizer) (variables : list Tensor)
  (k : nat) (m0 v0 p0 : Tensor) :
  0 <= beta_1 self < 1 -> 0 <= beta_2 self < 1 -> 0 < epsilon self ->
  slot_ready self variables k m0 v0 p0 ->
  (forall N, exists self_N vars_N p_N self' vars' p',
      host_run (step_of Base) (zero_gradient_steps k (length p0) N)
        (self, variables) = Ok (self_N, vars_N) /\
      nth_error vars_N k = Some p_N /\
      nth_error (_momentums self_N) k
      = Some (map (fun a => beta_1 self ^ N * a) m0) /\
      nth_error (_velocities self_N) k
      = Some (map (fun a => beta_2 self ^ N * a) v0) /\
      host_run (step_of Base) (zero_gradient_steps k (length p0) (S N))
        (self, variables) = Ok (self', vars') /\
      nth_error vars' k = Some p' /\
      forall i, Rabs (nth i p' 0 - nth i p_N 0)
                <= step_gain self * beta_1 self ^ S N * Rabs (nth i m0 0)) /\
  (forall i tol, 0 < tol ->
     exists N0, forall N, (N0 <= N)%nat ->
       Rabs (beta_1 self ^ N * nth i m0 0) < tol /\
       Rabs (beta_2 self ^ N * nth i v0 0) < tol /\
       step_gain self * beta_1 self ^ S N * Rabs (nth i m0 0) < tol).
Proof.
  intros Hb1 Hb2 He Hr. split.
  - intros N.
    destruct (zero_gradient_run k N self variables m0 v0 p0 Hr)
      as (s_N & vars_N & p_N & EN & HrN & LpN & HhN & _).
    destruct (zero_gradient_host_step s_N vars_N k _ _ p_N HrN)
      as (s' & p' & v_den & E' & Hr' & _ & _ & _ & Ld & Ep).
    unfold hyperparameters in HhN.
    assert (F1 : learning_rate s_N = learning_rate self) by congruence.
    assert (F2 : beta_1 s_N = beta_1 self) by congruence.
    assert (F3 : beta_2 s_N = beta_2 self) by congruence.
    assert (F4 : epsilon s_N = epsilon self) by congruence.
    assert (F5 : chaos_punish s_N = chaos_punish self) by congruence.
    assert (F6 : std s_N = std self) by congruence.
    destruct HrN as (HmN & HvN & HpN & LmN & _).
    exists s_N, vars_N, p_N, s', (set_nth k p' vars_N), p'.
    split; [exact EN|]. split; [exact HpN|].
    split; [exact HmN|]. split; [exact HvN|].
    split.
    { rewrite zero_gradient_steps_last, host_run_app, EN. cbn [bind].
      rewrite <- LpN. exact E'. }
    split.
    { apply nth_error_set_nth_eq. eapply nth_error_lt; eauto. }
    intros i.
    rewrite F1, F2, F3, F4, F5, F6 in Ep.
    eapply Rle_trans.
    { eapply step_delta_bound; [exact He | | exact Ld | exact Ep].
      rewrite !length_map. rewrite length_map in LmN. exact LmN. }
    rewrite map_map.
    rewrite (nth_map_zero (fun x => beta_1 self * (beta_1 self ^ N * x)) m0 i)
      by ring.
    pose proof (base_alpha_bound (learning_rate self) (beta_1 self)
                  (beta_2 self)
                  ((1 - std self * INR (chaos_punish self))
                   ^ chaos_punish self)
                  (iterations s_N) Hb1 (conj (proj1 Hb2) (Rlt_le _ _ (proj2 Hb2))))
      as Ha.
    set (alpha := learning_rate self * _ * _) in *.
    set (c := (1 - std self * INR (chaos_punish self)) ^ chaos_punish self) in *.
    assert (Pn : 0 <= beta_1 self ^ S N) by (apply pow_le; lra).
    replace (beta_1 self * (beta_1 self ^ N * nth i m0 0))
      with (beta_1 self ^ S N * nth i m0 0) by (simpl; ring).
    rewrite Rabs_mult, (Rabs_pos_eq _ Pn).
    unfold step_gain. fold c.
    replace (Rabs (learning_rate self * c)
             / ((1 - beta_1 self) * epsilon self) * beta_1 self ^ S N
             * Rabs (nth i m0 0))
      with (beta_1 self ^ S N * Rabs (nth i m0 0)
            * (Rabs (learning_rate self * c) / (1 - beta_1 self))
            / epsilon self) by (field; lra).
    unfold Rdiv at 1 3. apply Rmult_le_compat_r;
      [left; apply Rinv_0_lt_compat, He|].
    apply Rmult_le_compat_l; [|exact Ha].
    apply Rmult_le_pos; [exact Pn | apply Rabs_pos].
  - intros i tol Ht.
    pose proof (step_gain_nonneg self Hb1 He) as Hg.
    destruct (geometric_to_zero (beta_1 self) (Rabs (nth i m0 0)) tol Hb1
                (Rabs_pos _) Ht) as [N1 H1].
    destruct (geometric_to_zero (beta_2 self) (Rabs (nth i v0 0)) tol Hb2
                (Rabs_pos _) Ht) as [N2 H2].
    destruct (geometric_to_zero (beta_1 self)
                (step_gain self * beta_1 self * Rabs (nth i m0 0)) tol Hb1)
      as [N3 H3]; [|exact Ht|].
    { apply Rmult_le_pos; [apply Rmult_le_pos; lra | apply Rabs_pos]. }
    exists (Nat.max N1 (Nat.max N2 N3)). intros N HN.
    assert (P1 : 0 <= beta_1 self ^ N) by (apply pow_le; lra).
    assert (P2 : 0 <= beta_2 self ^ N) by (apply pow_le; lra).
    rewrite !Rabs_mult, (Rabs_pos_eq _ P1), (Rabs_pos_eq _ P2).
    specialize (H1 N ltac:(lia)). specialize (H2 N ltac:(lia)).
    specialize (H3 N ltac:(lia)).
    split; [lra|]. split; [lra|].
    replace (step_gain self * beta_1 self ^ S N * Rabs (nth i m0 0))
      with (step_gain self * beta_1 self * Rabs (nth i m0 0) * beta_1 self ^ N)
      by (simpl; ring).
    exact H3.
Qed.

(** The theorem for a built optimizer with [m = [0.5]] and [v = [0.25]] on
    the parameter [[1]]: the first two zero-gradient steps. *)
Lemma C8_zero_gradient_decay_witness :
  exists self_N vars_N p_N self' vars' p',
    host_run (step_of Base) (zero_gradient_steps 0 1 1)
      (mkOptimizer 0.001 0.9 0.999 1e-7 false 6 1 0 true [[0.5]] [[0.25]] [],
       [[1]]) = Ok (self_N, vars_N) /\
    nth_error vars_N 0 = Some p_N /\
    nth_error (_momentums self_N) 0 = Some (map (fun a => 0.9 ^ 1 * a) [0.5]) /\
    host_run (step_of Base) (zero_gradient_steps 0 1 2)
      (mkOptimizer 0.001 0.9 0.999 1e-7 false 6 1 0 true [[0.5]] [[0.25]] [],
       [[1]]) = Ok (self', vars') /\
    nth_error vars' 0 = Some p'.
Proof.
  destruct (C8_zero_gradient_decay
              (mkOptimizer 0.001 0.9 0.999 1e-7 false 6 1 0 true
                 [[0.5]] [[0.25]] [])
              [[1]] 0 [0.5] [0.25] [1]) as [HA _].
  - simpl. lra.
  - simpl. lra.
  - simpl. lra.
  - unfold slot_ready. simpl. repeat split; try reflexivity.
    intros H. discriminate H.
  - destruct (HA 1%nat)
      as (self_N & vars_N & p_N & self' & vars' & p' & H1 & H2 & H3 & _ & H5
          & H6 & _).
    exists self_N, vars_N, p_N, self', vars', p'. auto.
Defined.

(** With a control signal of 1 and [chaos_punish = 1], the constructor's
    defaults, the factor [(1 - std*chaos_punish)^chaos_punish] is 0, so
    the step scale is 0 and a step leaves the parameter where it is. *)
Lemma base_default_signal_no_move (self : Optimizer) (k : nat)
  (m v p : Tensor) (self' : Optimizer) (p' : Tensor) (g : Tensor) :
  std self = 1 -> chaos_punish self = 1%nat -> amsgrad self = false ->
  nth_error (_momentums self) k = Some m ->
  nth_error (_velocities self) k = Some v ->
  length m = length p -> length v = length p -> length g = length p ->
  Adalpha.update_step (Dense g) p k self = Ok (self', p') -> p' = p.
Proof.
  intros Hs Hc Ha Hm Hv Lm Lv Lg H.
  rewrite (base_dense_step self k g m v p Hm Hv Lm Lv Lg) in H.
  rewrite apply_update_plain in H
    by (exact Ha || (rewrite map2_length; congruence)).
  inversion H; subst; clear H.
  rewrite Hs, Hc. simpl INR.
  set (m' := map2 _ m g). set (v' := map2 _ v g).
  assert (Lm' : length m' = length p) by (unfold m'; rewrite map2_length; congruence).
  assert (Lv' : length v' = length p) by (unfold v'; rewrite map2_length; congruence).
  clearbody m' v'. clear - Lm' Lv'.
  revert m' v' Lm' Lv'. induction p as [|a p IH]; intros [|b m'] [|c v'] Lm' Lv';
    simpl in *; try discriminate; [reflexivity|].
  f_equal.
  - unfold Rdiv. ring.
  - apply IH; lia.
Qed.

Lemma default_signal_host_step (self : Optimizer) (variables : list Tensor)
  (k : nat) (m v p g : Tensor) :
  std self = 1 -> chaos_punish self = 1%nat -> amsgrad self = false ->
  slot_ready self variables k m v p -> length g = length p ->
  exists self',
    host_run (step_of Base) [CallUpdateStep k (Dense g); CallIterate]
      (self, variables) = Ok (self', set_nth k p variables) /\
    std self' = 1 /\ chaos_punish self' = 1%nat /\ amsgrad self' = false /\
    beta_1 self' = beta_1 self /\ beta_2 self' = beta_2 self /\
    slot_ready self' (set_nth k p variables) k
      (map2 (fun mi gi => mi + (gi - mi) * (1 - beta_1 self)) m g)
      (map2 (fun vi gi => vi + (gi ^ 2 - vi) * (1 - beta_2 self)) v g) p.
Proof.
  intros Hs Hc Ha (Hm & Hv & Hp & Lm & Lv & Hams) Lg.
  destruct (base_dense_result self k g m v p Hm Hv Lm Lv Lg Hams)
    as (s1 & p1 & E & Hm' & Hv').
  pose proof (base_default_signal_no_move self k m v p s1 p1 g
                Hs Hc Ha Hm Hv Lm Lv Lg E) as ->.
  pose proof (step_of_fields Base _ _ _ _ _ _ E)
    as (F1 & F2 & F3 & F4 & F5 & F6 & F7 & F8 & F9).
  exists (iterate s1).
  split.
  { simpl. rewrite (getitem_ok _ _ _ Hp). cbn [bind]. rewrite E. reflexivity. }
  cbn [iterate std chaos_punish amsgrad beta_1 beta_2].
  split; [congruence|]. split; [congruence|]. split; [congruence|].
  split; [congruence|]. split; [congruence|].
  unfold slot_ready. cbn [iterate _momentums _velocities amsgrad].
  split; [exact Hm'|]. split; [exact Hv'|].
  split; [apply nth_error_set_nth_eq; eapply nth_error_lt; eauto|].
  split; [rewrite map2_length; congruence|].
  split; [rewrite map2_length; congruence|].
  intros C. congruence.
Qed.

(** C8, as the specification states it, fails for the optimizer with the
    constructor's defaults: after a step with gradient [[1]] has made the
    first moment 0.1, two steps with the all-zero gradient both leave the
    parameter at 1, so the magnitude of the delta is 0 at both steps and
    does not strictly decrease. *)
Lemma C8_counterexample :
  exists s1 s2 s3 p2 p3,
    host_run (step_of Base) [CallUpdateStep 0 (Dense [1]); CallIterate]
      (Adalpha.build [[1]] Adalpha.default, [[1]]) = Ok (s1, [[1]]) /\
    nth_error (_momentums s1) 0 = Some [0 + (1 - 0) * (1 - 0.9)] /\
    host_run (step_of Base) (zero_gradient_steps 0 1 1) (s1, [[1]])
    = Ok (s2, [[p2]]) /\
    host_run (step_of Base) (zero_gradient_steps 0 1 1) (s2, [[p2]])
    = Ok (s3, [[p3]]) /\
    ~ (Rabs (p3 - p2) < Rabs (p2 - 1)).
Proof.
  destruct (default_signal_host_step (Adalpha.build [[1]] Adalpha.default)
              [[1]] 0 [0] [0] [1] [1] eq_refl eq_refl eq_refl)
    as (s1 & E1 & S1 & C1 & A1 & B1 & _ & R1); [| reflexivity |].
  { unfold slot_ready. simpl. repeat split; try reflexivity.
    intros H. discriminate H. }
  cbn [set_nth] in E1, R1.
  destruct (default_signal_host_step s1 [[1]] 0 _ _ [1] [0] S1 C1 A1 R1
              eq_refl)
    as (s2 & E2 & S2 & C2 & A2 & _ & _ & R2).
  cbn [set_nth] in E2, R2.
  destruct (default_signal_host_step s2 [[1]] 0 _ _ [1] [0] S2 C2 A2 R2
              eq_refl)
    as (s3 & E3 & _).
  cbn [set_nth] in E3.
  exists s1, s2, s3, 1, 1.
  split; [exact E1|].
  split; [exact (proj1 R1)|].
  split; [exact E2|]. split; [exact E3|].
  apply Rlt_irrefl.
Qed.

(** ** The momentum-activated variant with [beta_2 = 1/2] *)

(** Mean and population standard deviation of a tensor with four equal
    elements and a fifth one. *)
Lemma reduce_mean_4_1 (p q : R) : reduce_mean [p; p; p; p; q] = (4 * p + q) / 5.
Proof. unfold reduce_mean, reduce_sum. simpl. field. Qed.

Lemma reduce_std_4_1 (p q : R) :
  reduce_std [p; p; p; p; q] = 2 * Rabs (p - q) / 5.
Proof.
  unfold reduce_std. rewrite reduce_mean_4_1. unfold tf_square.
  cbn [map]. unfold reduce_mean, reduce_sum. cbn [fold_right length INR].
  replace (((p - (4 * p + q) / 5) * (p - (4 * p + q) / 5)
            + ((p - (4 * p + q) / 5) * (p - (4 * p + q) / 5)
               + ((p - (4 * p + q) / 5) * (p - (4 * p + q) / 5)
                  + ((p - (4 * p + q) / 5) * (p - (4 * p + q) / 5)
                     + ((q - (4 * p + q) / 5) * (q - (4 * p + q) / 5) + 0)))))
           / (1 + 1 + 1 + 1 + 1))
    with (Rsqr (2 * (p - q) / 5)) by (unfold Rsqr; field).
  rewrite sqrt_Rsqr_abs. unfold Rdiv. rewrite !Rabs_mult.
  rewrite (Rabs_pos_eq 2) by lra. rewrite (Rabs_pos_eq (/ 5)) by lra.
  reflexivity.
Qed.

(** The dispersion of [[-a/2; -a/2; -a/2; -a/2; -b/2]] for [a >= b >= 0]. *)
Lemma dispersion_decay_4_1 (a b : R) :
  0 <= b <= a ->
  dispersion [(0 * 0 - a) * (1 - 0.5); (0 * 0 - a) * (1 - 0.5);
              (0 * 0 - a) * (1 - 0.5); (0 * 0 - a) * (1 - 0.5);
              (0 * 0 - b) * (1 - 0.5)]
  = (2 * a + 3 * b) / 10.
Proof.
  intros [Hb Hab]. unfold dispersion.
  rewrite reduce_mean_4_1, reduce_std_4_1.
  replace ((4 * ((0 * 0 - a) * (1 - 0.5)) + (0 * 0 - b) * (1 - 0.5)) / 5)
    with (- ((4 * a + b) / 10)) by lra.
  replace ((0 * 0 - a) * (1 - 0.5) - (0 * 0 - b) * (1 - 0.5))
    with (- ((a - b) / 2)) by lra.
  rewrite !Rabs_Ropp.
  rewrite (Rabs_pos_eq ((4 * a + b) / 10)) by lra.
  rewrite (Rabs_pos_eq ((a - b) / 2)) by lra.
  rewrite Rabs_pos_eq; lra.
Qed.

Lemma momentum_dense_plain (self : Optimizer) (k : nat) (g m v p : Tensor) :
  amsgrad self = false ->
  nth_error (_momentums self) k = Some m ->
  nth_error (_velocities self) k = Some v ->
  length m = length p -> length v = length p -> length g = length p ->
  exists self' p' m',
    AdAlpha_Momentum.update_step (Dense g) p k self = Ok (self', p') /\
    _momentums self' = set_nth k m' (_momentums self) /\
    length m' = length p /\ length p' = length p /\
    _velocities self' =
      set_nth k
        (map2 Rplus v
           (AdAlpha_Momentum._m_activ
              (scale (map2 Rminus (tf_square g) v) (1 - beta_2 self))))
        (_velocities self).
Proof.
  intros Ha Hm Hv Lm Lv Lg.
  rewrite (momentum_dense_step self k g m v p Hm Hv Lm Lv Lg).
  set (m' := map2 Rplus m _). set (v' := map2 Rplus v _).
  assert (Lm' : length m' = length p).
  { unfold m'. rewrite map2_length; [exact Lm|].
    rewrite m_activ_length, scale_length, map2_length; congruence. }
  assert (Lv' : length v' = length p).
  { unfold v'. rewrite map2_length; [exact Lv|].
    rewrite m_activ_length, scale_length, map2_length;
      rewrite ?tf_square_length; congruence. }
  rewrite (apply_update_plain self k m' v' p _ Ha Lm' Lv').
  eexists _, _, m'. split; [reflexivity|]. split; [reflexivity|].
  split; [exact Lm'|]. split; [|reflexivity].
  rewrite map2_length; [reflexivity|]. rewrite map2_length; congruence.
Qed.

(** The threshold on [beta_2] is not an artefact of tiny values: with
    [beta_2 = 1/2], a parameter of five elements, the gradient
    [[1; 1; 1; 1; 0.1]] followed by the all-zero gradient makes the last
    element of [v] negative. *)
Remark momentum_half_beta_2_negative :
  exists self variables v,
    host_run (step_of Momentum)
      [CallUpdateStep 0 (Dense [1; 1; 1; 1; 0.1]); CallIterate;
       CallUpdateStep 0 (Dense [0; 0; 0; 0; 0])]
      (Adalpha.build [[1; 1; 1; 1; 1]]
         (Adalpha.init 0.001 1 0.9 0.5 1e-7 false),
       [[1; 1; 1; 1; 1]])
    = Ok (self, variables) /\
    nth_error (_velocities self) 0 = Some v /\
    nth 4 v 0 < 0.
Proof.
  set (s0 := Adalpha.build [[1; 1; 1; 1; 1]]
               (Adalpha.init 0.001 1 0.9 0.5 1e-7 false)).
  destruct (momentum_dense_plain s0 0 [1; 1; 1; 1; 0.1] [0; 0; 0; 0; 0]
              [0; 0; 0; 0; 0] [1; 1; 1; 1; 1]
              eq_refl eq_refl eq_refl eq_refl eq_refl eq_refl)
    as (s1 & p1 & m1 & E1 & M1 & Lm1 & Lp1 & V1).
  pose proof (step_of_fields Momentum _ _ _ _ _ _ E1)
    as (_ & A1 & _ & B1 & _).
  change (beta_2 s0) with 0.5 in V1, B1. change (amsgrad s0) with false in A1.
  change (_velocities s0) with [[0; 0; 0; 0; 0]] in V1.
  change (_momentums s0) with [[0; 0; 0; 0; 0]] in M1.
  cbn [set_nth map2 tf_square scale map] in V1, M1.
  destruct (m_activ_factor
              [(1 * 1 - 0) * (1 - 0.5); (1 * 1 - 0) * (1 - 0.5);
               (1 * 1 - 0) * (1 - 0.5); (1 * 1 - 0) * (1 - 0.5);
               (0.1 * 0.1 - 0) * (1 - 0.5)]) as (F & HF & EF).
  rewrite EF in V1. cbn [map map2] in V1.
  set (a := 0 + (1 * 1 - 0) * (1 - 0.5) * F ((1 * 1 - 0) * (1 - 0.5))) in *.
  set (b := 0 + (0.1 * 0.1 - 0) * (1 - 0.5) * F ((0.1 * 0.1 - 0) * (1 - 0.5)))
    in *.
  assert (Ha : 0.5 <= a).
  { unfold a. destruct (HF ((1 * 1 - 0) * (1 - 0.5))). lra. }
  assert (Hb : 0 < b <= 0.0201).
  { unfold b. destruct (HF ((0.1 * 0.1 - 0) * (1 - 0.5))). lra. }
  destruct (momentum_dense_plain (iterate s1) 0 [0; 0; 0; 0; 0] m1
              [a; a; a; a; b] p1)
    as (s2 & p2 & m2 & E2 & _ & _ & _ & V2).
  { exact A1. }
  { cbn [iterate _momentums]. rewrite M1. reflexivity. }
  { cbn [iterate _velocities]. rewrite V1. reflexivity. }
  { rewrite Lm1, Lp1. reflexivity. }
  { rewrite Lp1. reflexivity. }
  { rewrite Lp1. reflexivity. }
  cbn [iterate _velocities beta_2] in V2. rewrite V1, B1 in V2.
  cbn [set_nth map2 tf_square scale map] in V2.
  rewrite m_activ_unfold in V2.
  rewrite (dispersion_decay_4_1 a b) in V2 by lra.
  cbn [map map2] in V2.
  eexists s2, _, _. split; [|split].
  - unfold host_run, host_call, step_of. cbn [bind getitem nth_error].
    rewrite E1. cbn [bind fst snd set_nth getitem nth_error].
    rewrite E2. reflexivity.
  - rewrite V2. reflexivity.
  - cbn [nth].
    set (x := (0 * 0 - b) * (1 - 0.5)).
    set (d := (2 * a + 3 * b) / 10).
    assert (Hx : - 0.01005 <= x < 0) by (unfold x; lra).
    assert (Hd : 0.1 <= d) by (unfold d; lra).
    assert (Hx2 : 0 <= x ^ 2 <= 0.000102) by nra.
    assert (Hd2 : 0.01 <= d ^ 2) by nra.
    assert (Hden : 0 < x ^ 2 + 0.1 * d ^ 2) by lra.
    rewrite divide_no_nan_nonzero by lra.
    assert (Hq : (x ^ 2 - (0.01 * d) ^ 2) / (x ^ 2 + 0.1 * d ^ 2) < 0.5).
    { apply Rmult_lt_reg_r with (x ^ 2 + 0.1 * d ^ 2); [exact Hden|].
      unfold Rdiv. rewrite Rmult_assoc, Rinv_l, Rmult_1_r by lra. nra. }
    set (q := (x ^ 2 - (0.01 * d) ^ 2) / (x ^ 2 + 0.1 * d ^ 2)) in *.
    assert (HF2 : 2.25 < (2 - q) ^ 2) by nra.
    assert (Hxb : x = - b / 2) by (unfold x; lra).
    nra.
Qed.

(** ** The step scale of the momentum-activated variant *)

Lemma momentum_sparse_step (self : Optimizer) (k : nat) (values : Tensor)
  (indices : list nat) (m v m' v' variable : Tensor) :
  nth_error (_momentums self) k = Some m ->
  nth_error (_velocities self) k = Some v ->
  scatter_add
    (map2 Rplus m (AdAlpha_Momentum._m_activ (scale (neg m) (1 - beta_1 self))))
    (AdAlpha_Momentum._m_activ (scale values (1 - beta_1 self))) indices
  = Ok m' ->
  scatter_add
    (map2 Rplus v (AdAlpha_Momentum._m_activ (scale (neg v) (1 - beta_2 self))))
    (AdAlpha_Momentum._m_activ (scale (tf_square values) (1 - beta_2 self)))
    indices = Ok v' ->
  AdAlpha_Momentum.update_step (IndexedSlices values indices) variable k self =
  apply_update self k m' v' (step_scale Momentum self) variable.
Proof.
  intros Hm Hv Sm Sv. unfold AdAlpha_Momentum.update_step.
  rewrite (getitem_ok _ _ _ Hm), (getitem_ok _ _ _ Hv). cbn [bind].
  unfold assign_add.
  rewrite (tf_binop_ok Rplus m)
    by (rewrite m_activ_length, scale_length, neg_length; reflexivity).
  cbn [bind]. rewrite Sm. cbn [bind].
  rewrite (tf_binop_ok Rplus v)
    by (rewrite m_activ_length, scale_length, neg_length; reflexivity).
  cbn [bind]. rewrite Sv. reflexivity.
Qed.

Lemma Forall_map2_r (P Q : R -> Prop) (f : R -> R -> R) (x y : Tensor) :
  Forall P y -> (forall a b, P b -> Q (f a b)) -> Forall Q (map2 f x y).
Proof.
  intros H HQ. revert x. induction H as [|b y Hb Hy IH]; intros [|a x];
    simpl; constructor; auto.
Qed.

(** The moments a step of the momentum-activated variant computes, on
    well-formed input, and what is left of the step. *)
Lemma momentum_step_moments (self : Optimizer) (k : nat) (gradient : Gradient)
  (m v variable : Tensor) :
  nth_error (_momentums self) k = Some m ->
  nth_error (_velocities self) k = Some v ->
  length m = length variable -> length v = length variable ->
  match gradient with
  | Dense g => length g = length variable
  | IndexedSlices values indices =>
      length values = length indices /\
      Forall (fun i => (i < length variable)%nat) indices
  end ->
  exists m' v',
    length m' = length variable /\ length v' = length variable /\
    match gradient with
    | Dense g =>
        m' = map2 Rplus m
               (AdAlpha_Momentum._m_activ
                  (scale (map2 Rminus g m) (1 - beta_1 self))) /\
        v' = map2 Rplus v
               (AdAlpha_Momentum._m_activ
                  (scale (map2 Rminus (tf_square g) v) (1 - beta_2 self)))
    | IndexedSlices values indices =>
        scatter_add
          (map2 Rplus m
             (AdAlpha_Momentum._m_activ (scale (neg m) (1 - beta_1 self))))
          (AdAlpha_Momentum._m_activ (scale values (1 - beta_1 self)))
          indices = Ok m' /\
        scatter_add
          (map2 Rplus v
             (AdAlpha_Momentum._m_activ (scale (neg v) (1 - beta_2 self))))
          (AdAlpha_Momentum._m_activ
             (scale (tf_square values) (1 - beta_2 self)))
          indices = Ok v'
    end /\
    AdAlpha_Momentum.update_step gradient variable k self =
    apply_update self k m' v' (step_scale Momentum self) variable /\
    (0 <= beta_2 self <= 1 -> (1 - beta_2 self) * 2.001 ^ 2 <= 1 ->
     Forall (fun a => 0 <= a) v -> Forall (fun a => 0 <= a) v').
Proof.
  intros Hm Hv Lm Lv Hg. destruct gradient as [g | values indices].
  - exists (map2 Rplus m
              (AdAlpha_Momentum._m_activ
                 (scale (map2 Rminus g m) (1 - beta_1 self)))),
           (map2 Rplus v
              (AdAlpha_Momentum._m_activ
                 (scale (map2 Rminus (tf_square g) v) (1 - beta_2 self)))).
    split.
    { rewrite map2_length; [exact Lm|].
      rewrite m_activ_length, scale_length, map2_length; congruence. }
    split.
    { rewrite map2_length; [exact Lv|].
      rewrite m_activ_length, scale_length, map2_length;
        rewrite ?tf_square_length; congruence. }
    split; [split; reflexivity|].
    split; [apply (momentum_dense_step self k g m v variable Hm Hv Lm Lv Hg)|].
    intros Hb Hk Hn.
    apply (momentum_velocity_nonneg self (Dense g) v _ Hb Hk Hn).
    split; [congruence | reflexivity].
  - destruct Hg as [Lg Hin]. rewrite Forall_forall in Hin.
    destruct (scatter_add_exists
                (map2 Rplus m
                   (AdAlpha_Momentum._m_activ
                      (scale (neg m) (1 - beta_1 self))))
                (AdAlpha_Momentum._m_activ (scale values (1 - beta_1 self)))
                indices) as [m' Sm].
    { rewrite m_activ_length, scale_length. exact Lg. }
    { intros i Hi. rewrite map2_length, Lm; auto.
      rewrite m_activ_length, scale_length, neg_length. reflexivity. }
    destruct (scatter_add_exists
                (map2 Rplus v
                   (AdAlpha_Momentum._m_activ
                      (scale (neg v) (1 - beta_2 self))))
                (AdAlpha_Momentum._m_activ
                   (scale (tf_square values) (1 - beta_2 self)))
                indices) as [v' Sv].
    { rewrite m_activ_length, scale_length, tf_square_length. exact Lg. }
    { intros i Hi. rewrite map2_length, Lv; auto.
      rewrite m_activ_length, scale_length, neg_length. reflexivity. }
    exists m', v'.
    pose proof (scatter_add_length _ _ _ _ Sm) as Lm'.
    pose proof (scatter_add_length _ _ _ _ Sv) as Lv'.
    rewrite map2_length in Lm', Lv'
      by (rewrite m_activ_length, scale_length, neg_length; reflexivity).
    split; [congruence|]. split; [congruence|].
    split; [split; assumption|].
    split.
    { apply (momentum_sparse_step self k values indices m v m' v' variable
               Hm Hv Sm Sv). }
    intros Hb Hk Hn.
    apply (momentum_velocity_nonneg self (IndexedSlices values indices) v v'
             Hb Hk Hn).
    exact Sv.
Qed.

(** C7: one step of the momentum-activated variant, dense or sparse, on a
    slot that holds [(m, v)] of the parameter's shape.  The step succeeds;
    the new [m] and [v] are the old ones plus the activated deltas; with
    AMS-grad on the denominator tensor is the maximum of the old [v_hat]
    and the new [v], which becomes the new [v_hat]; nothing else in the
    optimizer changes; and the parameter loses
    [(m * alpha) / (sqrt(v_or_vhat) + epsilon)] of the new moments with
    [alpha = lr * sqrt(1 - beta_2^t)/(1 - beta_1^t) * std^chaos_punishment],
    [t] the host's counter plus one: the raw control signal to the power
    [chaos_punishment], without a [(1 - std*chaos_punishment)] term.  With
    [0 <= beta_2 <= 1], [(1 - beta_2) * 2.001^2 <= 1] and a non-negative
    [v], the tensor under the square root is non-negative. *)
Theorem C7_momentum_alpha (self : Optimizer) (k : nat) (gradient : Gradient)
  (m v variable : Tensor) :
  nth_error (_momentums self) k = Some m ->
  nth_error (_velocities self) k = Some v ->
  length m = length variable -> length v = length variable ->
  (amsgrad self = true ->
   exists v_hat, nth_error (_velocity_hats self) k = Some v_hat /\
                 length v_hat = length variable) ->
  match gradient with
  | Dense g => length g = length variable
  | IndexedSlices values indices =>
      length values = length indices /\
      Forall (fun i => (i < length variable)%nat) indices
  end ->
  let t := S (iterations self) in
  let alpha :=
    learning_rate self * sqrt (1 - beta_2 self ^ t) / (1 - beta_1 self ^ t)
    * std self ^ chaos_punish self in
  exists self' variable' m' v' v_den,
    AdAlpha_Momentum.update_step gradient variable k self
    = Ok (self', variable') /\
    match gradient with
    | Dense g =>
        m' = map2 Rplus m
               (AdAlpha_Momentum._m_activ
                  (scale (map2 Rminus g m) (1 - beta_1 self))) /\
        v' = map2 Rplus v
               (AdAlpha_Momentum._m_activ
                  (scale (map2 Rminus (tf_square g) v) (1 - beta_2 self)))
    | IndexedSlices values indices =>
        scatter_add
          (map2 Rplus m
             (AdAlpha_Momentum._m_activ (scale (neg m) (1 - beta_1 self))))
          (AdAlpha_Momentum._m_activ (scale values (1 - beta_1 self)))
          indices = Ok m' /\
        scatter_add
          (map2 Rplus v
             (AdAlpha_Momentum._m_activ (scale (neg v) (1 - beta_2 self))))
          (AdAlpha_Momentum._m_activ
             (scale (tf_square values) (1 - beta_2 self)))
          indices = Ok v'
    end /\
    (amsgrad self = false ->
     v_den = v' /\ self' = store self k m' v' (_velocity_hats self)) /\
    (forall v_hat, amsgrad self = true ->
       nth_error (_velocity_hats self) k = Some v_hat ->
       v_den = map2 Rmax v_hat v' /\
       self' = store self k m' v' (set_nth k v_den (_velocity_hats self))) /\
    variable' =
      map2 Rminus variable
        (map2 (fun mi di => (mi * alpha) / (sqrt di + epsilon self)) m' v_den)
    /\
    (0 <= beta_2 self <= 1 -> (1 - beta_2 self) * 2.001 ^ 2 <= 1 ->
     Forall (fun a => 0 <= a) v -> Forall (fun a => 0 <= a) v_den).
Proof.
  intros Hm Hv Lm Lv Hams Hg t alpha.
  destruct (momentum_step_moments self k gradient m v variable Hm Hv Lm Lv Hg)
    as (m' & v' & Lm' & Lv' & Hmom & Estep & Hnn).
  assert (Ea : step_scale Momentum self = alpha)
    by (unfold alpha, t, step_scale, Rdiv; ring).
  rewrite Estep, Ea.
  destruct (amsgrad self) eqn:Ha.
  - destruct (Hams eq_refl) as [v_hat [Hh Lh]].
    rewrite (apply_update_ams self k m' v' v_hat variable alpha Ha Hh Lm' Lv' Lh).
    eexists _, _, m', v', (map2 Rmax v_hat v').
    split; [reflexivity|]. split; [exact Hmom|].
    split; [discriminate|].
    split.
    { intros v_hat0 _ Hh0. rewrite Hh in Hh0. injection Hh0 as <-.
      split; reflexivity. }
    split; [reflexivity|].
    intros Hb Hk Hn.
    apply (Forall_map2_r (fun a => 0 <= a)); [apply Hnn; assumption|].
    intros a b Hb0. eapply Rle_trans; [exact Hb0 | apply Rmax_r].
  - rewrite (apply_update_plain self k m' v' variable alpha Ha Lm' Lv').
    eexists _, _, m', v', v'.
    split; [reflexivity|]. split; [exact Hmom|].
    split; [intros _; split; reflexivity|].
    split; [discriminate|].
    split; [reflexivity|].
    intros Hb Hk Hn. apply Hnn; assumption.
Qed.

(** The theorem at the default optimizer built on one parameter [[1]], for
    the gradient [[0.1]]. *)
Lemma C7_momentum_alpha_witness :
  exists self' variable' m' v',
    AdAlpha_Momentum.update_step (Dense [0.1]) [1] 0
      (Adalpha.build [[1]] Adalpha.default) = Ok (self', variable') /\
    m' = map2 Rplus [0]
           (AdAlpha_Momentum._m_activ
              (scale (map2 Rminus [0.1] [0]) (1 - 0.9))) /\
    variable' =
      map2 Rminus [1]
        (map2 (fun mi di =>
                 (mi * (0.001 * sqrt (1 - 0.999 ^ 1) / (1 - 0.9 ^ 1) * 1 ^ 1))
                 / (sqrt di + 1e-7)) m' v').
Proof.
  destruct (C7_momentum_alpha (Adalpha.build [[1]] Adalpha.default) 0
              (Dense [0.1]) [0] [0] [1] eq_refl eq_refl eq_refl eq_refl)
    as (self' & variable' & m' & v' & v_den & H1 & [H2 _] & H4 & _ & H6 & _).
  - simpl. intros H. discriminate H.
  - reflexivity.
  - exists self', variable', m', v'.
    destruct (H4 eq_refl) as [E _]. rewrite E in H6.
    split; [exact H1|]. split; [exact H2 | exact H6].
Defined.

(** ** The signal under OneCallback *)

(** A host call other than [update_loss] leaves the control signal as it
    is, whichever variant steps. *)
Lemma host_call_std (variant : Variant) (c : HostCall) (w w' : World) :
  writes_signal c = false ->
  host_call (step_of variant) c w = Ok w' -> std (fst w') = std (fst w).
Proof.
  destruct w as [self variables], w' as [self' variables']. intros Hc H.
  apply host_call_Ok in H. destruct c as [k gradient | new_std |].
  - destruct H as (variable & variable' & _ & H & _).
    apply step_of_fields in H. simpl. tauto.
  - discriminate Hc.
  - destruct H as [-> _]. reflexivity.
Qed.

Lemma host_run_std (variant : Variant) (calls : list HostCall) (w w' : World) :
  Forall (fun c => writes_signal c = false) calls ->
  host_run (step_of variant) calls w = Ok w' -> std (fst w') = std (fst w).
Proof.
  intros Hc. revert w. induction Hc as [|c calls Hc0 Hc IH]; intros w H;
    simpl in H.
  - inversion H; reflexivity.
  - bind_inv H. rewrite (IH _ H). eapply host_call_std; eauto.
Qed.

Lemma signals_read_constant (variant : Variant) (calls : list HostCall)
  (w : World) :
  Forall (fun c => writes_signal c = false) calls ->
  Forall (fun s => s = std (fst w)) (signals_read (step_of variant) calls w).
Proof.
  intros Hc. revert w. induction Hc as [|c calls Hc0 Hc IH]; intros w;
    cbn [signals_read]; [constructor|].
  apply Forall_app. split.
  - destruct (is_update_step c); repeat constructor.
  - destruct (host_call (step_of variant) c w) as [w'|e] eqn:E; [|constructor].
    rewrite <- (host_call_std variant c w w' Hc0 E). apply IH.
Qed.

Lemma signals_read_length (step : StepFn) (calls : list HostCall)
  (w w' : World) :
  host_run step calls w = Ok w' ->
  length (signals_read step calls w) = length (filter is_update_step calls).
Proof.
  revert w. induction calls as [|c calls IH]; intros w H; simpl in H;
    [reflexivity|].
  bind_inv H. cbn [signals_read filter]. rewrite E, length_app, (IH _ H).
  destruct (is_update_step c); reflexivity.
Qed.

(** Once the optimizer holds the signal 0, it holds it at every step of
    every batch that follows. *)
Lemma one_callback_signals_zero (variant : Variant)
  (batches : list (list HostCall * R)) :
  Forall (fun b => Forall (fun c => writes_signal c = false) (fst b)) batches ->
  forall (cb : OneCallback.t) (w : World),
    std (fst w) = 0 ->
    Forall (fun s => s = 0) (one_callback_signals (step_of variant) batches cb w).
Proof.
  intros Hb. induction Hb as [|[calls l] batches Hc Hb IH]; intros cb w Hw;
    cbn [one_callback_signals]; [constructor|].
  cbn [fst] in Hc. apply Forall_app. split.
  - rewrite <- Hw. apply signals_read_constant, Hc.
  - destruct (host_run (step_of variant) calls w) as [w1|e]; [|constructor].
    apply IH. reflexivity.
Qed.

(** A run that succeeds entered every step of every batch, and its last
    batch end left the signal at 0. *)
Lemma one_callback_fit_length (step : StepFn)
  (batches : list (list HostCall * R)) :
  forall (cb cb' : OneCallback.t) (w w' : World),
    one_callback_fit step batches cb w = Ok (cb', w') ->
    length (one_callback_signals step batches cb w)
    = length (filter is_update_step (concat (map fst batches))).
Proof.
  induction batches as [|[calls l] rest IH]; intros cb cb' w w' H;
    [reflexivity|].
  cbn [one_callback_fit] in H. bind_inv H.
  cbn [one_callback_signals map fst concat].
  rewrite E, filter_app, !length_app.
  rewrite (signals_read_length step calls w r E), (IH _ _ _ _ H).
  reflexivity.
Qed.

Lemma one_callback_fit_std (step : StepFn)
  (batches : list (list HostCall * R)) :
  forall (cb cb' : OneCallback.t) (w w' : World),
    one_callback_fit step batches cb w = Ok (cb', w') ->
    batches <> [] -> std (fst w') = 0.
Proof.
  induction batches as [|[calls l] rest IH]; intros cb cb' w w' H Hne;
    [contradiction|].
  cbn [one_callback_fit] in H. bind_inv H.
  destruct rest as [|b rest'].
  - cbn [one_callback_fit] in H. inversion H; subst. reflexivity.
  - eapply IH; [exact H | discriminate].
Qed.

(** C10, as amended: whatever the loss and the state of the callback, the
    batch-end hook of [OneCallback] returns the optimizer as it was except
    for the control signal, which becomes the constant 0; the recorded
    losses (the last [hold] of them for a positive [hold], all of them for
    [hold = 0]) do not enter.  So after any non-empty sequence of batch ends
    the optimizer is the original one with [std = 0].  In a training run the
    hook comes at the end of the batch: while the steps of the first batch
    are entered the optimizer still holds the signal it had before
    training, and it holds 0 when the steps of the later batches are
    entered and when the run is over. *)
Theorem C10_one_callback_constant_signal (logs_loss : R)
  (self : OneCallback.t) (optimizer : Optimizer) :
  let r := OneCallback.on_train_batch_end logs_loss self optimizer in
  snd r = Adalpha.update_loss 0 optimizer /\
  std (snd r) = 0 /\
  OneCallback.hold (fst r) = OneCallback.hold self /\
  ((0 < OneCallback.hold self)%Z ->
   OneCallback.losses (fst r) =
   skipn (length (OneCallback.losses self ++ [logs_loss])
          - Z.to_nat (OneCallback.hold self))
         (OneCallback.losses self ++ [logs_loss])) /\
  (OneCallback.hold self = 0%Z ->
   OneCallback.losses (fst r) = OneCallback.losses self ++ [logs_loss]) /\
  (forall rest,
     snd (OneCallback.batches (logs_loss :: rest) self optimizer)
     = Adalpha.update_loss 0 optimizer) /\
  (forall variant calls rest variables,
     Forall (fun c => writes_signal c = false) calls ->
     Forall (fun b => Forall (fun c => writes_signal c = false) (fst b)) rest ->
     exists later,
       one_callback_signals (step_of variant) ((calls, logs_loss) :: rest)
         self (optimizer, variables)
       = signals_read (step_of variant) calls (optimizer, variables) ++ later /\
       Forall (fun s => s = std optimizer)
         (signals_read (step_of variant) calls (optimizer, variables)) /\
       Forall (fun s => s = 0) later /\
       (forall w1,
          host_run (step_of variant) calls (optimizer, variables) = Ok w1 ->
          length (signals_read (step_of variant) calls (optimizer, variables))
          = length (filter is_update_step calls)) /\
       (forall cb' w',
          one_callback_fit (step_of variant) ((calls, logs_loss) :: rest)
            self (optimizer, variables) = Ok (cb', w') ->
          std (fst w') = 0 /\
          length (signals_read (step_of variant) calls (optimizer, variables)
                  ++ later)
          = length (filter is_update_step (calls ++ concat (map fst rest))))).
Proof.
  intros r. unfold r, OneCallback.on_train_batch_end,
    OneCallback._calculate_loss_std.
  cbn [fst snd OneCallback.hold OneCallback.losses].
  split; [reflexivity|]. split; [reflexivity|]. split; [reflexivity|].
  split.
  { intros Hh. unfold slice_from. f_equal.
    set (n := length (OneCallback.losses self ++ [logs_loss])).
    destruct (Z.ltb_spec (- OneCallback.hold self) 0); lia. }
  split.
  { intros Hh. rewrite Hh. unfold slice_from. cbn [Z.opp Z.ltb Z.compare].
    rewrite Z.min_l by lia. reflexivity. }
  split.
  { intros rest. apply one_callback_batches_optimizer. discriminate. }
  intros variant calls rest variables Hc Hrest.
  cbn [one_callback_signals].
  eexists. split; [reflexivity|].
  split; [apply (signals_read_constant variant calls (optimizer, variables) Hc)|].
  split.
  { destruct (host_run (step_of variant) calls (optimizer, variables))
      as [w1|e]; [|constructor].
    apply one_callback_signals_zero; [exact Hrest | reflexivity]. }
  split.
  { intros w1 H1. eapply signals_read_length; eauto. }
  intros cb' w' Hfit. split.
  - eapply one_callback_fit_std; [exact Hfit | discriminate].
  - apply (one_callback_fit_length (step_of variant)
             ((calls, logs_loss) :: rest) self cb' (optimizer, variables) w'
             Hfit).
Qed.

(** The theorem for the default optimizer built on the parameter [[1]] and
    two batches of one step each. *)
Lemma C10_one_callback_constant_signal_witness :
  exists later,
    one_callback_signals (step_of Momentum)
      [([CallUpdateStep 0 (Dense [0.1]); CallIterate], 5);
       ([CallUpdateStep 0 (Dense [0.2]); CallIterate], 4)]
      (OneCallback.init 3) (Adalpha.build [[1]] Adalpha.default, [[1]])
    = signals_read (step_of Momentum)
        [CallUpdateStep 0 (Dense [0.1]); CallIterate]
        (Adalpha.build [[1]] Adalpha.default, [[1]]) ++ later /\
    Forall (fun s => s = 1)
      (signals_read (step_of Momentum)
         [CallUpdateStep 0 (Dense [0.1]); CallIterate]
         (Adalpha.build [[1]] Adalpha.default, [[1]])) /\
    Forall (fun s => s = 0) later.
Proof.
  destruct (proj2 (proj2 (proj2 (proj2 (proj2 (proj2
              (C10_one_callback_constant_signal 5 (OneCallback.init 3)
                 (Adalpha.build [[1]] Adalpha.default)))))))
              Momentum [CallUpdateStep 0 (Dense [0.1]); CallIterate]
              [([CallUpdateStep 0 (Dense [0.2]); CallIterate], 4)] [[1]])
    as (later & H1 & H2 & H3 & _).
  - repeat constructor.
  - repeat constructor.
  - exists later. split; [exact H1|]. split; [exact H2 | exact H3].
Defined.

(** C10, as the specification states it, fails on the first batch: an
    optimizer with the constructor's defaults, driven by [OneCallback] over
    two batches of one step each, holds [std = 1] when the step of the
    first batch is entered and 0 only at the step of the second one.  The
    first step leaves the parameter at 1, as [std = 1] makes it, where a
    step with [std = 0] would have lowered it. *)
Lemma C10_counterexample :
  one_callback_signals (step_of Base)
    [([CallUpdateStep 0 (Dense [0.1]); CallIterate], 5);
     ([CallUpdateStep 0 (Dense [0.1]); CallIterate], 5)]
    (OneCallback.init 3) (Adalpha.build [[1]] Adalpha.default, [[1]])
  = [1; 0] /\
  ~ Forall (fun s => s = 0) [1; 0] /\
  (exists s1,
     host_run (step_of Base) [CallUpdateStep 0 (Dense [0.1]); CallIterate]
       (Adalpha.build [[1]] Adalpha.default, [[1]]) = Ok (s1, [[1]])) /\
  (exists s0 p0,
     host_run (step_of Base) [CallUpdateStep 0 (Dense [0.1]); CallIterate]
       (Adalpha.update_loss 0 (Adalpha.build [[1]] Adalpha.default), [[1]])
     = Ok (s0, [[p0]]) /\ p0 < 1).
Proof.
  split; [reflexivity|].
  split. { intros H. inversion H as [|a l H1 _]; subst. lra. }
  split.
  { destruct (default_signal_host_step (Adalpha.build [[1]] Adalpha.default)
                [[1]] 0 [0] [0] [1] [0.1] eq_refl eq_refl eq_refl)
      as (s1 & E1 & _); [| reflexivity |].
    - unfold slot_ready. simpl. repeat split; try reflexivity.
      intros H. discriminate H.
    - exists s1. exact E1. }
  set (s := Adalpha.update_loss 0 (Adalpha.build [[1]] Adalpha.default)).
  unfold host_run, host_call, step_of. cbn [bind getitem nth_error].
  rewrite (base_dense_step s 0 [0.1] [0] [0] [1] eq_refl eq_refl eq_refl
             eq_refl eq_refl).
  rewrite apply_update_plain by reflexivity.
  cbn [bind fst snd set_nth map2].
  eexists _, _. split; [reflexivity|].
  change (beta_1 s) with 0.9. change (beta_2 s) with 0.999.
  change (learning_rate s) with 0.001. change (epsilon s) with 1e-7.
  change (std s) with 0. change (chaos_punish s) with 1%nat.
  change (iterations s) with 0%nat.
  assert (S1 : 0 < sqrt (1 - 0.999 ^ 1)) by (apply sqrt_lt_R0; lra).
  pose proof (sqrt_pos (0 + (0.1 * 0.1 - 0) * (1 - 0.999))) as S2.
  assert (A : 0 < 0.001 * (sqrt (1 - 0.999 ^ 1) / (1 - 0.9 ^ 1))
                  * (1 - 0 * INR 1) ^ 1).
  { apply Rmult_lt_0_compat; [|simpl; lra].
    apply Rmult_lt_0_compat; [lra|].
    apply Rdiv_lt_0_compat; [exact S1 | lra]. }
  assert (Q : 0 < (0 + (0.1 - 0) * (1 - 0.9))
                  * (0.001 * (sqrt (1 - 0.999 ^ 1) / (1 - 0.9 ^ 1))
                     * (1 - 0 * INR 1) ^ 1)
                  / (sqrt (0 + (0.1 * 0.1 - 0) * (1 - 0.999)) + 1e-7)).
  { apply Rdiv_lt_0_compat; [|lra].
    apply Rmult_lt_0_compat; [lra | exact A]. }
  lra.
Qed.

(** * Further properties of the source *)

(** ** What a successful step is, for both variants and both paths *)

Lemma step_Ok_store (variant : Variant) (self self' : Optimizer) (k : nat)
  (gradient : Gradient) (p p' : Tensor) :
  step_of variant gradient p k self = Ok (self', p') ->
  exists m v m' v' v_den,
    nth_error (_momentums self) k = Some m /\
    nth_error (_velocities self) k = Some v /\
    length m' = length m /\ length v' = length v /\
    self' = store self k m' v' (_velocity_hats self') /\
    (amsgrad self = false ->
     v_den = v' /\ _velocity_hats self' = _velocity_hats self) /\
    (amsgrad self = true ->
     exists v_hat, nth_error (_velocity_hats self) k = Some v_hat /\
                   length v_hat = length v' /\ v_den = map2 Rmax v_hat v' /\
                   _velocity_hats self' = set_nth k v_den (_velocity_hats self)) /\
    length v_den = length v' /\ length m' = length v' /\
    length p = length v' /\
    p' = map2 Rminus p
           (map2 (fun mi di =>
                    mi * step_scale variant self / (sqrt di + epsilon self))
                 m' v_den).
Proof.
  intros H.
  assert (Hx : exists m v m' v',
             nth_error (_momentums self) k = Some m /\
             nth_error (_velocities self) k = Some v /\
             length m' = length m /\ length v' = length v /\
             apply_update self k m' v' (step_scale variant self) p
             = Ok (self', p')).
  { destruct variant; simpl in H.
    - apply base_step_Ok in H.
      destruct H as (m & v & m' & v' & Hm & Hv & Lm & Lv & _ & H).
      exists m, v, m', v'. auto.
    - apply momentum_step_Ok in H.
      destruct H as (m & v & m' & v' & Hm & Hv & Lm & Lv & _ & H).
      exists m, v, m', v'. auto. }
  destruct Hx as (m & v & m' & v' & Hm & Hv & Lm & Lv & Hap).
  apply apply_update_Ok in Hap.
  destruct Hap as (v_den & Hs & Hf & Ht & L1 & L2 & L3 & Hp).
  exists m, v, m', v', v_den. repeat split; auto.
  - apply Hf; assumption.
  - apply Hf; assumption.
Qed.

Lemma map_length_set_nth (k : nat) (x : Tensor) (l : list Tensor) (y : Tensor) :
  nth_error l k = Some y -> length x = length y ->
  map (@length R) (set_nth k x l) = map (@length R) l.
Proof.
  revert k; induction l as [|z l IH]; intros [|k] H L; simpl in *;
    try discriminate.
  - inversion H; subst. rewrite L. reflexivity.
  - rewrite (IH k H L). reflexivity.
Qed.

Lemma Forall2_le_trans (x y z : Tensor) :
  Forall2 Rle x y -> Forall2 Rle y z -> Forall2 Rle x z.
Proof.
  intros H. revert z. induction H as [|a b x y Hab Hxy IH]; intros z Hz;
    inversion Hz; subst; constructor.
  - eapply Rle_trans; eauto.
  - apply IH. assumption.
Qed.

Lemma Forall2_le_max_l (v_hat v : Tensor) :
  length v_hat = length v -> Forall2 Rle v_hat (map2 Rmax v_hat v).
Proof.
  revert v; induction v_hat as [|a v_hat IH]; intros [|b v] L; simpl in *;
    try discriminate; constructor.
  - apply Rmax_l.
  - apply IH. lia.
Qed.

Lemma step_shapes (variant : Variant) (self self' : Optimizer) (k : nat)
  (gradient : Gradient) (p p' : Tensor) :
  step_of variant gradient p k self = Ok (self', p') ->
  map (@length R) (_momentums self') = map (@length R) (_momentums self) /\
  map (@length R) (_velocities self') = map (@length R) (_velocities self) /\
  map (@length R) (_velocity_hats self')
  = map (@length R) (_velocity_hats self) /\
  length p' = length p.
Proof.
  intros H. apply step_Ok_store in H.
  destruct H as (m & v & m' & v' & v_den & Hm & Hv & Lm & Lv & Hs & Hf & Ht
                 & L1 & L2 & L3 & Hp).
  split. { rewrite Hs. simpl. apply (map_length_set_nth k m' _ m Hm Lm). }
  split. { rewrite Hs. simpl. apply (map_length_set_nth k v' _ v Hv Lv). }
  split.
  { destruct (amsgrad self) eqn:Ha.
    - destruct (Ht eq_refl) as (v_hat & Hh & Lh & Ed & Eh). rewrite Eh.
      apply (map_length_set_nth k v_den _ v_hat Hh). congruence.
    - destruct (Hf eq_refl) as [_ Eh]. rewrite Eh. reflexivity. }
  rewrite Hp. rewrite map2_length; [reflexivity|].
  rewrite map2_length; congruence.
Qed.

(** X1: a successful [update_step] of either variant, on either path,
    writes the moments of the variable's own slot only: the moments and the
    [v_hat] of every other slot, the number of slots, every tensor's length,
    the hyperparameters, the control signal, the step counter and the built
    flag are as before. *)
Theorem step_frame (variant : Variant) (self self' : Optimizer) (k : nat)
  (gradient : Gradient) (p p' : Tensor) :
  step_of variant gradient p k self = Ok (self', p') ->
  (forall j, j <> k ->
     nth_error (_momentums self') j = nth_error (_momentums self) j /\
     nth_error (_velocities self') j = nth_error (_velocities self) j /\
     nth_error (_velocity_hats self') j = nth_error (_velocity_hats self) j) /\
  map (@length R) (_momentums self') = map (@length R) (_momentums self) /\
  map (@length R) (_velocities self') = map (@length R) (_velocities self) /\
  map (@length R) (_velocity_hats self')
  = map (@length R) (_velocity_hats self) /\
  length p' = length p /\
  hyperparameters self' = hyperparameters self /\
  iterations self' = iterations self /\ _built self' = _built self.
Proof.
  intros H. pose proof (step_of_fields _ _ _ _ _ _ _ H)
    as (F1 & F2 & F3 & F4 & F5 & F6 & F7 & F8 & F9).
  apply step_Ok_store in H.
  destruct H as (m & v & m' & v' & v_den & Hm & Hv & Lm & Lv & Hs & Hf & Ht
                 & L1 & L2 & L3 & Hp).
  assert (Hh : (forall j, j <> k ->
                  nth_error (_velocity_hats self') j
                  = nth_error (_velocity_hats self) j) /\
               map (@length R) (_velocity_hats self')
               = map (@length R) (_velocity_hats self)).
  { destruct (amsgrad self) eqn:Ha.
    - destruct (Ht eq_refl) as (v_hat & Hh & Lh & Ed & Eh). rewrite Eh. split.
      + intros j Hj. apply nth_error_set_nth_neq. auto.
      + apply (map_length_set_nth k v_den _ v_hat Hh). congruence.
    - destruct (Hf eq_refl) as [_ Eh]. rewrite Eh. auto. }
  destruct Hh as [Hh1 Hh2].
  split.
  { intros j Hj. rewrite Hs. simpl.
    rewrite !nth_error_set_nth_neq by auto. auto. }
  split. { rewrite Hs. simpl. apply (map_length_set_nth k m' _ m Hm Lm). }
  split. { rewrite Hs. simpl. apply (map_length_set_nth k v' _ v Hv Lv). }
  split; [exact Hh2|].
  split.
  { rewrite Hp. rewrite map2_length; [reflexivity|].
    rewrite map2_length; congruence. }
  unfold hyperparameters. repeat split; congruence.
Qed.

(** X2: with AMS-grad on, a successful step never lowers [v_hat]: the new
    [v_hat] of the slot is elementwise at least the old one and at least the
    new [v]; with AMS-grad off, [_velocity_hats] is not touched. *)
Theorem step_v_hat_monotone (variant : Variant) (self self' : Optimizer)
  (k : nat) (gradient : Gradient) (p p' : Tensor) :
  step_of variant gradient p k self = Ok (self', p') ->
  (amsgrad self = true ->
   exists v_hat v_hat' v',
     nth_error (_velocity_hats self) k = Some v_hat /\
     nth_error (_velocity_hats self') k = Some v_hat' /\
     nth_error (_velocities self') k = Some v' /\
     v_hat' = map2 Rmax v_hat v' /\
     Forall2 Rle v_hat v_hat' /\ Forall2 Rle v' v_hat') /\
  (amsgrad self = false -> _velocity_hats self' = _velocity_hats self).
Proof.
  intros H. apply step_Ok_store in H.
  destruct H as (m & v & m' & v' & v_den & Hm & Hv & Lm & Lv & Hs & Hf & Ht
                 & _).
  split.
  - intros Ha. destruct (Ht Ha) as (v_hat & Hh & Lh & -> & Eh).
    exists v_hat, (map2 Rmax v_hat v'), v'.
    split; [exact Hh|].
    split. { rewrite Eh. apply nth_error_set_nth_eq. eapply nth_error_lt; eauto. }
    split. { rewrite Hs. apply store_velocities. eapply nth_error_lt; eauto. }
    split; [reflexivity|].
    split; [apply Forall2_le_max_l, Lh | apply Forall2_le_max, Lh].
  - intros Ha. apply Hf, Ha.
Qed.

(** The powers of the bias correction for hyperparameters in range. *)
Lemma bias_correction_real (b1 b2 : R) (t : nat) :
  0 <= b1 < 1 -> 0 <= b2 <= 1 ->
  0 <= 1 - b2 ^ S t /\ 1 - b1 ^ S t <> 0.
Proof.
  intros [H1 H1'] [H2 H2'].
  assert (P2 : b2 ^ S t <= 1).
  { rewrite <- (pow1 (S t)). apply pow_incr. lra. }
  assert (Pt : 0 <= b1 ^ t <= 1).
  { split; [apply pow_le; exact H1|].
    rewrite <- (pow1 t). apply pow_incr. lra. }
  change (b1 ^ S t) with (b1 * b1 ^ t). split; [lra | nra].
Qed.

(** With [0 <= beta_1 < 1], [0 <= beta_2 <= 1] (and
    [(1 - beta_2) * 2.001^2 <= 1] in the momentum-activated variant),
    [epsilon > 0] and non-negative second moments, every successful step
    is a [real_step]: these are the conditions under which the second
    moments stay non-negative from [build] on. *)
Lemma real_step_intro (variant : Variant) (self self' : Optimizer) (k : nat)
  (gradient : Gradient) (p p' : Tensor) :
  0 <= beta_1 self < 1 -> 0 <= beta_2 self <= 1 ->
  (variant = Momentum -> (1 - beta_2 self) * 2.001 ^ 2 <= 1) ->
  0 < epsilon self -> velocities_nonneg self ->
  step_of variant gradient p k self = Ok (self', p') ->
  real_step self self' k.
Proof.
  intros Hb1 Hb2 Hk He Hinv H.
  destruct (bias_correction_real (beta_1 self) (beta_2 self) (iterations self)
              Hb1 Hb2) as [B2 B1].
  split; [exact B2|]. split; [exact B1|].
  pose proof (step_velocities_nonneg variant self self' k gradient p p'
                Hb2 Hk Hinv H) as Hinv'.
  pose proof (step_of_fields _ _ _ _ _ _ _ H) as (_ & Fa & _).
  apply step_Ok_store in H.
  destruct H as (m & v & m' & v' & v_den & Hm & Hv & Lm & Lv & Hs & Hf & Ht
                 & _).
  assert (Hv' : nth_error (_velocities self') k = Some v').
  { rewrite Hs. apply store_velocities. eapply nth_error_lt; eauto. }
  pose proof (Hinv' k v' Hv') as Nv'.
  assert (Hroot : forall a, 0 <= a -> 0 <= a /\ sqrt a + epsilon self <> 0).
  { intros a Ha. split; [exact Ha|]. pose proof (sqrt_pos a). lra. }
  unfold root_argument. rewrite Fa. destruct (amsgrad self) eqn:Ha.
  - destruct (Ht eq_refl) as (v_hat & Hh & Lh & Ed & Eh).
    exists v_den. split.
    + rewrite Eh. apply nth_error_set_nth_eq. eapply nth_error_lt; eauto.
    + rewrite Ed. apply (Forall_map2_r (fun a => 0 <= a)); [exact Nv'|].
      intros a b Hb. apply Hroot. eapply Rle_trans; [exact Hb | apply Rmax_r].
  - exists v'. split; [exact Hv'|].
    eapply Forall_impl; [|exact Nv']. exact Hroot.
Qed.

(** X3: the size of a step that stays inside the real numbers.  With
    [epsilon > 0], a successful [real_step] of either variant moves every
    element of the parameter by at most [|m| * |alpha| / epsilon], where
    [m] is the new first moment of that element and [alpha] the variant's
    step scale; in particular a zero step scale leaves the parameter as it
    is. *)
Theorem step_size_bound (variant : Variant) (self self' : Optimizer)
  (k : nat) (gradient : Gradient) (p p' : Tensor) :
  step_of variant gradient p k self = Ok (self', p') ->
  real_step self self' k ->
  0 < epsilon self ->
  exists m',
    nth_error (_momentums self') k = Some m' /\
    (forall i, Rabs (nth i p' 0 - nth i p 0)
               <= Rabs (nth i m' 0) * Rabs (step_scale variant self)
                  / epsilon self) /\
    (step_scale variant self = 0 -> p' = p).
Proof.
  intros H _ He. apply step_Ok_store in H.
  destruct H as (m & v & m' & v' & v_den & Hm & Hv & Lm & Lv & Hs & Hf & Ht
                 & L1 & L2 & L3 & Hp).
  exists m'. split.
  { rewrite Hs. apply store_momentums. eapply nth_error_lt; eauto. }
  split.
  - intros i. eapply step_delta_bound; [exact He | | | exact Hp]; congruence.
  - intros Hz. rewrite Hp, Hz.
    assert (Lm' : length m' = length p) by congruence.
    assert (Ld : length v_den = length p) by congruence.
    clear - Lm' Ld. revert m' v_den Lm' Ld.
    induction p as [|a p IH]; intros [|b m'] [|c v_den] Lm' Ld;
      simpl in *; try discriminate; [reflexivity|].
    f_equal; [unfold Rdiv; ring | apply IH; lia].
Qed.

Lemma step_zero_scale (variant : Variant) (self self' : Optimizer)
  (k : nat) (gradient : Gradient) (p p' : Tensor) :
  step_of variant gradient p k self = Ok (self', p') ->
  step_scale variant self = 0 -> p' = p.
Proof.
  intros H Hz. apply step_Ok_store in H.
  destruct H as (m & v & m' & v' & v_den & _ & _ & _ & _ & _ & _ & _
                 & L1 & L2 & L3 & Hp).
  rewrite Hp, Hz.
  assert (Lm' : length m' = length p) by congruence.
  assert (Ld : length v_den = length p) by congruence.
  clear - Lm' Ld. revert m' v_den Lm' Ld.
  induction p as [|a p IH]; intros [|b m'] [|c v_den] Lm' Ld;
    simpl in *; try discriminate; [reflexivity|].
  f_equal; [unfold Rdiv; ring | apply IH; lia].
Qed.

(** X4: a step that cannot move.  With [chaos_punish > 0], the base variant
    has a zero step scale whenever [std * chaos_punish = 1] (the
    constructor's defaults, 1.0 and 1, are such a pair) and the
    momentum-activated variant whenever [std = 0]; every successful
    [real_step], dense or sparse, then returns the parameter unchanged,
    whatever the gradient and the moments. *)
Theorem zero_step_scale_freezes (variant : Variant) (self self' : Optimizer)
  (k : nat) (gradient : Gradient) (p p' : Tensor) :
  (0 < chaos_punish self)%nat ->
  match variant with
  | Base => std self * INR (chaos_punish self) = 1
  | Momentum => std self = 0
  end ->
  step_of variant gradient p k self = Ok (self', p') ->
  real_step self self' k ->
  step_scale variant self = 0 /\ p' = p.
Proof.
  intros Hc Hs H _.
  assert (Hz : step_scale variant self = 0).
  { destruct variant; simpl.
    - rewrite Hs, Rminus_diag, (pow_i _ Hc). ring.
    - rewrite Hs, (pow_i _ Hc). ring. }
  split; [exact Hz|]. eapply step_zero_scale; eauto.
Qed.

(** ** Steps on well-formed input never raise *)

Lemma step_progress (variant : Variant) (self : Optimizer) (k : nat)
  (gradient : Gradient) (m v p : Tensor) :
  nth_error (_momentums self) k = Some m ->
  nth_error (_velocities self) k = Some v ->
  length m = length p -> length v = length p ->
  (amsgrad self = true ->
   exists v_hat, nth_error (_velocity_hats self) k = Some v_hat /\
                 length v_hat = length p) ->
  match gradient with
  | Dense g => length g = length p
  | IndexedSlices values indices =>
      length values = length indices /\
      Forall (fun i => (i < length p)%nat) indices
  end ->
  exists self' p', step_of variant gradient p k self = Ok (self', p').
Proof.
  intros Hm Hv Lm Lv Hams Hg.
  pose proof (nth_error_lt _ _ _ Hm) as Km.
  pose proof (nth_error_lt _ _ _ Hv) as Kv.
  destruct variant, gradient as [g | values indices]; simpl.
  - destruct (base_dense_result self k g m v p Hm Hv Lm Lv Hg Hams)
      as (s & q & E & _). eauto.
  - destruct Hg as [Lg Hin]. rewrite Forall_forall in Hin.
    destruct (scatter_add_exists
                (map (fun a => a + - a * (1 - beta_1 self)) m)
                (scale values (1 - beta_1 self)) indices) as [m' Sm].
    { rewrite scale_length. exact Lg. }
    { intros i Hi. rewrite length_map, Lm. auto. }
    destruct (scatter_add_exists
                (map (fun a => a + - a * (1 - beta_2 self)) v)
                (scale (tf_square values) (1 - beta_2 self)) indices)
      as [v' Sv].
    { rewrite scale_length, tf_square_length. exact Lg. }
    { intros i Hi. rewrite length_map, Lv. auto. }
    rewrite (base_sparse_step self k values indices m v m' v' p Hm Hv Sm Sv).
    apply scatter_add_length in Sm. apply scatter_add_length in Sv.
    rewrite length_map in Sm, Sv.
    destruct (apply_update_result self k m' v' p
                (learning_rate self
                 * (sqrt (1 - beta_2 self ^ S (iterations self))
                    / (1 - beta_1 self ^ S (iterations self)))
                 * (1 - std self * INR (chaos_punish self))
                   ^ chaos_punish self) Km Kv)
      as (s & q & E & _); [congruence | congruence | exact Hams |]. eauto.
  - rewrite (momentum_dense_step self k g m v p Hm Hv Lm Lv Hg).
    destruct (apply_update_result self k
                (map2 Rplus m
                   (AdAlpha_Momentum._m_activ
                      (scale (map2 Rminus g m) (1 - beta_1 self))))
                (map2 Rplus v
                   (AdAlpha_Momentum._m_activ
                      (scale (map2 Rminus (tf_square g) v) (1 - beta_2 self))))
                p
                (learning_rate self
                 * (sqrt (1 - beta_2 self ^ S (iterations self))
                    / (1 - beta_1 self ^ S (iterations self)))
                 * std self ^ chaos_punish self) Km Kv)
      as (s & q & E & _); [| | exact Hams |]; eauto.
    + rewrite map2_length; [exact Lm|].
      rewrite m_activ_length, scale_length, map2_length; congruence.
    + rewrite map2_length; [exact Lv|].
      rewrite m_activ_length, scale_length, map2_length;
        rewrite ?tf_square_length; congruence.
  - destruct Hg as [Lg Hin]. rewrite Forall_forall in Hin.
    destruct (scatter_add_exists
                (map2 Rplus m
                   (AdAlpha_Momentum._m_activ
                      (scale (neg m) (1 - beta_1 self))))
                (AdAlpha_Momentum._m_activ (scale values (1 - beta_1 self)))
                indices) as [m' Sm].
    { rewrite m_activ_length, scale_length. exact Lg. }
    { intros i Hi. rewrite map2_length, Lm; auto.
      rewrite m_activ_length, scale_length, neg_length. reflexivity. }
    destruct (scatter_add_exists
                (map2 Rplus v
                   (AdAlpha_Momentum._m_activ
                      (scale (neg v) (1 - beta_2 self))))
                (AdAlpha_Momentum._m_activ
                   (scale (tf_square values) (1 - beta_2 self)))
                indices) as [v' Sv].
    { rewrite m_activ_length, scale_length, tf_square_length. exact Lg. }
    { intros i Hi. rewrite map2_length, Lv; auto.
      rewrite m_activ_length, scale_length, neg_length. reflexivity. }
    rewrite (momentum_sparse_step self k values indices m v m' v' p
               Hm Hv Sm Sv).
    apply scatter_add_length in Sm. apply scatter_add_length in Sv.
    rewrite map2_length in Sm, Sv
      by (rewrite m_activ_length, scale_length, neg_length; reflexivity).
    destruct (apply_update_result self k m' v' p
                (step_scale Momentum self) Km Kv)
      as (s & q & E & _); [congruence | congruence | exact Hams |]. eauto.
Qed.

Lemma nth_error_map_length (l : list Tensor) (shape : list nat) (k n : nat) :
  map (@length R) l = shape -> nth_error shape k = Some n ->
  exists x, nth_error l k = Some x /\ length x = n.
Proof.
  intros <- H. rewrite nth_error_map in H. unfold Tensor in *.
  destruct (nth_error l k) as [x|]; simpl in H; [|discriminate].
  inversion H. eauto.
Qed.

Lemma host_call_progress (variant : Variant) (shape : list nat)
  (c : HostCall) (w : World) :
  shapes_ok shape w -> call_ok shape c ->
  exists w', host_call (step_of variant) c w = Ok w' /\ shapes_ok shape w'.
Proof.
  destruct w as [self variables]. intros (S1 & S2 & S3 & S4) Hc.
  simpl in S1, S2, S3, S4.
  destruct c as [k gradient | new_std |].
  - assert (Hn : exists n, nth_error shape k = Some n /\
                   match gradient with
                   | Dense g => length g = n
                   | IndexedSlices values indices =>
                       length values = length indices /\
                       Forall (fun i => (i < n)%nat) indices
                   end).
    { destruct gradient as [g | values indices]; simpl in Hc.
      - eauto.
      - destruct Hc as (n & H1 & H2 & H3). eauto. }
    destruct Hn as (n & Hn & Hg).
    destruct (nth_error_map_length _ _ _ _ S1 Hn) as (p & Hp & Lp).
    destruct (nth_error_map_length _ _ _ _ S2 Hn) as (m & Hm & Lm).
    destruct (nth_error_map_length _ _ _ _ S3 Hn) as (v & Hv & Lv).
    destruct (step_progress variant self k gradient m v p Hm Hv)
      as (self' & p' & E); try congruence.
    { intros Ha. destruct (nth_error_map_length _ _ _ _ (S4 Ha) Hn)
        as (h & Hh & Lh). exists h. split; congruence. }
    { destruct gradient; rewrite Lp; exact Hg. }
    exists (self', set_nth k p' variables). split.
    { simpl. rewrite (getitem_ok _ _ _ Hp). cbn [bind]. rewrite E.
      reflexivity. }
    pose proof (step_of_fields _ _ _ _ _ _ _ E) as (_ & F2 & _).
    apply step_shapes in E.
    destruct E as (E1 & E2 & E3 & E4).
    unfold shapes_ok. simpl.
    split. { rewrite (map_length_set_nth k p' variables p Hp E4). exact S1. }
    split; [congruence|]. split; [congruence|].
    intros Ha. rewrite E3. apply S4. congruence.
  - exists (Adalpha.update_loss new_std self, variables).
    split; [reflexivity|]. unfold shapes_ok. simpl. auto.
  - exists (iterate self, variables).
    split; [reflexivity|]. unfold shapes_ok. simpl. auto.
Qed.

(** X6: [build] on a fresh optimizer allocates, for every variable, an [m]
    and a [v] (and a [v_hat] exactly when AMS-grad is on) of the variable's
    length, and from then on no host call on well-formed input raises: any
    sequence of steps of one variant whose dense gradients have their
    variable's length and whose sparse gradients have one value per index
    and every index inside the variable, with signal updates and counter
    increments in between, succeeds and keeps every shape. *)
Theorem well_formed_run_succeeds (variant : Variant) (lr : R) (cp : nat)
  (b1 b2 eps : R) (ams : bool) (var_list : list Tensor)
  (calls : list HostCall) :
  let self := Adalpha.build var_list (Adalpha.init lr cp b1 b2 eps ams) in
  shapes_ok (map (@length R) var_list) (self, var_list) /\
  _velocity_hats self
  = (if ams then map add_variable_from_reference var_list else []) /\
  (Forall (call_ok (map (@length R) var_list)) calls ->
   exists w,
     host_run (step_of variant) calls (self, var_list) = Ok w /\
     shapes_ok (map (@length R) var_list) w).
Proof.
  intros self.
  assert (H0 : shapes_ok (map (@length R) var_list) (self, var_list)).
  { unfold shapes_ok, self, add_variable_from_reference. simpl.
    split; [reflexivity|].
    assert (E : map (@length R) (map (fun var => map (fun _ => 0) var) var_list)
                = map (@length R) var_list).
    { rewrite map_map. apply map_ext. intros a. apply length_map. }
    split; [exact E|]. split; [exact E|].
    intros Ha. rewrite Ha. exact E. }
  split; [exact H0|]. split; [reflexivity|].
  intros Hc. generalize dependent (self, var_list). clear self.
  induction Hc as [|c calls Hc Hcs IH]; intros w Hw.
  - exists w. split; [reflexivity | exact Hw].
  - destruct (host_call_progress variant _ c w Hw Hc) as (w1 & E1 & Hw1).
    destruct (IH w1 Hw1) as (w2 & E2 & Hw2).
    exists w2. split; [|exact Hw2].
    simpl. rewrite E1. exact E2.
Qed.

(** ** More on the momentum activation *)

Lemma reduce_sum_scale (c : R) (x : Tensor) :
  reduce_sum (map (fun a => c * a) x) = c * reduce_sum x.
Proof.
  unfold reduce_sum. induction x as [|a x IH]; simpl; [ring|].
  rewrite IH. ring.
Qed.

Lemma reduce_mean_scale (c : R) (x : Tensor) :
  reduce_mean (map (fun a => c * a) x) = c * reduce_mean x.
Proof.
  unfold reduce_mean. rewrite reduce_sum_scale, length_map.
  unfold Rdiv. ring.
Qed.

Lemma reduce_sum_squares_nonneg (x : Tensor) : 0 <= reduce_sum (tf_square x).
Proof.
  unfold reduce_sum, tf_square. induction x as [|a x IH]; simpl; [lra|].
  pose proof (Rle_0_sqr a) as H. unfold Rsqr in H. lra.
Qed.

Lemma reduce_std_scale (c : R) (x : Tensor) :
  reduce_std (map (fun a => c * a) x) = Rabs c * reduce_std x.
Proof.
  unfold reduce_std. rewrite reduce_mean_scale.
  replace (tf_square (map (fun a => a - c * reduce_mean x)
                          (map (fun a => c * a) x)))
    with (map (fun a => (c * c) * a)
              (tf_square (map (fun a => a - reduce_mean x) x))).
  - rewrite reduce_mean_scale.
    rewrite sqrt_mult_alt by (pose proof (Rle_0_sqr c) as H; exact H).
    f_equal. exact (sqrt_Rsqr_abs c).
  - unfold tf_square. rewrite !map_map. apply map_ext. intros a. ring.
Qed.

Lemma neg_scale (x : Tensor) : neg x = map (fun a => -1 * a) x.
Proof. unfold neg. apply map_ext. intros a. ring. Qed.

(** X7: the activation is odd.  Negating the whole input tensor leaves the
    quotient tensor as it is and negates the result. *)
Theorem m_activ_odd (x : Tensor) :
  AdAlpha_Momentum._m_activ_quotient (neg x)
  = AdAlpha_Momentum._m_activ_quotient x /\
  AdAlpha_Momentum._m_activ (neg x) = neg (AdAlpha_Momentum._m_activ x).
Proof.
  assert (Q : AdAlpha_Momentum._m_activ_quotient (neg x)
              = AdAlpha_Momentum._m_activ_quotient x).
  { unfold AdAlpha_Momentum._m_activ_quotient. cbv zeta.
    rewrite neg_scale, reduce_mean_scale, reduce_std_scale, map_map.
    assert (A1 : Rabs (-1) = 1)
      by (unfold Rabs; destruct (Rcase_abs (-1)); lra).
    rewrite Rabs_mult, A1, !Rmult_1_l.
    apply map_ext. intros a.
    replace (-1 * a * (-1 * a)) with (a * a) by ring. reflexivity. }
  split; [exact Q|].
  unfold AdAlpha_Momentum._m_activ. rewrite Q.
  unfold neg. rewrite map2_map_l, map_map2.
  apply map2_ext. intros a q. ring.
Qed.

(** X8: the activation keeps the shape and the sign of every element and
    never shrinks it: each output element is the input element times a
    factor between 1 and [2.001^2] (about 4.004). *)
Theorem m_activ_gain (x : Tensor) (i : nat) :
  length (AdAlpha_Momentum._m_activ x) = length x /\
  0 <= nth i x 0 * nth i (AdAlpha_Momentum._m_activ x) 0 /\
  Rabs (nth i x 0) <= Rabs (nth i (AdAlpha_Momentum._m_activ x) 0)
  <= 2.001 ^ 2 * Rabs (nth i x 0).
Proof.
  split; [apply m_activ_length|].
  destruct (m_activ_factor x) as (F & HF & ->).
  rewrite (nth_map_zero (fun xi => xi * F xi) x i) by ring.
  destruct (HF (nth i x 0)) as [F1 F2]. set (a := nth i x 0) in *.
  split.
  - replace (a * (a * F a)) with (Rsqr a * F a) by (unfold Rsqr; ring).
    apply Rmult_le_pos; [apply Rle_0_sqr | lra].
  - rewrite Rabs_mult, (Rabs_pos_eq (F a)) by lra.
    pose proof (Rabs_pos a). split; nra.
Qed.

Lemma reduce_sum_repeat (a : R) (n : nat) :
  reduce_sum (repeat a n) = INR n * a.
Proof.
  unfold reduce_sum. induction n as [|n IH]; [simpl; ring|].
  cbn [repeat fold_right]. rewrite IH, S_INR. ring.
Qed.

Lemma reduce_mean_repeat (a : R) (n : nat) :
  (0 < n)%nat -> reduce_mean (repeat a n) = a.
Proof.
  intros Hn. unfold reduce_mean. rewrite reduce_sum_repeat, repeat_length.
  field. apply not_0_INR. lia.
Qed.

Lemma reduce_std_repeat (a : R) (n : nat) :
  (0 < n)%nat -> reduce_std (repeat a n) = 0.
Proof.
  intros Hn. unfold reduce_std. rewrite (reduce_mean_repeat a n Hn).
  unfold tf_square. rewrite map_map.
  replace (map (fun x => (x - a) * (x - a)) (repeat a n)) with (repeat 0 n).
  - unfold reduce_mean. rewrite reduce_sum_repeat.
    replace (INR n * 0 / INR (length (repeat 0 n))) with 0
      by (unfold Rdiv; ring).
    apply sqrt_0.
  - clear Hn. induction n as [|n IH]; [reflexivity|].
    cbn [repeat map]. rewrite <- IH. f_equal. ring.
Qed.

(** X9: on a tensor whose elements are all equal, of a magnitude in
    [normal_magnitude], the activation is a constant gain: every element is
    multiplied by [(2 - 0.9999/1.1)^2], about 1.19. *)
Theorem m_activ_uniform (a : R) (n : nat) :
  normal_magnitude a ->
  AdAlpha_Momentum._m_activ (repeat a n)
  = repeat (a * (2 - 0.9999 / 1.1) ^ 2) n.
Proof.
  intros Hr.
  assert (Ha : a <> 0).
  { intros ->. destruct Hr as [Hr _]. rewrite Rabs_R0 in Hr. lra. }
  destruct n as [|n]; [reflexivity|].
  assert (Hn : (0 < S n)%nat) by lia.
  rewrite m_activ_unfold. unfold dispersion.
  rewrite (reduce_mean_repeat a _ Hn), (reduce_std_repeat a _ Hn).
  rewrite Rminus_0_r, Rabs_Rabsolu.
  assert (E : a * (2 - divide_no_nan (a ^ 2 - (0.01 * Rabs a) ^ 2)
                                     (a ^ 2 + 0.1 * Rabs a ^ 2)) ^ 2
              = a * (2 - 0.9999 / 1.1) ^ 2).
  { pose proof (m_activ_singleton a Ha) as H.
    rewrite m_activ_unfold, dispersion_singleton in H. cbn [map] in H.
    injection H as H. exact H. }
  generalize (S n). clear Hn n. intros n.
  induction n as [|n IH]; [reflexivity|].
  cbn [repeat map]. rewrite IH, E. reflexivity.
Qed.

Lemma m_activ_uniform_witness :
  AdAlpha_Momentum._m_activ (repeat 2 3) = repeat (2 * (2 - 0.9999 / 1.1) ^ 2) 3.
Proof.
  apply m_activ_uniform. unfold normal_magnitude.
  rewrite Rabs_pos_eq; lra.
Defined.

(** ** The loss-ratio controller over a run of batches *)

Lemma callback_hook_ok (l : R) (self : Adalpha_Callback.t)
  (optimizer : Optimizer) :
  let a' := Adalpha_Callback.ema_w self * l
            + (1 - Adalpha_Callback.ema_w self) * Adalpha_Callback.a self in
  let b' := (1 - Adalpha_Callback.ema_w self) * l
            + Adalpha_Callback.ema_w self * Adalpha_Callback.b self in
  b' <> 0 ->
  Adalpha_Callback.on_train_batch_end l self optimizer =
  ({| Adalpha_Callback.loss := l;
      Adalpha_Callback.ema_w := Adalpha_Callback.ema_w self;
      Adalpha_Callback.change := Adalpha_Callback.change self;
      Adalpha_Callback.a := a'; Adalpha_Callback.b := b' |},
   Ok (Adalpha.update_loss (Adalpha_Callback.change self * a' / b') optimizer)).
Proof.
  intros a' b' Hb. unfold Adalpha_Callback.on_train_batch_end,
    Adalpha_Callback._calculate_loss_std.
  cbn [Adalpha_Callback.a Adalpha_Callback.b Adalpha_Callback.ema_w
       Adalpha_Callback.change Adalpha_Callback.loss].
  fold a' b'. unfold py_div.
  destruct (Req_dec_T b' 0); [contradiction|reflexivity].
Qed.

(** The optimizer as the controller leaves it: only the signal differs. *)
Lemma update_loss_twice (s1 s2 : R) (optimizer : Optimizer) :
  Adalpha.update_loss s2 (Adalpha.update_loss s1 optimizer)
  = Adalpha.update_loss s2 optimizer.
Proof. reflexivity. Qed.

(** X10: the controller on losses in a band.  With [0 <= ema_w <= 1], if
    [a], [b] and every batch loss lie in [[lo, hi]] with [0 < lo], then no
    batch-end hook raises, [a] and [b] stay in [[lo, hi]], and after a
    non-empty run the optimizer is the original one with the signal
    [change * a / b] of the final [a] and [b], which for [change >= 0] lies
    between [change * lo / hi] and [change * hi / lo]. *)
Theorem callback_band (lo hi : R) (logs_losses : list R)
  (self : Adalpha_Callback.t) (optimizer : Optimizer) :
  0 <= Adalpha_Callback.ema_w self <= 1 -> 0 < lo ->
  lo <= Adalpha_Callback.a self <= hi ->
  lo <= Adalpha_Callback.b self <= hi ->
  Forall (fun l => lo <= l <= hi) logs_losses ->
  let r := callback_batches logs_losses self optimizer in
  lo <= Adalpha_Callback.a (fst r) <= hi /\
  lo <= Adalpha_Callback.b (fst r) <= hi /\
  Adalpha_Callback.ema_w (fst r) = Adalpha_Callback.ema_w self /\
  Adalpha_Callback.change (fst r) = Adalpha_Callback.change self /\
  (logs_losses = [] -> snd r = Ok optimizer) /\
  (logs_losses <> [] ->
   snd r =
   Ok (Adalpha.update_loss
         (Adalpha_Callback.change self * Adalpha_Callback.a (fst r)
          / Adalpha_Callback.b (fst r)) optimizer) /\
   (0 <= Adalpha_Callback.change self ->
    Adalpha_Callback.change self * lo / hi
    <= Adalpha_Callback.change self * Adalpha_Callback.a (fst r)
       / Adalpha_Callback.b (fst r)
    <= Adalpha_Callback.change self * hi / lo)).
Proof.
  intros Hw Hlo Ha Hb Hl.
  revert self optimizer Hw Ha Hb.
  induction Hl as [|l rest Hl0 Hl IH]; intros self optimizer Hw Ha Hb r.
  - unfold r. simpl. repeat split; try tauto; try reflexivity.
  - set (w := Adalpha_Callback.ema_w self) in *.
    set (a' := w * l + (1 - w) * Adalpha_Callback.a self).
    set (b' := (1 - w) * l + w * Adalpha_Callback.b self).
    assert (Ha' : lo <= a' <= hi) by (unfold a'; split; nra).
    assert (Hb' : lo <= b' <= hi) by (unfold b'; split; nra).
    assert (Hb0 : b' <> 0) by lra.
    pose proof (callback_hook_ok l self optimizer Hb0) as E.
    fold w a' b' in E.
    unfold r. cbn [callback_batches]. rewrite E.
    set (self1 := {| Adalpha_Callback.loss := l;
                     Adalpha_Callback.ema_w := w;
                     Adalpha_Callback.change := Adalpha_Callback.change self;
                     Adalpha_Callback.a := a'; Adalpha_Callback.b := b' |}).
    set (o1 := Adalpha.update_loss
                 (Adalpha_Callback.change self * a' / b') optimizer).
    specialize (IH self1 o1 Hw Ha' Hb').
    cbv zeta in IH. destruct IH as (I1 & I2 & I3 & I4 & I5 & I6).
    cbn [Adalpha_Callback.ema_w Adalpha_Callback.change self1] in I3, I4, I6.
    split; [exact I1|]. split; [exact I2|]. split; [exact I3|].
    split; [exact I4|]. split; [discriminate|]. intros _.
    assert (Hsig : 0 <= Adalpha_Callback.change self ->
              forall x y, lo <= x <= hi -> lo <= y <= hi ->
              Adalpha_Callback.change self * lo / hi
              <= Adalpha_Callback.change self * x / y
              <= Adalpha_Callback.change self * hi / lo).
    { intros Hc x y Hx Hy. set (c := Adalpha_Callback.change self) in *.
      assert (Hhi : 0 < hi) by lra. assert (Hy0 : 0 < y) by lra.
      split.
      - apply Rmult_le_reg_r with (hi * y); [apply Rmult_lt_0_compat; lra|].
        replace (c * lo / hi * (hi * y)) with (c * (lo * y)) by (field; lra).
        replace (c * x / y * (hi * y)) with (c * (x * hi)) by (field; lra).
        apply Rmult_le_compat_l; [exact Hc|]. nra.
      - apply Rmult_le_reg_r with (lo * y); [apply Rmult_lt_0_compat; lra|].
        replace (c * x / y * (lo * y)) with (c * (x * lo)) by (field; lra).
        replace (c * hi / lo * (lo * y)) with (c * (hi * y)) by (field; lra).
        apply Rmult_le_compat_l; [exact Hc|]. nra. }
    destruct rest as [|l2 rest2].
    + simpl. split; [reflexivity|]. intros Hc.
      apply Hsig; assumption.
    + destruct (I6 ltac:(discriminate)) as [J1 J2].
      split; [|exact J2].
      rewrite J1. unfold o1. reflexivity.
Qed.

Lemma callback_run_positive (logs_losses : list R)
  (self : Adalpha_Callback.t) (optimizer : Optimizer) :
  0 < Adalpha_Callback.ema_w self <= 1 ->
  0 < Adalpha_Callback.b self ->
  Forall (fun l => 0 <= l) logs_losses ->
  (exists optimizer',
     snd (callback_batches logs_losses self optimizer) = Ok optimizer') /\
  0 < Adalpha_Callback.b (fst (callback_batches logs_losses self optimizer)).
Proof.
  intros Hw Hb Hl. revert self optimizer Hw Hb.
  induction Hl as [|l rest Hl0 Hl IH]; intros self optimizer Hw Hb.
  - simpl. eauto.
  - set (w := Adalpha_Callback.ema_w self) in *.
    set (b' := (1 - w) * l + w * Adalpha_Callback.b self).
    assert (Hb' : 0 < b').
    { unfold b'.
      assert (0 < w * Adalpha_Callback.b self)
        by (apply Rmult_lt_0_compat; lra).
      assert (0 <= (1 - w) * l) by (apply Rmult_le_pos; lra). lra. }
    assert (Hb0 : b' <> 0) by lra.
    pose proof (callback_hook_ok l self optimizer Hb0) as E.
    cbn [callback_batches]. rewrite E. apply IH; assumption.
Qed.

(** X11: the division of the hook.  A batch-end hook raises
    [ZeroDivisionError] exactly when the new [b] is 0 (and then leaves the
    optimizer's signal unwritten); with [0 < ema_w <= 1], a positive [b] and
    non-negative losses that never happens, over any run of batches. *)
Theorem callback_zero_division :
  (forall l self optimizer,
     snd (Adalpha_Callback.on_train_batch_end l self optimizer)
     = Raise ZeroDivisionError <->
     (1 - Adalpha_Callback.ema_w self) * l
     + Adalpha_Callback.ema_w self * Adalpha_Callback.b self = 0) /\
  (forall logs_losses self optimizer,
     0 < Adalpha_Callback.ema_w self <= 1 ->
     0 < Adalpha_Callback.b self ->
     Forall (fun l => 0 <= l) logs_losses ->
     (exists optimizer',
        snd (callback_batches logs_losses self optimizer) = Ok optimizer') /\
     0 < Adalpha_Callback.b (fst (callback_batches logs_losses self optimizer))).
Proof.
  split.
  - intros l self optimizer.
    unfold Adalpha_Callback.on_train_batch_end,
      Adalpha_Callback._calculate_loss_std, py_div.
    cbn [snd Adalpha_Callback.a Adalpha_Callback.b Adalpha_Callback.ema_w
         Adalpha_Callback.change Adalpha_Callback.loss].
    destruct (Req_dec_T _ 0) as [E|E]; cbn [bind]; split; intros H; auto.
    + discriminate H.
    + contradiction.
  - intros logs_losses self optimizer Hw Hb Hl.
    apply callback_run_positive; assumption.
Qed.

Lemma callback_zero_division_witness :
  exists optimizer',
    snd (callback_batches [0; 2] (Adalpha_Callback.init 0.9 0.99)
           Adalpha.default) = Ok optimizer'.
Proof.
  refine (proj1 (proj2 callback_zero_division [0; 2]
                   (Adalpha_Callback.init 0.9 0.99) Adalpha.default _ _ _)).
  - simpl. lra.
  - simpl. lra.
  - repeat constructor; lra.
Defined.

Lemma callback_constant_loss_state (L : R) (n : nat) :
  forall (self : Adalpha_Callback.t) (optimizer : Optimizer),
    0 < Adalpha_Callback.ema_w self <= 1 -> 0 <= L ->
    0 < Adalpha_Callback.b self ->
    let r := callback_batches (repeat L n) self optimizer in
    Adalpha_Callback.a (fst r)
    = L + (1 - Adalpha_Callback.ema_w self) ^ n * (Adalpha_Callback.a self - L)
    /\
    Adalpha_Callback.b (fst r)
    = L + Adalpha_Callback.ema_w self ^ n * (Adalpha_Callback.b self - L) /\
    Adalpha_Callback.change (fst r) = Adalpha_Callback.change self /\
    ((0 < n)%nat ->
     snd r = Ok (Adalpha.update_loss
                   (Adalpha_Callback.change self * Adalpha_Callback.a (fst r)
                    / Adalpha_Callback.b (fst r)) optimizer)).
Proof.
  induction n as [|n IH]; intros self optimizer Hw HL Hb r.
  - unfold r. simpl. repeat split; try ring. intros C. lia.
  - set (w := Adalpha_Callback.ema_w self) in *.
    set (a' := w * L + (1 - w) * Adalpha_Callback.a self).
    set (b' := (1 - w) * L + w * Adalpha_Callback.b self).
    assert (Hb' : 0 < b').
    { unfold b'.
      assert (0 < w * Adalpha_Callback.b self)
        by (apply Rmult_lt_0_compat; lra).
      assert (0 <= (1 - w) * L) by (apply Rmult_le_pos; lra). lra. }
    assert (Hb0 : b' <> 0) by lra.
    pose proof (callback_hook_ok L self optimizer Hb0) as E.
    fold w a' b' in E.
    unfold r. cbn [repeat callback_batches]. rewrite E.
    set (self1 := {| Adalpha_Callback.loss := L;
                     Adalpha_Callback.ema_w := w;
                     Adalpha_Callback.change := Adalpha_Callback.change self;
                     Adalpha_Callback.a := a'; Adalpha_Callback.b := b' |}).
    set (o1 := Adalpha.update_loss
                 (Adalpha_Callback.change self * a' / b') optimizer).
    specialize (IH self1 o1 Hw HL Hb'). cbv zeta in IH.
    destruct IH as (I1 & I2 & I3 & I4).
    cbn [Adalpha_Callback.ema_w Adalpha_Callback.change Adalpha_Callback.a
         Adalpha_Callback.b self1] in I1, I2, I3, I4.
    split. { rewrite I1. unfold a'. simpl. ring. }
    split. { rewrite I2. unfold b'. simpl. ring. }
    split; [exact I3|]. intros _.
    destruct n as [|n].
    + simpl. reflexivity.
    + rewrite (I4 ltac:(lia)). reflexivity.
Qed.

(** X12: a constant loss.  With [0 < ema_w < 1] and a positive [b], [n]
    batches with the same loss [L > 0] leave
    [a = L + (1-ema_w)^n * (a0 - L)] and [b = L + ema_w^n * (b0 - L)], so
    both averages tend to [L] and the signal written to the optimizer tends
    to [change]. *)
Theorem callback_constant_loss (L : R) (self : Adalpha_Callback.t)
  (optimizer : Optimizer) :
  0 < Adalpha_Callback.ema_w self < 1 -> 0 < L ->
  0 < Adalpha_Callback.b self ->
  (forall n,
     let r := callback_batches (repeat L n) self optimizer in
     Adalpha_Callback.a (fst r)
     = L + (1 - Adalpha_Callback.ema_w self) ^ n
           * (Adalpha_Callback.a self - L) /\
     Adalpha_Callback.b (fst r)
     = L + Adalpha_Callback.ema_w self ^ n * (Adalpha_Callback.b self - L)) /\
  (forall tol, 0 < tol ->
     exists N0, forall n, (N0 <= n)%nat -> (0 < n)%nat ->
       exists optimizer',
         snd (callback_batches (repeat L n) self optimizer) = Ok optimizer' /\
         Rabs (std optimizer' - Adalpha_Callback.change self) < tol).
Proof.
  intros Hw HL Hb.
  assert (Hw' : 0 < Adalpha_Callback.ema_w self <= 1) by lra.
  split.
  - intros n r.
    destruct (callback_constant_loss_state L n self optimizer Hw' (Rlt_le _ _ HL) Hb)
      as (H1 & H2 & _). auto.
  - intros tol Ht.
    set (w := Adalpha_Callback.ema_w self) in *.
    set (a0 := Adalpha_Callback.a self). set (b0 := Adalpha_Callback.b self) in *.
    set (c := Adalpha_Callback.change self).
    set (beta := Rmin L b0).
    assert (Hbeta : 0 < beta) by (unfold beta; apply Rmin_glb_lt; assumption).
    assert (HK : 0 <= (Rabs c + 1) / beta)
      by (apply Rmult_le_pos;
          [pose proof (Rabs_pos c); lra | left; apply Rinv_0_lt_compat, Hbeta]).
    destruct (geometric_to_zero (1 - w) ((Rabs c + 1) / beta * Rabs (a0 - L))
                (tol / 2)) as [N1 H1]; [lra | | lra |].
    { apply Rmult_le_pos; [exact HK | apply Rabs_pos]. }
    destruct (geometric_to_zero w ((Rabs c + 1) / beta * Rabs (b0 - L))
                (tol / 2)) as [N2 H2]; [lra | | lra |].
    { apply Rmult_le_pos; [exact HK | apply Rabs_pos]. }
    exists (Nat.max N1 N2). intros n Hn Hpos.
    destruct (callback_constant_loss_state L n self optimizer Hw' (Rlt_le _ _ HL) Hb)
      as (E1 & E2 & _ & E4).
    specialize (E4 Hpos). cbv zeta in E4. fold w a0 b0 c in E1, E2, E4.
    eexists. split; [exact E4|]. cbn [Adalpha.update_loss std].
    set (an := Adalpha_Callback.a
                 (fst (callback_batches (repeat L n) self optimizer))) in *.
    set (bn := Adalpha_Callback.b
                 (fst (callback_batches (repeat L n) self optimizer))) in *.
    specialize (H1 n ltac:(lia)). specialize (H2 n ltac:(lia)).
    assert (Pw : 0 <= w ^ n <= 1).
    { split; [apply pow_le; lra|]. rewrite <- (pow1 n). apply pow_incr. lra. }
    assert (P1 : 0 <= (1 - w) ^ n) by (apply pow_le; lra).
    assert (Hbn : beta <= bn).
    { rewrite E2. replace (L + w ^ n * (b0 - L))
        with ((1 - w ^ n) * L + w ^ n * b0) by ring.
      pose proof (Rmin_l L b0). pose proof (Rmin_r L b0). fold beta in H, H0.
      nra. }
    assert (Hbn0 : 0 < bn) by lra.
    replace (c * an / bn - c) with (c * (an - bn) / bn) by (field; lra).
    unfold Rdiv. rewrite !Rabs_mult.
    rewrite (Rabs_pos_eq (/ bn)) by (left; apply Rinv_0_lt_compat, Hbn0).
    assert (Hd : Rabs (an - bn)
                 <= (1 - w) ^ n * Rabs (a0 - L) + w ^ n * Rabs (b0 - L)).
    { rewrite E1, E2.
      replace (L + (1 - w) ^ n * (a0 - L) - (L + w ^ n * (b0 - L)))
        with ((1 - w) ^ n * (a0 - L) + - (w ^ n * (b0 - L))) by ring.
      eapply Rle_trans; [apply Rabs_triang|].
      rewrite Rabs_Ropp, !Rabs_mult.
      rewrite (Rabs_pos_eq _ P1), (Rabs_pos_eq (w ^ n)) by lra. lra. }
    assert (Hinv : / bn <= / beta) by (apply Rinv_le_contravar; lra).
    assert (Hib : 0 < / beta) by (apply Rinv_0_lt_compat, Hbeta).
    assert (Hibn : 0 < / bn) by (apply Rinv_0_lt_compat, Hbn0).
    pose proof (Rabs_pos c) as Hc. pose proof (Rabs_pos (an - bn)) as Hab.
    pose proof (Rabs_pos (a0 - L)) as Ha0. pose proof (Rabs_pos (b0 - L)) as Hb0'.
    set (X := (1 - w) ^ n * Rabs (a0 - L) + w ^ n * Rabs (b0 - L)) in *.
    assert (HX : 0 <= X) by (unfold X; nra).
    apply Rle_lt_trans with ((Rabs c + 1) * X * / beta).
    + apply Rle_trans with (Rabs c * X * / bn).
      * apply Rmult_le_compat_r; [lra|]. apply Rmult_le_compat_l; [exact Hc | exact Hd].
      * apply Rle_trans with (Rabs c * X * / beta).
        -- apply Rmult_le_compat_l; [apply Rmult_le_pos; lra | exact Hinv].
        -- apply Rmult_le_compat_r; [lra|]. nra.
    + replace ((Rabs c + 1) * X * / beta)
        with ((Rabs c + 1) / beta * Rabs (a0 - L) * (1 - w) ^ n
              + (Rabs c + 1) / beta * Rabs (b0 - L) * w ^ n)
        by (unfold X, Rdiv; ring).
      lra.
Qed.

Lemma callback_band_witness :
  1 <= Adalpha_Callback.a
         (fst (callback_batches [2; 3] (Adalpha_Callback.init 0.9 0.99)
                 Adalpha.default)) <= 3.
Proof.
  refine (proj1 (callback_band 1 3 [2; 3] (Adalpha_Callback.init 0.9 0.99)
                   Adalpha.default _ _ _ _ _)).
  - simpl. lra.
  - lra.
  - simpl. lra.
  - simpl. lra.
  - repeat constructor; lra.
Defined.

Lemma callback_constant_loss_witness :
  Adalpha_Callback.b
    (fst (callback_batches (repeat 2 3) (Adalpha_Callback.init 0.9 0.99)
            Adalpha.default))
  = 2 + 0.9 ^ 3 * (1 - 2).
Proof.
  refine (proj2 (proj1 (callback_constant_loss 2
                          (Adalpha_Callback.init 0.9 0.99) Adalpha.default
                          _ _ _) 3%nat)).
  - simpl. lra.
  - lra.
  - simpl. lra.
Defined.

(** ** Adalpha_Plot *)

(** X13: [Adalpha_Plot] is [Adalpha_Callback] plus a record.  Over any run
    of batches it leaves its callback fields and the optimizer exactly as
    [Adalpha_Callback] does, raising in the same cases; every hook that
    succeeds appends one entry to [stds], the learning rate times the signal
    it writes, so a run of [n] batches that does not raise adds [n]
    entries. *)
Theorem plot_refines_callback :
  (forall l self optimizer,
     let r := Adalpha_Plot.on_train_batch_end l self optimizer in
     let r0 :=
       Adalpha_Callback.on_train_batch_end l (Adalpha_Plot.base self)
         optimizer in
     Adalpha_Plot.base (fst r) = fst r0 /\ snd r = snd r0 /\
     forall optimizer',
       snd r = Ok optimizer' ->
       Adalpha_Plot.stds (fst r)
       = Adalpha_Plot.stds self
         ++ [Finite (learning_rate optimizer * std optimizer')]) /\
  (forall logs_losses self optimizer,
     let r := Adalpha_Plot.batches logs_losses self optimizer in
     let r0 := callback_batches logs_losses (Adalpha_Plot.base self) optimizer in
     Adalpha_Plot.base (fst r) = fst r0 /\ snd r = snd r0 /\
     forall optimizer',
       snd r = Ok optimizer' ->
       length (Adalpha_Plot.stds (fst r))
       = (length (Adalpha_Plot.stds self) + length logs_losses)%nat).
Proof.
  assert (Hhook : forall l self optimizer,
     let r := Adalpha_Plot.on_train_batch_end l self optimizer in
     let r0 :=
       Adalpha_Callback.on_train_batch_end l (Adalpha_Plot.base self)
         optimizer in
     Adalpha_Plot.base (fst r) = fst r0 /\ snd r = snd r0 /\
     forall optimizer',
       snd r = Ok optimizer' ->
       Adalpha_Plot.stds (fst r)
       = Adalpha_Plot.stds self
         ++ [Finite (learning_rate optimizer * std optimizer')]).
  { intros l self optimizer r r0.
    split; [reflexivity|]. split; [reflexivity|].
    intros optimizer'. unfold r, Adalpha_Plot.on_train_batch_end,
      Adalpha_Plot._calculate_loss_std, py_div, tensor_div.
    cbn [fst snd Adalpha_Plot.base Adalpha_Plot.stds Adalpha_Callback.a
         Adalpha_Callback.b Adalpha_Callback.ema_w Adalpha_Callback.change
         Adalpha_Callback.loss].
    destruct (Req_dec_T _ 0) as [E|E]; cbn [bind]; intros H;
      [discriminate H|].
    inversion H; subst. cbn [Adalpha.update_loss std]. do 3 f_equal.
    unfold Rdiv. ring. }
  split; [exact Hhook|].
  induction logs_losses as [|l rest IH]; intros self optimizer r r0.
  - unfold r, r0. simpl. repeat split; auto.
  - destruct (Hhook l self optimizer) as (H1 & H2 & H3).
    unfold r, r0. cbn [Adalpha_Plot.batches callback_batches].
    destruct (Adalpha_Plot.on_train_batch_end l self optimizer)
      as [self1 [o1|e]] eqn:E1;
      destruct (Adalpha_Callback.on_train_batch_end l
                  (Adalpha_Plot.base self) optimizer)
      as [cb1 [o1'|e']] eqn:E0;
      cbn [fst snd] in H1, H2, H3; try discriminate H2.
    + inversion H2; subst o1'. subst cb1.
      destruct (IH self1 o1) as (I1 & I2 & I3).
      split; [exact I1|]. split; [exact I2|].
      intros optimizer' Ho.
      rewrite (I3 optimizer' Ho), (H3 o1 eq_refl), length_app.
      simpl. lia.
    + cbn [fst snd]. split; [exact H1|]. split; [exact H2|].
      intros optimizer' Ho. discriminate Ho.
Qed.

(** ** OneCallback's record of losses *)

Lemma skipn_last_window {A : Type} (h : nat) (x y : list A) :
  skipn (length (skipn (length x - h) x ++ y) - h) (skipn (length x - h) x ++ y)
  = skipn (length (x ++ y) - h) (x ++ y).
Proof.
  rewrite !length_app, length_skipn, !skipn_app, skipn_skipn, length_skipn.
  f_equal; f_equal; lia.
Qed.

Lemma one_callback_hook_losses (l : R) (self : OneCallback.t)
  (optimizer : Optimizer) :
  OneCallback.losses (fst (OneCallback.on_train_batch_end l self optimizer))
  = slice_from (- OneCallback.hold self) (OneCallback.losses self ++ [l]) /\
  OneCallback.hold (fst (OneCallback.on_train_batch_end l self optimizer))
  = OneCallback.hold self.
Proof. split; reflexivity. Qed.

(** X14: which losses [OneCallback] keeps.  With [hold > 0] it keeps, after
    any non-empty run of batches, the last [hold] of the losses it held and
    saw (all of them while there are fewer), so never more than [hold];
    with [hold = 0] the slice [losses[-0:]] drops nothing and the list grows
    by one loss per batch; with [hold < 0] each hook drops the first
    [-hold] entries instead of keeping the last ones. *)
Theorem one_callback_window (self : OneCallback.t) (optimizer : Optimizer) :
  ((0 < OneCallback.hold self)%Z ->
   forall l rest,
     let all := OneCallback.losses self ++ l :: rest in
     let kept :=
       OneCallback.losses
         (fst (OneCallback.batches (l :: rest) self optimizer)) in
     kept = skipn (length all - Z.to_nat (OneCallback.hold self)) all /\
     (length kept <= Z.to_nat (OneCallback.hold self))%nat) /\
  (OneCallback.hold self = 0%Z ->
   forall logs_losses,
     OneCallback.losses
       (fst (OneCallback.batches logs_losses self optimizer))
     = OneCallback.losses self ++ logs_losses) /\
  ((OneCallback.hold self < 0)%Z ->
   forall l,
     OneCallback.losses (fst (OneCallback.on_train_batch_end l self optimizer))
     = skipn (Z.to_nat (- OneCallback.hold self))
             (OneCallback.losses self ++ [l])).
Proof.
  split; [|split].
  - intros Hh l rest. revert self optimizer Hh l.
    induction rest as [|l2 rest IH]; intros self optimizer Hh l all kept.
    + unfold kept, all. cbn [OneCallback.batches].
      destruct (OneCallback.on_train_batch_end l self optimizer)
        as [self1 o1] eqn:E.
      pose proof (one_callback_hook_losses l self optimizer) as [H1 _].
      rewrite E in H1. cbn [fst] in *. rewrite H1.
      unfold slice_from.
      set (n := length (OneCallback.losses self ++ [l])).
      assert (Es : Z.to_nat (if (- OneCallback.hold self <? 0)%Z
                             then Z.max 0 (- OneCallback.hold self + Z.of_nat n)
                             else Z.min (- OneCallback.hold self) (Z.of_nat n))
                   = (n - Z.to_nat (OneCallback.hold self))%nat)
        by (destruct (Z.ltb_spec (- OneCallback.hold self) 0); lia).
      rewrite Es. split; [reflexivity|]. rewrite length_skipn. fold n. lia.
    + unfold kept, all. cbn [OneCallback.batches].
      destruct (OneCallback.on_train_batch_end l self optimizer)
        as [self1 o1] eqn:E.
      pose proof (one_callback_hook_losses l self optimizer) as [H1 H2].
      rewrite E in H1, H2. cbn [fst] in H1, H2.
      assert (Hh1 : (0 < OneCallback.hold self1)%Z) by lia.
      specialize (IH self1 o1 Hh1 l2). cbv zeta in IH.
      cbn [OneCallback.batches] in IH. destruct IH as [I1 I2].
      rewrite H2 in I1, I2. split; [|exact I2].
      rewrite I1, H1. unfold slice_from.
      set (n := length (OneCallback.losses self ++ [l])).
      assert (Es : Z.to_nat (if (- OneCallback.hold self <? 0)%Z
                             then Z.max 0 (- OneCallback.hold self + Z.of_nat n)
                             else Z.min (- OneCallback.hold self) (Z.of_nat n))
                   = (n - Z.to_nat (OneCallback.hold self))%nat)
        by (destruct (Z.ltb_spec (- OneCallback.hold self) 0); lia).
      rewrite Es. unfold n.
      rewrite (skipn_last_window (Z.to_nat (OneCallback.hold self))
                 (OneCallback.losses self ++ [l]) (l2 :: rest)).
      rewrite <- app_assoc. reflexivity.
  - intros Hh logs_losses. revert self optimizer Hh.
    induction logs_losses as [|l rest IH]; intros self optimizer Hh.
    + simpl. rewrite app_nil_r. reflexivity.
    + cbn [OneCallback.batches].
      destruct (OneCallback.on_train_batch_end l self optimizer)
        as [self1 o1] eqn:E.
      pose proof (one_callback_hook_losses l self optimizer) as [H1 H2].
      rewrite E in H1, H2. cbn [fst] in H1, H2.
      rewrite (IH self1 o1) by congruence.
      rewrite H1, Hh. unfold slice_from. cbn [Z.opp Z.ltb Z.compare].
      rewrite Z.min_l by lia. cbn [Z.to_nat skipn].
      rewrite <- app_assoc. reflexivity.
  - intros Hh l.
    pose proof (one_callback_hook_losses l self optimizer) as [H1 _].
    rewrite H1. unfold slice_from.
    set (n := length (OneCallback.losses self ++ [l])).
    destruct (Z.ltb_spec (- OneCallback.hold self) 0); [lia|].
    destruct (Z.le_gt_cases (- OneCallback.hold self) (Z.of_nat n)) as [Hle|Hgt].
    + rewrite Z.min_l by lia. reflexivity.
    + rewrite Z.min_r by lia. rewrite Nat2Z.id.
      rewrite !skipn_all2; [reflexivity | fold n; lia | fold n; lia].
Qed.

Lemma one_callback_window_witness :
  OneCallback.losses
    (fst (OneCallback.batches [3; 4]
            {| OneCallback.losses := [1; 2]; OneCallback.hold := 3;
               OneCallback.std := 0 |} Adalpha.default))
  = [2; 3; 4].
Proof.
  refine (eq_trans (proj1 (proj1 (one_callback_window
            {| OneCallback.losses := [1; 2]; OneCallback.hold := 3;
               OneCallback.std := 0 |} Adalpha.default) _ 3 [4])) _).
  - simpl. lia.
  - reflexivity.
Defined.

Lemma plot_refines_callback_witness :
  exists optimizer',
    snd (Adalpha_Plot.batches [2; 3] (Adalpha_Plot.init 0.9 0.99)
           Adalpha.default) = Ok optimizer' /\
    length (Adalpha_Plot.stds
              (fst (Adalpha_Plot.batches [2; 3] (Adalpha_Plot.init 0.9 0.99)
                      Adalpha.default))) = 3%nat.
Proof.
  destruct (proj2 plot_refines_callback [2; 3] (Adalpha_Plot.init 0.9 0.99)
              Adalpha.default) as (_ & H2 & H3).
  destruct (proj1 (callback_run_positive [2; 3]
                     (Adalpha_Callback.init 0.9 0.99) Adalpha.default
                     ltac:(simpl; lra) ltac:(simpl; lra)
                     ltac:(repeat constructor; lra))) as [o' Ho].
  exists o'. change (Adalpha_Plot.base (Adalpha_Plot.init 0.9 0.99))
    with (Adalpha_Callback.init 0.9 0.99) in H2.
  rewrite Ho in H2. split; [exact H2|]. exact (H3 o' H2).
Defined.

(** ** get_config *)

Lemma dict_get_set_eq (key : String.string) (v : ConfigValue) (d : Config) :
  dict_get key (dict_set key v d) = Some v.
Proof.
  induction d as [|[k v0] d IH]; simpl.
  - rewrite String.eqb_refl. reflexivity.
  - destruct (String.eqb k key) eqn:E; simpl; rewrite E; auto.
Qed.

Lemma dict_get_set_neq (key key' : String.string) (v : ConfigValue)
  (d : Config) :
  key <> key' -> dict_get key' (dict_set key v d) = dict_get key' d.
Proof.
  intros N. induction d as [|[k v0] d IH]; simpl.
  - destruct (String.eqb key key') eqn:E; [|reflexivity].
    apply String.eqb_eq in E. contradiction.
  - destruct (String.eqb k key) eqn:E; simpl.
    + apply String.eqb_eq in E. subst k.
      destruct (String.eqb key key') eqn:E'; [|reflexivity].
      apply String.eqb_eq in E'. contradiction.
    + rewrite IH. reflexivity.
Qed.

(** X15: what [get_config] serializes.  It writes exactly the five keys
    [learning_rate], [beta_1], [beta_2], [epsilon] and [amsgrad] over the
    host's configuration and leaves every other key as the host gave it; in
    particular it never writes [chaos_punishment], and two optimizers that
    differ only in [chaos_punish], control signal, step counter or moments
    give the same configuration. *)
Theorem get_config_keys (super_config : Config) (self : Optimizer) :
  dict_get "learning_rate" (get_config super_config self)
  = Some (CFloat (learning_rate self)) /\
  dict_get "beta_1" (get_config super_config self)
  = Some (CFloat (beta_1 self)) /\
  dict_get "beta_2" (get_config super_config self)
  = Some (CFloat (beta_2 self)) /\
  dict_get "epsilon" (get_config super_config self)
  = Some (CFloat (epsilon self)) /\
  dict_get "amsgrad" (get_config super_config self)
  = Some (CBool (amsgrad self)) /\
  (forall key,
     ~ In key ["learning_rate"; "beta_1"; "beta_2"; "epsilon"; "amsgrad"]%string ->
     dict_get key (get_config super_config self) = dict_get key super_config) /\
  dict_get "chaos_punishment" (get_config super_config self)
  = dict_get "chaos_punishment" super_config /\
  (forall cp' std' it' built' ms' vs' hs',
     get_config super_config
       (mkOptimizer (learning_rate self) (beta_1 self) (beta_2 self)
          (epsilon self) (amsgrad self) cp' std' it' built' ms' vs' hs')
     = get_config super_config self).
Proof.
  unfold get_config, dict_update. cbn [fold_left fst snd].
  assert (Hother : forall key,
     ~ In key ["learning_rate"; "beta_1"; "beta_2"; "epsilon"; "amsgrad"]%string ->
     dict_get key
       (dict_set "amsgrad" (CBool (amsgrad self))
          (dict_set "epsilon" (CFloat (epsilon self))
             (dict_set "beta_2" (CFloat (beta_2 self))
                (dict_set "beta_1" (CFloat (beta_1 self))
                   (dict_set "learning_rate" (CFloat (learning_rate self))
                      super_config)))))
     = dict_get key super_config).
  { intros key Hk. simpl in Hk.
    rewrite !dict_get_set_neq; [reflexivity| | | | |];
      intros C; apply Hk; auto 10. }
  split. { rewrite !dict_get_set_neq by discriminate. apply dict_get_set_eq. }
  split. { rewrite !dict_get_set_neq by discriminate. apply dict_get_set_eq. }
  split. { rewrite !dict_get_set_neq by discriminate. apply dict_get_set_eq. }
  split. { rewrite !dict_get_set_neq by discriminate. apply dict_get_set_eq. }
  split. { apply dict_get_set_eq. }
  split; [exact Hother|].
  split.
  { apply Hother. simpl. intros [C|[C|[C|[C|[C|[]]]]]]; discriminate C. }
  reflexivity.
Qed.

Lemma get_config_keys_witness :
  dict_get "name" (get_config [("name"%string, COther "Adam")] Adalpha.default)
  = Some (COther "Adam").
Proof.
  refine (eq_trans
            (proj1 (proj2 (proj2 (proj2 (proj2 (proj2
               (get_config_keys [("name"%string, COther "Adam")]
                  Adalpha.default))))))
               "name"%string _) _).
  - simpl. intros [C|[C|[C|[C|[C|[]]]]]]; discriminate C.
  - reflexivity.
Defined.

(** ** A step on a slot that was not built *)

(** X16: [update_step] of either variant raises, for every gradient, when
    the variable's slot holds no moments: on an optimizer that was never
    built, and on a slot beyond the variables given to [build]. *)
Theorem step_without_slot_raises (variant : Variant) (gradient : Gradient)
  (p : Tensor) (k : nat) :
  (forall self,
     nth_error (_momentums self) k = None \/
     nth_error (_velocities self) k = None ->
     exists e, step_of variant gradient p k self = Raise e) /\
  (forall lr cp b1 b2 eps ams,
     exists e,
       step_of variant gradient p k (Adalpha.init lr cp b1 b2 eps ams)
       = Raise e) /\
  (forall lr cp b1 b2 eps ams var_list,
     (length var_list <= k)%nat ->
     exists e,
       step_of variant gradient p k
         (Adalpha.build var_list (Adalpha.init lr cp b1 b2 eps ams))
       = Raise e).
Proof.
  assert (H0 : forall self,
     nth_error (_momentums self) k = None \/
     nth_error (_velocities self) k = None ->
     exists e, step_of variant gradient p k self = Raise e).
  { intros self H.
    destruct (step_of variant gradient p k self) as [[s q]|e] eqn:E; [|eauto].
    apply step_Ok_store in E.
    destruct E as (m & v & _ & _ & _ & Hm & Hv & _).
    destruct H as [H|H]; congruence. }
  split; [exact H0|]. split.
  - intros. apply H0. left. simpl. destruct k; reflexivity.
  - intros lr cp b1 b2 eps ams var_list Hk. apply H0. left. simpl.
    apply nth_error_None. rewrite length_map. exact Hk.
Qed.

Lemma step_without_slot_raises_witness :
  exists e,
    step_of Base (Dense [1]) [1] 1%nat (Adalpha.build [[1]] Adalpha.default)
    = Raise e.
Proof.
  refine (proj2 (proj2 (step_without_slot_raises Base (Dense [1]) [1] 1%nat))
            0.001 1%nat 0.9 0.999 1e-7 false [[1]] _).
  simpl. lia.
Defined.

(** ** Moments bounded by the gradients *)

Lemma Forall_map2_both (P Q S : R -> Prop) (f : R -> R -> R) (x y : Tensor) :
  Forall P x -> Forall Q y -> (forall a b, P a -> Q b -> S (f a b)) ->
  Forall S (map2 f x y).
Proof.
  intros Hx. revert y. induction Hx as [|a x Ha Hx IH]; intros y Hy HS;
    simpl; [constructor|].
  destruct Hy as [|b y Hb Hy]; constructor; auto.
Qed.

Lemma base_dense_moments_bounded (G : R) (self self' : Optimizer) (k : nat)
  (g p p' : Tensor) :
  0 <= beta_1 self <= 1 -> 0 <= beta_2 self <= 1 ->
  Forall (fun a => Rabs a <= G) g -> moments_bounded G self ->
  Adalpha.update_step (Dense g) p k self = Ok (self', p') ->
  moments_bounded G self'.
Proof.
  intros Hb1 Hb2 Hg [Hm Hv] H.
  apply base_step_Ok in H.
  destruct H as (m & v & m' & v' & Em & Ev & _ & _ & (_ & _ & -> & ->) & H).
  apply apply_update_Ok in H. destruct H as (v_den & -> & _).
  split.
  - intros j w Hj. simpl in Hj. apply nth_error_set_nth_cases in Hj.
    destruct Hj as [[_ ->]|[_ Hj]]; [|eapply Hm; eauto].
    apply (Forall_map2_both (fun a => Rabs a <= G) (fun a => Rabs a <= G));
      [eapply Hm; eauto | exact Hg |].
    intros a b Ha Hb.
    replace (a + (b - a) * (1 - beta_1 self))
      with (beta_1 self * a + (1 - beta_1 self) * b) by ring.
    eapply Rle_trans; [apply Rabs_triang|]. rewrite !Rabs_mult.
    rewrite (Rabs_pos_eq (beta_1 self)), (Rabs_pos_eq (1 - beta_1 self)) by lra.
    nra.
  - intros j w Hj. simpl in Hj. apply nth_error_set_nth_cases in Hj.
    destruct Hj as [[_ ->]|[_ Hj]]; [|eapply Hv; eauto].
    apply (Forall_map2_both (fun a => 0 <= a <= G * G)
             (fun a => Rabs a <= G));
      [eapply Hv; eauto | exact Hg |].
    intros a b Ha Hb.
    assert (Hbb : 0 <= b * b <= G * G).
    { pose proof (Rle_0_sqr b) as Hs. unfold Rsqr in Hs. split; [exact Hs|].
      replace (b * b) with (Rabs b * Rabs b)
        by (rewrite <- Rabs_mult; apply Rabs_pos_eq, Hs).
      pose proof (Rabs_pos b). nra. }
    replace (a + (b * b - a) * (1 - beta_2 self))
      with (beta_2 self * a + (1 - beta_2 self) * (b * b)) by ring.
    split; nra.
Qed.

(** X17: in the base variant the moments are averages of what they saw.
    With [0 <= beta_1 <= 1] and [0 <= beta_2 <= 1], starting from the zero
    moments of [build], after any run of dense steps whose gradients are
    all at most [G] in absolute value, every element of [m] is at most [G]
    in absolute value and every element of [v] lies in [[0, G^2]]. *)
Theorem base_moments_bounded (G lr : R) (cp : nat) (b1 b2 eps : R)
  (ams : bool) (var_list : list Tensor) (calls : list HostCall)
  (self : Optimizer) (variables : list Tensor) :
  0 <= G -> 0 <= b1 <= 1 -> 0 <= b2 <= 1 ->
  Forall (dense_bounded G) calls ->
  host_run (step_of Base) calls
    (Adalpha.build var_list (Adalpha.init lr cp b1 b2 eps ams), var_list)
  = Ok (self, variables) ->
  (forall k m, nth_error (_momentums self) k = Some m ->
               Forall (fun a => Rabs a <= G) m) /\
  (forall k v, nth_error (_velocities self) k = Some v ->
               Forall (fun a => 0 <= a <= G * G) v).
Proof.
  intros HG Hb1 Hb2 Hc H.
  set (s0 := Adalpha.build var_list (Adalpha.init lr cp b1 b2 eps ams)) in *.
  assert (I0 : moments_bounded G s0).
  { split; intros k x Hk; simpl in Hk;
      apply nth_error_In, in_map_iff in Hk; destruct Hk as (var & <- & _);
      unfold add_variable_from_reference; apply Forall_map, Forall_forall;
      intros a _; simpl.
    - rewrite Rabs_R0. exact HG.
    - split; [lra | nra]. }
  assert (B0 : beta_1 s0 = b1 /\ beta_2 s0 = b2) by (split; reflexivity).
  clearbody s0. revert s0 var_list I0 B0 H.
  induction Hc as [|c calls Hc0 Hc IH]; intros s0 vars I0 [B1 B2] H;
    simpl in H.
  - inversion H; subst. exact I0.
  - bind_inv H. destruct r as [s1 v1].
    apply host_call_Ok in E.
    destruct c as [k [g | vals idx] | new_std |]; simpl in Hc0.
    + destruct E as (p & p' & _ & E & _).
      pose proof (step_of_fields Base _ _ _ _ _ _ E) as (_ & _ & E1 & E2 & _).
      apply (IH s1 v1); [|split; congruence | exact H].
      eapply base_dense_moments_bounded; [| | exact Hc0 | exact I0 | exact E];
        rewrite ?B1, ?B2; assumption.
    + contradiction.
    + destruct E as [-> _].
      apply (IH (Adalpha.update_loss new_std s0) v1);
        [exact I0 | auto | exact H].
    + destruct E as [-> _].
      apply (IH (iterate s0) v1); [exact I0 | auto | exact H].
Qed.

(** ** The first step from zero moments *)

Lemma first_step_scalar (lr c b1 b2 eps gi : R) :
  b1 <> 1 -> 0 <= b2 <= 1 -> 0 < eps ->
  Rabs ((0 + (gi - 0) * (1 - b1))
        * (lr * (sqrt (1 - b2 ^ 1) / (1 - b1 ^ 1)) * c)
        / (sqrt (0 + (gi * gi - 0) * (1 - b2)) + eps))
  <= Rabs (lr * c).
Proof.
  intros Hb1 Hb2 He.
  set (s := sqrt (1 - b2)).
  assert (Hs : 0 <= s) by apply sqrt_pos.
  assert (Ev : sqrt (0 + (gi * gi - 0) * (1 - b2)) = s * Rabs gi).
  { replace (0 + (gi * gi - 0) * (1 - b2)) with ((1 - b2) * Rsqr gi)
      by (unfold Rsqr; ring).
    rewrite sqrt_mult_alt by lra. rewrite sqrt_Rsqr_abs. reflexivity. }
  rewrite Ev. rewrite !pow_1. fold s.
  pose proof (Rabs_pos gi) as Hg.
  assert (Hd : 0 < s * Rabs gi + eps) by nra.
  replace ((0 + (gi - 0) * (1 - b1)) * (lr * (s / (1 - b1)) * c)
           / (s * Rabs gi + eps))
    with ((lr * c) * (gi * s / (s * Rabs gi + eps))) by (field; lra).
  rewrite Rabs_mult. rewrite <- (Rmult_1_r (Rabs (lr * c))) at 2.
  apply Rmult_le_compat_l; [apply Rabs_pos|].
  unfold Rdiv. rewrite !Rabs_mult.
  rewrite (Rabs_pos_eq s Hs), (Rabs_pos_eq (/ (s * Rabs gi + eps)))
    by (left; apply Rinv_0_lt_compat, Hd).
  apply Rmult_le_reg_r with (s * Rabs gi + eps); [exact Hd|].
  rewrite Rmult_assoc, Rinv_l, Rmult_1_r, Rmult_1_l by lra. lra.
Qed.

(** X18: the first step.  In the base variant, on a slot whose moments are
    still zero and with the step counter at 0, a dense step moves every
    element of the parameter by at most
    [|lr * (1 - std*chaos_punish)^chaos_punish|], however large the gradient
    is ([beta_1 <> 1], [0 <= beta_2 <= 1], [epsilon > 0]). *)
Theorem base_first_step_bound (self self' : Optimizer) (k : nat)
  (g p p' : Tensor) :
  iterations self = 0%nat ->
  beta_1 self <> 1 -> 0 <= beta_2 self <= 1 -> 0 < epsilon self ->
  nth_error (_momentums self) k = Some (zeros (length p)) ->
  nth_error (_velocities self) k = Some (zeros (length p)) ->
  (amsgrad self = true ->
   nth_error (_velocity_hats self) k = Some (zeros (length p))) ->
  Adalpha.update_step (Dense g) p k self = Ok (self', p') ->
  forall i,
    Rabs (nth i p' 0 - nth i p 0)
    <= Rabs (learning_rate self
             * (1 - std self * INR (chaos_punish self)) ^ chaos_punish self).
Proof.
  intros Hit Hb1 Hb2 He Hm Hv Hh H i.
  apply base_step_Ok in H.
  destruct H as (m & v & m' & v' & Em & Ev & Lm' & Lv' & (Lg & _ & -> & ->) & H).
  rewrite Hm in Em. rewrite Hv in Ev. inversion Em; subst m.
  inversion Ev; subst v. clear Em Ev. rewrite zeros_length in *.
  apply apply_update_Ok in H.
  destruct H as (v_den & _ & Hf & Ht & L1 & L2 & L3 & ->).
  rewrite Hit in *.
  set (c := (1 - std self * INR (chaos_punish self)) ^ chaos_punish self).
  set (m' := map2 (fun mi gi => mi + (gi - mi) * (1 - beta_1 self))
                  (zeros (length p)) g) in *.
  set (v' := map2 (fun vi gi => vi + (gi * gi - vi) * (1 - beta_2 self))
                  (zeros (length p)) g) in *.
  destruct (Nat.lt_ge_cases i (length p)) as [Hlt|Hge].
  2:{ rewrite !nth_overflow; try lia.
      - rewrite Rminus_diag, Rabs_R0. apply Rabs_pos.
      - rewrite map2_length; [lia|]. rewrite map2_length; congruence. }
  assert (Ed : nth i v_den 0 = nth i v' 0).
  { destruct (amsgrad self) eqn:Ha.
    - destruct (Ht eq_refl) as (v_hat & Eh & Lh & -> & _).
      rewrite (Hh eq_refl) in Eh. inversion Eh; subst v_hat.
      rewrite (nth_map2 Rmax (zeros (length p)) v' i 0 0 0)
        by (rewrite ?zeros_length; lia).
      rewrite nth_zeros. apply Rmax_right. unfold v'.
      rewrite (nth_map2 _ _ g i 0 0 0)
        by (rewrite ?zeros_length; lia).
      rewrite nth_zeros. pose proof (Rle_0_sqr (nth i g 0)) as Hs.
      unfold Rsqr in Hs.
      replace (0 + (nth i g 0 * nth i g 0 - 0) * (1 - beta_2 self))
        with ((nth i g 0 * nth i g 0) * (1 - beta_2 self)) by ring.
      apply Rmult_le_pos; lra.
    - destruct (Hf eq_refl) as [-> _]. reflexivity. }
  rewrite (nth_map2 Rminus p _ i 0 0 0)
    by (rewrite ?map2_length; congruence || lia).
  rewrite (nth_map2 _ m' v_den i 0 0 0) by lia.
  rewrite Ed. unfold m', v'.
  rewrite !(nth_map2 _ (zeros (length p)) g i 0 0 0)
    by (rewrite ?zeros_length; lia).
  rewrite nth_zeros.
  replace (nth i p 0
           - (0 + (nth i g 0 - 0) * (1 - beta_1 self))
             * (learning_rate self
                * (sqrt (1 - beta_2 self ^ 1) / (1 - beta_1 self ^ 1)) * c)
             / (sqrt (0 + (nth i g 0 * nth i g 0 - 0) * (1 - beta_2 self))
                + epsilon self)
           - nth i p 0)
    with (- ((0 + (nth i g 0 - 0) * (1 - beta_1 self))
             * (learning_rate self
                * (sqrt (1 - beta_2 self ^ 1) / (1 - beta_1 self ^ 1)) * c)
             / (sqrt (0 + (nth i g 0 * nth i g 0 - 0) * (1 - beta_2 self))
                + epsilon self))) by ring.
  rewrite Rabs_Ropp. apply first_step_scalar; assumption.
Qed.

(** ** The theorems above at concrete inputs *)

Lemma step_frame_witness :
  exists self' p',
    step_of Base (Dense [0.1]) [1] 0%nat
      (Adalpha.build [[1]; [2; 3]] (Adalpha.init 0.001 1 0.9 0.999 1e-7 true))
    = Ok (self', p') /\
    nth_error (_momentums self') 1 = Some [0; 0] /\
    iterations self' = 0%nat.
Proof.
  destruct (step_of Base (Dense [0.1]) [1] 0%nat
              (Adalpha.build [[1]; [2; 3]]
                 (Adalpha.init 0.001 1 0.9 0.999 1e-7 true)))
    as [[self' p']|e] eqn:E.
  - exists self', p'. split; [reflexivity|].
    destruct (step_frame Base _ _ _ _ _ _ E) as (H1 & _ & _ & _ & _ & _ & H7 & _).
    split; [|exact H7].
    destruct (H1 1%nat ltac:(lia)) as (Hm & _). rewrite Hm. reflexivity.
  - run_structure E. discriminate E.
Defined.

Lemma step_v_hat_monotone_witness :
  exists self' p' v_hat',
    step_of Momentum (Dense [0.1]) [1] 0%nat
      (Adalpha.build [[1]] (Adalpha.init 0.001 1 0.9 0.999 1e-7 true))
    = Ok (self', p') /\
    nth_error (_velocity_hats self') 0 = Some v_hat' /\
    Forall2 Rle [0] v_hat'.
Proof.
  destruct (step_of Momentum (Dense [0.1]) [1] 0%nat
              (Adalpha.build [[1]] (Adalpha.init 0.001 1 0.9 0.999 1e-7 true)))
    as [[self' p']|e] eqn:E.
  - destruct (proj1 (step_v_hat_monotone Momentum _ _ _ _ _ _ E) eq_refl)
      as (v_hat & v_hat' & v' & H1 & H2 & _ & _ & H5 & _).
    exists self', p', v_hat'. split; [reflexivity|]. split; [exact H2|].
    simpl in H1. inversion H1; subst v_hat. exact H5.
  - run_structure E. discriminate E.
Defined.

Lemma step_size_bound_witness :
  exists self' p' m',
    step_of Base (Dense [0.1]) [1] 0%nat
      (Adalpha.build [[1]] (Adalpha.init 0.001 6 0.9 0.999 1e-7 false))
    = Ok (self', p') /\
    nth_error (_momentums self') 0 = Some m' /\
    Rabs (nth 0 p' 0 - nth 0 [1] 0)
    <= Rabs (nth 0 m' 0)
       * Rabs (step_scale Base
                 (Adalpha.build [[1]]
                    (Adalpha.init 0.001 6 0.9 0.999 1e-7 false)))
       / 1e-7.
Proof.
  destruct (step_of Base (Dense [0.1]) [1] 0%nat
              (Adalpha.build [[1]] (Adalpha.init 0.001 6 0.9 0.999 1e-7 false)))
    as [[self' p']|e] eqn:E.
  - destruct (step_size_bound Base _ _ _ _ _ _ E) as (m' & H1 & H2 & _).
    { apply (real_step_intro Base _ self' 0%nat (Dense [0.1]) [1] p').
      - simpl. lra.
      - simpl. lra.
      - intros H. discriminate H.
      - simpl. lra.
      - apply build_zero_moments. reflexivity.
      - exact E. }
    { simpl. lra. }
    exists self', p', m'. split; [reflexivity|]. split; [exact H1|].
    exact (H2 0%nat).
  - run_structure E. discriminate E.
Defined.

Lemma zero_step_scale_freezes_witness :
  exists self',
    step_of Base (Dense [0.1]) [1] 0%nat (Adalpha.build [[1]] Adalpha.default)
    = Ok (self', [1]).
Proof.
  destruct (step_of Base (Dense [0.1]) [1] 0%nat
              (Adalpha.build [[1]] Adalpha.default))
    as [[self' p']|e] eqn:E.
  - exists self'.
    destruct (zero_step_scale_freezes Base
                (Adalpha.build [[1]] Adalpha.default) self' 0 (Dense [0.1])
                [1] p') as [_ ->]; [simpl; lia | simpl; lra | exact E | |].
    + apply (real_step_intro Base _ self' 0%nat (Dense [0.1]) [1] p').
      * simpl. lra.
      * simpl. lra.
      * intros H. discriminate H.
      * simpl. lra.
      * apply build_zero_moments. reflexivity.
      * exact E.
    + reflexivity.
  - run_structure E. discriminate E.
Defined.

Lemma well_formed_run_succeeds_witness :
  exists w,
    host_run (step_of Momentum)
      [CallUpdateStep 1 (IndexedSlices [0.5] [1%nat]); CallIterate;
       CallUpdateStep 0 (Dense [0.1])]
      (Adalpha.build [[1]; [2; 3]] (Adalpha.init 0.001 6 0.9 0.999 1e-7 true),
       [[1]; [2; 3]]) = Ok w.
Proof.
  destruct (proj2 (proj2 (well_formed_run_succeeds Momentum 0.001 6 0.9 0.999
                            1e-7 true [[1]; [2; 3]]
                            [CallUpdateStep 1 (IndexedSlices [0.5] [1%nat]);
                             CallIterate; CallUpdateStep 0 (Dense [0.1])])))
    as (w & Hw & _).
  - repeat constructor. simpl. exists 2%nat. repeat constructor.
  - exists w. exact Hw.
Defined.

Lemma base_moments_bounded_witness :
  exists self variables,
    host_run (step_of Base) [CallUpdateStep 0 (Dense [0.5]); CallIterate]
      (Adalpha.build [[1]] (Adalpha.init 0.001 6 0.9 0.999 1e-7 false), [[1]])
    = Ok (self, variables) /\
    forall k m, nth_error (_momentums self) k = Some m ->
                Forall (fun a => Rabs a <= 1) m.
Proof.
  destruct (host_run (step_of Base)
              [CallUpdateStep 0 (Dense [0.5]); CallIterate]
              (Adalpha.build [[1]] (Adalpha.init 0.001 6 0.9 0.999 1e-7 false),
               [[1]])) as [[self variables]|e] eqn:E.
  - exists self, variables. split; [reflexivity|].
    refine (proj1 (base_moments_bounded 1 0.001 6 0.9 0.999 1e-7 false [[1]]
                     [CallUpdateStep 0 (Dense [0.5]); CallIterate]
                     self variables _ _ _ _ E)); try lra.
    repeat constructor. simpl. rewrite Rabs_pos_eq; lra.
  - run_structure E. discriminate E.
Defined.

Lemma base_first_step_bound_witness :
  exists self' p',
    Adalpha.update_step (Dense [1000]) [1] 0
      (Adalpha.build [[1]] (Adalpha.init 0.001 6 0.9 0.999 1e-7 false))
    = Ok (self', p') /\
    Rabs (nth 0 p' 0 - nth 0 [1] 0) <= Rabs (0.001 * (1 - 1 * INR 6) ^ 6).
Proof.
  destruct (Adalpha.update_step (Dense [1000]) [1] 0
              (Adalpha.build [[1]] (Adalpha.init 0.001 6 0.9 0.999 1e-7 false)))
    as [[self' p']|e] eqn:E.
  - exists self', p'. split; [reflexivity|].
    refine (base_first_step_bound
              (Adalpha.build [[1]] (Adalpha.init 0.001 6 0.9 0.999 1e-7 false))
              self' 0 [1000] [1] p' eq_refl _ _ _ eq_refl eq_refl _ E 0%nat).
    + simpl. lra.
    + simpl. lra.
    + simpl. lra.
    + simpl. intros H. discriminate H.
  - run_structure E. discriminate E.
Defined.
